(** * topcorr: filtered correlation networks

    A shallow embedding of [topcorr/topcorr.py] and the properties its
    specification states about it.

    Numbers.  A numpy array of floats is modelled with exact rationals
    ([Q]): every finite float is a rational and the comparisons the code
    makes agree on them.  Rounding and NaN are outside the model.  The one
    transcendental primitive, [np.sqrt], and the two external
    collaborators, [np.linalg.inv] and [nx.check_planarity], are parameters
    of the definitions that call them.

    Arrays.  A 2-d array is a list of rows; [corr.shape[0]] is the number
    of rows and [corr[i, j]] is [get corr i j].

    Errors.  A Python exception is a value of [exn]; a function that can
    raise returns [Exc A]. *)

From Stdlib Require Import List Arith Bool Lia PeanoNat.
From Stdlib Require Import ZArith QArith Qabs.
From Stdlib Require Import Permutation Sorted.
From Stdlib Require Import Lqa.
Import ListNotations.

Local Open Scope nat_scope.

(** ** Exceptions *)

Inductive exn : Type :=
| ValueError
| IndexError
| TypeError
| LinAlgError.

Inductive Exc (A : Type) : Type :=
| Ok (a : A)
| Raise (e : exn).

Arguments Ok {A} a.
Arguments Raise {A} e.

Definition bind {A B : Type} (m : Exc A) (k : A -> Exc B) : Exc B :=
  match m with
  | Ok a => k a
  | Raise e => Raise e
  end.

Notation "x <- m ;; k" := (bind m (fun x => k))
  (at level 61, m at next level, right associativity).

(** ** Arrays *)

Definition vector := list Q.
Definition matrix := list (list Q).

Definition shape0 (corr : matrix) : nat := length corr.

(** [corr[i, j]].  Outside the array the model reads 0, where numpy raises
    [IndexError]; the properties below are stated for reads inside the
    array. *)
Definition get (corr : matrix) (i j : nat) : Q := nth j (nth i corr []) 0%Q.

Definition is_square (corr : matrix) : Prop :=
  Forall (fun row => length row = shape0 corr) corr.

Definition is_squareb (corr : matrix) : bool :=
  forallb (fun row => length row =? shape0 corr) corr.

Definition map_matrix (f : Q -> Q) (corr : matrix) : matrix :=
  map (map f) corr.

(** [np.abs] *)
Definition np_abs (corr : matrix) : matrix := map_matrix Qabs corr.

(** [x < y] on floats, as a boolean. *)
Definition Qltb (x y : Q) : bool := negb (Qle_bool y x).

(** [a[mask(a)] = v]: every entry that satisfies the mask is overwritten. *)
Definition masked_assign (mask : Q -> bool) (v : Q) (a : matrix) : matrix :=
  map_matrix (fun x => if mask x then v else x) a.

(** ** threshold *)

Definition threshold (corr : matrix) (t : Q) (binary absolute : bool) : matrix :=
  let corr := corr (* corr.copy() *) in
  let corr :=
    if absolute
    then masked_assign (fun x => Qltb (Qabs x) t) 0%Q corr
    else masked_assign (fun x => Qltb x t) 0%Q corr in
  let corr :=
    if binary
    then masked_assign (fun x => Qltb 0%Q (Qabs x)) 1%Q corr
    else corr in
  corr.

(** ** Index arrays and sorting *)

(** [a[i]] on a 1-d array; out of range raises [IndexError]. *)
Definition index {A : Type} (a : list A) (i : nat) : Exc A :=
  match nth_error a i with
  | Some x => Ok x
  | None => Raise IndexError
  end.

Definition np_sum (a : vector) : Q := fold_left Qplus a 0%Q.

(** [np.argsort]: the indices of [a], in ascending order of their values.
    numpy does not fix the order of equal values; the model keeps them in
    index order (a stable insertion sort).  The theorems below that speak
    about an order hold for every order of ties. *)
Fixpoint insert_by (key : nat -> Q) (x : nat) (l : list nat) : list nat :=
  match l with
  | [] => [x]
  | y :: l' =>
      if Qle_bool (key x) (key y) then x :: y :: l' else y :: insert_by key x l'
  end.

Definition argsort (a : vector) : list nat :=
  fold_right (insert_by (fun i => nth i a 0%Q)) [] (seq 0 (length a)).

(** [a[::-1]] *)
Definition reversed {A : Type} (a : list A) : list A := rev a.

(** [corr.flatten()] *)
Definition flatten (corr : matrix) : vector := concat corr.

(** [np.unravel_index(v, (p, p))] *)
Definition unravel_index (v p : nat) : nat * nat := (v / p, v mod p).

(** [corr[:, i]] *)
Definition column (corr : matrix) (i : nat) : vector :=
  map (fun row => nth i row 0%Q) corr.

(** [corr.shape[1]] *)
Definition shape1 (corr : matrix) : nat := length (hd [] corr).

(** [corr.sum(axis=0)]: the sums of the columns. *)
Definition sum_axis0 (corr : matrix) : vector :=
  map (fun j => np_sum (column corr j)) (seq 0 (shape1 corr)).

(** [np.zeros((p, p))] and [np.zeros((p, p, p))] *)
Definition zeros2 (p : nat) : matrix := repeat (repeat 0%Q p) p.
Definition zeros3 (p : nat) : list matrix := repeat (zeros2 p) p.

(** Assignment at an index; the code only assigns inside the array. *)
Fixpoint upd {A : Type} (l : list A) (i : nat) (f : A -> A) : list A :=
  match l, i with
  | [], _ => []
  | x :: l', O => f x :: l'
  | x :: l', S i' => x :: upd l' i' f
  end.

Definition set2 (a : matrix) (i j : nat) (v : Q) : matrix :=
  upd a i (fun row => upd row j (fun _ => v)).

Definition get3 (D : list matrix) (i j k : nat) : Q := get (nth i D []) j k.

Definition set3 (D : list matrix) (i j k : nat) (v : Q) : list matrix :=
  upd D i (fun a => set2 a j k v).

(** ** Python sets of node ids

    A set is a list without duplicates; membership, union and difference
    are the only operations the code uses on the sets it iterates. *)

(** A node id is an integer. *)
Abbreviation node := nat (only parsing).

Definition mem (x : node) (s : list node) : bool := existsb (Nat.eqb x) s.

Definition set_add (x : node) (s : list node) : list node :=
  if mem x s then s else s ++ [x].

Definition set_of (l : list node) : list node := fold_left (fun s x => set_add x s) l [].

Definition set_union (s1 s2 : list node) : list node :=
  fold_left (fun s x => set_add x s) s2 s1.

Definition set_difference (s1 s2 : list node) : list node :=
  filter (fun x => negb (mem x s2)) s1.

Definition subset (s1 s2 : list node) : bool := forallb (fun x => mem x s2) s1.

(** Equality of two (frozen) sets. *)
Definition set_eqb (s1 s2 : list node) : bool := subset s1 s2 && subset s2 s1.

(** ** The networkx graph

    [nx.Graph]: the nodes in insertion order, and the edges, each an
    unordered pair with its [weight] attribute, in insertion order. *)

Record Graph : Type := mkGraph {
  nodes : list node;
  edges : list (node * node * Q)
}.

Definition nx_Graph : Graph := mkGraph [] [].

Definition same_edge (u v : node) (e : node * node) : bool :=
  ((u =? fst e) && (v =? snd e)) || ((u =? snd e) && (v =? fst e)).

Definition add_node (G : Graph) (n : node) : Graph :=
  if mem n (nodes G) then G else mkGraph (nodes G ++ [n]) (edges G).

Definition add_nodes_from (G : Graph) (l : list node) : Graph :=
  fold_left add_node l G.

Definition has_edge (G : Graph) (u v : node) : bool :=
  existsb (fun e => same_edge u v (fst e)) (edges G).

(** [G.add_edge(u, v, weight=w)]: both ends become nodes; an edge that is
    already there keeps its place and takes the new weight.  The graph is
    undirected: the list keeps a pair the way it was first given, and
    [same_edge] reads it in both directions. *)
Definition add_edge (G : Graph) (u v : node) (w : Q) : Graph :=
  let G1 := add_node (add_node G u) v in
  if has_edge G1 u v
  then mkGraph (nodes G1)
         (map (fun e => if same_edge u v (fst e) then (fst e, w) else e) (edges G1))
  else mkGraph (nodes G1) (edges G1 ++ [(u, v, w)]).

(** [G.remove_edge(u, v)], called on an edge that was just added. *)
Definition remove_edge (G : Graph) (u v : node) : Graph :=
  mkGraph (nodes G) (filter (fun e => negb (same_edge u v (fst e))) (edges G)).

Definition number_of_edges (G : Graph) : nat := length (edges G).

Definition pairs (G : Graph) : list (node * node) := map fst (edges G).

(** ** TMFG *)

(** A Python value passed as the [new] argument: an integer node id, or
    something with a length ([collections.Sized]). *)
Inductive pyobj : Type :=
| PyInt (n : node)
| PySized (l : list node).

(** A face is a frozenset of node ids; [faces] is a set of faces, listed
    in the order in which the faces were added. *)
Definition face := list node.

Definition frozenset (l : list node) : face := set_of l.

Definition faces_add (faces : list face) (f : face) : list face :=
  if existsb (set_eqb f) faces then faces else faces ++ [f].

(** [faces.remove(f)] *)
Definition faces_remove (faces : list face) (f : face) : list face :=
  filter (fun g => negb (set_eqb f g)) faces.

Definition _calculate_new_faces (faces : list face) (new : node)
    (old_set : list node) : Exc (list face) :=
  let faces := faces_remove faces (frozenset old_set) in
  o1 <- index old_set 1 ;; o0 <- index old_set 0 ;;
  let faces := faces_add faces (frozenset [new; o1; o0]) in
  o0 <- index old_set 0 ;; o2 <- index old_set 2 ;;
  let faces := faces_add faces (frozenset [new; o0; o2]) in
  o1 <- index old_set 1 ;; o2 <- index old_set 2 ;;
  let faces := faces_add faces (frozenset [new; o1; o2]) in
  Ok faces.

Definition _add_triangular_face (G : Graph) (new : pyobj) (old_set : list node)
    (C : matrix) (faces : list face) : Exc Graph :=
  match new with
  | PySized _ => Raise ValueError
  | PyInt new =>
      if 3 <? length old_set then Raise ValueError
      else Ok (fold_left (fun G j => add_edge G new j (get C new j)) old_set G)
  end.

(** The scan of the faces in one round of the [while] loop:
    [(max_corr, max_i, nodes_correlated_with)], where [None] stands for
    the initial [max_i = -1] and [nodes_correlated_with = None]. *)
Definition scan_state : Type := Q * option (node * face).

Definition scan_face (weight_corr : matrix) (not_in_arr : list node)
    (st : scan_state) (ind : face) : Exc scan_state :=
  let most_related :=
    map (fun n => np_sum (map (fun f => get weight_corr f n) ind)) not_in_arr in
  let ind_2 := reversed (argsort most_related) in
  i2 <- index ind_2 0 ;;
  curr_corr <- index most_related i2 ;;
  if Qltb (fst st) curr_corr
  then (n <- index not_in_arr i2 ;; Ok (curr_corr, Some (n, ind)))
  else Ok st.

Fixpoint scan_faces (weight_corr : matrix) (not_in_arr : list node)
    (st : scan_state) (faces : list face) : Exc scan_state :=
  match faces with
  | [] => Ok st
  | ind :: rest =>
      st' <- scan_face weight_corr not_in_arr st ind ;;
      scan_faces weight_corr not_in_arr st' rest
  end.

(** The state of the [while] loop. *)
Record tmfg_state : Type := mkTmfg {
  t_G : Graph;
  t_faces : list face;
  t_starters_set : list node;
  t_not_in : list node
}.

(** One round of [while len(not_in) > 0]. *)
Definition tmfg_round (corr weight_corr : matrix) (s : tmfg_state) : Exc tmfg_state :=
  let not_in_arr := t_not_in s in
  st <- scan_faces weight_corr not_in_arr ((-1)%Q, None) (t_faces s) ;;
  match snd st with
  | None => Raise TypeError (* set(max_i) with max_i = -1 *)
  | Some (max_i, nodes_correlated_with) =>
      let starters_set := set_union (t_starters_set s) [max_i] in
      let not_in := set_difference (t_not_in s) starters_set in
      G <- _add_triangular_face (t_G s) (PyInt max_i) nodes_correlated_with corr (t_faces s) ;;
      faces <- _calculate_new_faces (t_faces s) max_i nodes_correlated_with ;;
      Ok (mkTmfg G faces starters_set not_in)
  end.

(** The [while] loop.  Every round takes one node out of [not_in], so
    [length not_in] rounds are enough: see [tmfg_loop_fuel]. *)
Fixpoint tmfg_loop (fuel : nat) (corr weight_corr : matrix) (s : tmfg_state)
    : Exc tmfg_state :=
  match t_not_in s with
  | [] => Ok s
  | _ :: _ =>
      match fuel with
      | O => Ok s
      | S fuel' =>
          s' <- tmfg_round corr weight_corr s ;;
          tmfg_loop fuel' corr weight_corr s'
      end
  end.

(** The seed: the tetrahedron on the four most central nodes and its four
    faces, from the index array [ind]. *)
Definition tmfg_seed (corr : matrix) (p : nat) (ind : list nat) : Exc tmfg_state :=
  let starters := firstn 4 ind in
  let starters_set := set_of starters in
  let not_in := set_of (seq 0 p) in
  let not_in := set_difference not_in starters_set in
  let G := nx_Graph in
  let G := add_nodes_from G (seq 0 p) in
  let faces : list face := [] in
  i0 <- index ind 0 ;; i1 <- index ind 1 ;; i3 <- index ind 3 ;;
  G <- _add_triangular_face G (PyInt i0) (set_of [i1; i3]) corr faces ;;
  i1 <- index ind 1 ;; i2 <- index ind 2 ;; i3 <- index ind 3 ;;
  G <- _add_triangular_face G (PyInt i1) (set_of [i2; i3]) corr faces ;;
  i0 <- index ind 0 ;; i2 <- index ind 2 ;; i3 <- index ind 3 ;;
  G <- _add_triangular_face G (PyInt i0) (set_of [i2; i3]) corr faces ;;
  i2 <- index ind 2 ;; i1 <- index ind 1 ;; i3 <- index ind 3 ;;
  G <- _add_triangular_face G (PyInt i2) (set_of [i1; i3]) corr faces ;;
  let faces := faces_add faces (frozenset [i0; i1; i3]) in
  let faces := faces_add faces (frozenset [i1; i2; i3]) in
  let faces := faces_add faces (frozenset [i0; i2; i3]) in
  let faces := faces_add faces (frozenset [i0; i1; i2]) in
  Ok (mkTmfg G faces starters_set not_in).

(** [tmfg] from the point where [weight_corr] is bound. *)
Definition tmfg_from (corr weight_corr : matrix) : Exc Graph :=
  let p := shape0 corr in
  let degree_centrality := sum_axis0 weight_corr in
  let ind := reversed (argsort degree_centrality) in
  s0 <- tmfg_seed corr p ind ;;
  s <- tmfg_loop (length (t_not_in s0)) corr weight_corr s0 ;;
  Ok (t_G s).

Definition tmfg (corr : matrix) (absolute : bool) : Exc Graph :=
  let weight_corr := if absolute then np_abs corr else corr in
  tmfg_from corr weight_corr.

(** ** PMFG *)

Section Planarity.

(** [nx.check_planarity(G)[0]]: the planarity test of the graph library.
    It sees the nodes and the pairs that are edges, not the weights. *)
Variable check_planarity : list node -> list (node * node) -> bool.

Definition is_planar (G : Graph) : bool := check_planarity (nodes G) (pairs G).

(** The body of the [for] loop for a candidate [v] off the diagonal, up
    to the test of the edge count. *)
Definition pmfg_try (corr : matrix) (G : Graph) (idx_i idx_j : node) : Graph :=
  let G := add_edge G idx_i idx_j (get corr idx_i idx_j) in
  if negb (is_planar G) then remove_edge G idx_i idx_j else G.

(** The [for] loop; it returns the graph after every round, the last
    round first, so that the head is the graph the loop ends with. *)
Fixpoint pmfg_loop (corr : matrix) (p : nat) (vals : list nat) (G : Graph)
    (trace : list Graph) : list Graph :=
  match vals with
  | [] => G :: trace
  | v :: rest =>
      let (idx_i, idx_j) := unravel_index v p in
      if idx_i =? idx_j then pmfg_loop corr p rest G (G :: trace)
      else
        let G' := pmfg_try corr G idx_i idx_j in
        if Z.eqb (Z.of_nat (number_of_edges G')) (3 * (Z.of_nat p - 2))
        then G' :: G :: trace
        else pmfg_loop corr p rest G' (G :: trace)
  end.

Definition pmfg_trace (corr : matrix) : list Graph :=
  let vals := reversed (argsort (flatten corr)) in
  let pmfg := nx_Graph in
  let p := shape0 corr in
  let pmfg := add_nodes_from pmfg (seq 0 p) in
  pmfg_loop corr p vals pmfg [].

Definition pmfg (corr : matrix) : Graph := hd nx_Graph (pmfg_trace corr).

End Planarity.

(** ** Maximum spanning tree *)

Definition _in_same_component (components : list (list node)) (i j : node) : bool :=
  existsb (fun c => mem i c && mem j c) components.

(** The index of the last component that holds [x]: the loop of
    [_merge_components] does not stop at the first. *)
Fixpoint locate (x : node) (components : list (list node)) (idx : nat) (found : option nat)
    : option nat :=
  match components with
  | [] => found
  | c :: rest => locate x rest (S idx) (if mem x c then Some idx else found)
  end.

Fixpoint delete {A : Type} (l : list A) (i : nat) : list A :=
  match l, i with
  | [], _ => []
  | _ :: l', O => l'
  | x :: l', S i' => x :: delete l' i'
  end.

(** [c1 |= c2] changes the set that sits in the list, then
    [del components[c2_i]] takes the other one out. *)
Definition _merge_components (components : list (list node)) (i j : node)
    : Exc (list (list node)) :=
  match locate i components 0 None, locate j components 0 None with
  | Some c1_i, Some c2_i =>
      let c2 := nth c2_i components [] in
      let components := upd components c1_i (fun c1 => set_union c1 c2) in
      Ok (delete components c2_i)
  | _, _ => Raise TypeError
  end.

Fixpoint mst_loop (corr : matrix) (p : nat) (vals : list nat)
    (components : list (list node)) (mst_G : Graph) : Exc Graph :=
  match vals with
  | [] => Ok mst_G
  | v :: rest =>
      let (idx_i, idx_j) := unravel_index v p in
      if idx_i =? idx_j then mst_loop corr p rest components mst_G
      else if _in_same_component components idx_i idx_j
      then mst_loop corr p rest components mst_G
      else
        let mst_G := add_edge mst_G idx_i idx_j (get corr idx_i idx_j) in
        components <- _merge_components components idx_i idx_j ;;
        if Z.eqb (Z.of_nat (number_of_edges mst_G)) (Z.of_nat p - 1)
        then Ok mst_G
        else mst_loop corr p rest components mst_G
  end.

Definition mst (corr : matrix) : Exc Graph :=
  let p := shape0 corr in
  let vals := reversed (argsort (flatten corr)) in
  let components := map (fun x => set_of [x]) (seq 0 p) in
  let mst_G := nx_Graph in
  mst_loop corr p vals components mst_G.

(** ** k nearest neighbours *)

Fixpoint knn_inner (corr : matrix) (k : Z) (i : node) (sort : list nat)
    (num : Z) (G : Graph) : Graph :=
  match sort with
  | [] => G
  | j :: rest =>
      if Z.eqb num k then G
      else if j =? i then knn_inner corr k i rest num G
      else knn_inner corr k i rest (num + 1)%Z (add_edge G i j (get corr i j))
  end.

Definition knn (corr : matrix) (k : Z) : Graph :=
  let p := shape0 corr in
  let G := nx_Graph in
  fold_left
    (fun G i =>
       let edges := column corr i in
       let sort := reversed (argsort edges) in
       knn_inner corr k i sort 0%Z G)
    (seq 0 p) G.

(** ** Partial correlation and the dependency network *)

Section Numeric.

(** [np.sqrt] *)
Variable sqrt : Q -> Q.

(** [np.linalg.inv]: the inverse, or [LinAlgError] for a singular
    matrix. *)
Variable linalg_inv : matrix -> Exc matrix.

(** [np.fill_diagonal(a, v)] *)
Definition fill_diagonal (a : matrix) (v : Q) : matrix :=
  fold_left (fun a i => set2 a i i v) (seq 0 (length a)) a.

(** The two nested loops of [partial_correlation], on the array [a]. *)
Definition partial_correlation_loops (prec : matrix) (p : nat) (a : matrix) : matrix :=
  fold_left
    (fun a i =>
       fold_left
         (fun a j =>
            set2 a i j (- get prec i j / sqrt (get prec i i * get prec j j))%Q)
         (seq 0 p) a)
    (seq 0 p) a.

Definition partial_correlation (corr : matrix) : Exc matrix :=
  let p := shape0 corr in
  prec <- linalg_inv corr ;;
  let partial_correlation := zeros2 p in
  let partial_correlation := partial_correlation_loops prec p partial_correlation in
  let partial_correlation := fill_diagonal partial_correlation 1%Q in
  Ok partial_correlation.

Definition calculate_partial_correlation (corr : matrix) (i j k : nat) : Q :=
  let dem := ((1 - get corr i k ^ 2) * (1 - get corr k j ^ 2))%Q in
  ((get corr i j - get corr i k * get corr k j) / sqrt dem)%Q.

(** [i == j or i == k or j == k] *)
Definition tensor_cond (i j k : nat) : bool := (i =? j) || (i =? k) || (j =? k).

(** The three nested loops of [dependency_network], on the tensor [D]. *)
Definition tensor_loops (corr : matrix) (p : nat) (D : list matrix) : list matrix :=
  fold_left
    (fun D i =>
       fold_left
         (fun D j =>
            fold_left
              (fun D k =>
                 if (i =? j) || (i =? k) || (j =? k) then D
                 else set3 D i j k
                        (get corr i j - calculate_partial_correlation corr i j k)%Q)
              (seq 0 p) D)
         (seq 0 p) D)
    (seq 0 p) D.

(** The loops that write [D[i, j, j] = 1]. *)
Definition sentinel_loops (p : nat) (D : list matrix) : list matrix :=
  fold_left
    (fun D i => fold_left (fun D j => set3 D i j j 1%Q) (seq 0 p) D)
    (seq 0 p) D.

Definition dependency_tensor (corr : matrix) : list matrix :=
  let p := shape0 corr in
  let D := zeros3 p in
  let D := tensor_loops corr p D in
  sentinel_loops p D.

(** The value that the loops of [dependency_network] leave in the cell
    [(i, j, k)] of the tensor, when they assign to it. *)
Definition tensor_value (corr : matrix) (c : nat * nat * nat) : Q :=
  let i := fst (fst c) in
  let j := snd (fst c) in
  let k := snd c in
  if j =? k then 1%Q
  else (get corr i j - calculate_partial_correlation corr i j k)%Q.

(** [D[i, i != ind, k]]: the entries [D[i, j, k]] with [j <> i]. *)
Definition masked_row (D : list matrix) (p i k : nat) : vector :=
  map (fun j => get3 D i j k) (filter (fun j => negb (i =? j)) (seq 0 p)).

(** The loops that fill the result from [D]. *)
Definition filter_loops (D : list matrix) (p : nat) (a : matrix) : matrix :=
  fold_left
    (fun a i =>
       fold_left
         (fun a k =>
            if i =? k then a
            else set2 a k i (np_sum (masked_row D p i k) / inject_Z (Z.of_nat p - 1))%Q)
         (seq 0 p) a)
    (seq 0 p) a.

Definition dependency_network (corr : matrix) : matrix :=
  let p := shape0 corr in
  let D := dependency_tensor corr in
  let dependency_network := zeros2 p in
  filter_loops D p dependency_network.

End Numeric.

(** ** The arrays as objects

    A numpy array is an object: two names can be bound to one array, and
    an assignment through either changes it for both.  The store holds
    the arrays that have a name; a reference is a position in it.  The
    public operations are given again over references, with every
    assignment to an array that the source makes written out as a change
    of the store.  Arrays that never get a name (the results of
    [flatten], [argsort], [sum] and of the comparisons that build a mask)
    are new arrays that nothing else refers to; they are computed as
    values. *)

Inductive ndarray : Type :=
| Arr2 (a : matrix)
| Arr3 (a : list matrix).

Definition ref := nat.
Definition Store := list ndarray.

Definition St (A : Type) : Type := Store -> Exc A * Store.

Definition st_ret {A : Type} (a : A) : St A := fun s => (Ok a, s).

Definition st_bind {A B : Type} (m : St A) (k : A -> St B) : St B :=
  fun s =>
    match m s with
    | (Ok a, s') => k a s'
    | (Raise e, s') => (Raise e, s')
    end.

Notation "x <~ m ;; k" := (st_bind m (fun x => k))
  (at level 61, m at next level, right associativity).

Definition st_lift {A : Type} (m : Exc A) : St A := fun s => (m, s).

(** A new array. *)
Definition alloc (a : ndarray) : St ref := fun s => (Ok (length s), s ++ [a]).

(** The value of a 2-d array. *)
Definition load2 (r : ref) : St matrix :=
  fun s =>
    match nth_error s r with
    | Some (Arr2 a) => (Ok a, s)
    | _ => (Raise TypeError, s)
    end.

Definition load3 (r : ref) : St (list matrix) :=
  fun s =>
    match nth_error s r with
    | Some (Arr3 a) => (Ok a, s)
    | _ => (Raise TypeError, s)
    end.

(** An assignment into the array [r]. *)
Definition modify2 (r : ref) (f : matrix -> matrix) : St unit :=
  fun s =>
    match nth_error s r with
    | Some (Arr2 a) => (Ok tt, upd s r (fun _ => Arr2 (f a)))
    | _ => (Raise TypeError, s)
    end.

Definition modify3 (r : ref) (f : list matrix -> list matrix) : St unit :=
  fun s =>
    match nth_error s r with
    | Some (Arr3 a) => (Ok tt, upd s r (fun _ => Arr3 (f a)))
    | _ => (Raise TypeError, s)
    end.

(** [a.copy()] and [np.abs(a)]: new arrays. *)
Definition np_copy_st (r : ref) : St ref :=
  a <~ load2 r ;; alloc (Arr2 a).

Definition np_abs_st (r : ref) : St ref :=
  a <~ load2 r ;; alloc (Arr2 (np_abs a)).

(** [a[mask] = v], the mask computed from [a] itself. *)
Definition setitem_mask (r : ref) (mask : Q -> bool) (v : Q) : St unit :=
  modify2 r (masked_assign mask v).

Definition threshold_st (corr : ref) (t : Q) (binary absolute : bool) : St ref :=
  corr <~ np_copy_st corr ;;
  _ <~ (if absolute
        then setitem_mask corr (fun x => Qltb (Qabs x) t) 0%Q
        else setitem_mask corr (fun x => Qltb x t) 0%Q) ;;
  _ <~ (if binary
        then setitem_mask corr (fun x => Qltb 0%Q (Qabs x)) 1%Q
        else st_ret tt) ;;
  st_ret corr.

(** [weight_corr] is a new array, or a second name of [corr]. *)
Definition tmfg_st (corr : ref) (absolute : bool) : St Graph :=
  weight_corr <~ (if absolute then np_abs_st corr else st_ret corr) ;;
  c <~ load2 corr ;;
  w <~ load2 weight_corr ;;
  st_lift (tmfg_from c w).

Definition mst_st (corr : ref) : St Graph :=
  c <~ load2 corr ;; st_lift (mst c).

Definition knn_st (corr : ref) (k : Z) : St Graph :=
  c <~ load2 corr ;; st_ret (knn c k).

Section StoreOracles.

Variable check_planarity : list node -> list (node * node) -> bool.
Variable sqrt : Q -> Q.
Variable linalg_inv : matrix -> Exc matrix.

Definition pmfg_st (corr : ref) : St Graph :=
  c <~ load2 corr ;; st_ret (pmfg check_planarity c).

Definition partial_correlation_st (corr : ref) : St ref :=
  c <~ load2 corr ;;
  let p := shape0 c in
  prec_v <~ st_lift (linalg_inv c) ;;
  prec <~ alloc (Arr2 prec_v) ;;
  partial_correlation <~ alloc (Arr2 (zeros2 p)) ;;
  prec_v <~ load2 prec ;;
  _ <~ modify2 partial_correlation (partial_correlation_loops sqrt prec_v p) ;;
  _ <~ modify2 partial_correlation (fun a => fill_diagonal a 1%Q) ;;
  st_ret partial_correlation.

Definition dependency_network_st (corr : ref) : St ref :=
  c <~ load2 corr ;;
  let p := shape0 c in
  D <~ alloc (Arr3 (zeros3 p)) ;;
  c <~ load2 corr ;;
  _ <~ modify3 D (tensor_loops sqrt c p) ;;
  _ <~ modify3 D (sentinel_loops p) ;;
  dependency_network <~ alloc (Arr2 (zeros2 p)) ;;
  Dv <~ load3 D ;;
  _ <~ modify2 dependency_network (filter_loops Dv p) ;;
  st_ret dependency_network.

End StoreOracles.

(** ** Properties of graphs

    The notions the specification uses to describe the graphs: being
    connected, having no cycle, being a spanning tree, and the weight of
    a set of edges. *)

Definition adj (E : list (node * node)) (a b : node) : Prop :=
  In (a, b) E \/ In (b, a) E.

(** [conn E a b]: a walk along edges of [E] leads from [a] to [b]. *)
Inductive conn (E : list (node * node)) : node -> node -> Prop :=
| conn_refl : forall a, conn E a a
| conn_step : forall a b c, adj E a b -> conn E b c -> conn E a c.

(** Every two nodes of the graph are joined by a walk. *)
Definition connected (V : list node) (E : list (node * node)) : Prop :=
  forall a b, In a V -> In b V -> conn E a b.

(** [path E a vs b]: the walk that starts in [a] and then visits the nodes
    [vs] in turn ends in [b]. *)
Inductive path (E : list (node * node)) : node -> list node -> node -> Prop :=
| path_nil : forall a, path E a [] a
| path_cons : forall a b c vs, adj E a b -> path E b vs c -> path E a (b :: vs) c.

(** The edges a walk goes along. *)
Fixpoint edges_of (a : node) (vs : list node) : list (node * node) :=
  match vs with
  | [] => []
  | b :: vs' => (a, b) :: edges_of b vs'
  end.

(** An edge without its direction. *)
Definition norm (e : node * node) : node * node :=
  (Nat.min (fst e) (snd e), Nat.max (fst e) (snd e)).

(** A cycle: a closed walk of at least one edge that goes along no edge
    twice, in either direction. *)
Definition is_cycle (E : list (node * node)) (a : node) (vs : list node) : Prop :=
  vs <> [] /\ path E a vs a /\ NoDup (map norm (edges_of a vs)).

Definition acyclic (E : list (node * node)) : Prop :=
  forall a vs, ~ is_cycle E a vs.

(** A spanning tree of the complete graph on the nodes [0 .. p-1]: a set
    of edges between these nodes that connects them all and has no
    cycle. *)
Definition spanning_tree (p : nat) (T : list (node * node)) : Prop :=
  NoDup (map norm T) /\
  (forall a b, In (a, b) T -> a < p /\ b < p) /\
  (forall a b, a < p -> b < p -> conn T a b) /\
  acyclic T.

(** The weight of a set of edges of the complete graph, read from the
    matrix. *)
Definition weight (corr : matrix) (T : list (node * node)) : Q :=
  np_sum (map (fun e => get corr (fst e) (snd e)) T).

(** The sum of the [weight] attributes of the edges of a graph. *)
Definition total_weight (G : Graph) : Q := np_sum (map snd (edges G)).

(** The node set of a graph is [{0, ..., p-1}]. *)
Definition node_set_is_range (G : Graph) (p : nat) : Prop :=
  NoDup (nodes G) /\ forall a, In a (nodes G) <-> a < p.

(** What [threshold] makes of one entry. *)
Definition threshold_entry (t : Q) (binary absolute : bool) (x : Q) : Q :=
  let y := if absolute
           then (if Qltb (Qabs x) t then 0%Q else x)
           else (if Qltb x t then 0%Q else x) in
  if binary then (if Qltb 0%Q (Qabs y) then 1%Q else y) else y.

(** A 5 x 5 correlation matrix (symmetric, unit diagonal, positive
    definite): four variables correlated 1/2 with each other, and a fifth
    correlated -1/2 with each of them. *)
Definition corr_negative : matrix :=
  [[1; 1 # 2; 1 # 2; 1 # 2; - (1 # 2)];
   [1 # 2; 1; 1 # 2; 1 # 2; - (1 # 2)];
   [1 # 2; 1 # 2; 1; 1 # 2; - (1 # 2)];
   [1 # 2; 1 # 2; 1 # 2; 1; - (1 # 2)];
   [- (1 # 2); - (1 # 2); - (1 # 2); - (1 # 2); 1]]%Q.

(** A planarity test for the examples: a graph with at most 4 nodes, or
    with at most 8 edges, is planar (the smallest graphs that are not
    have 5 nodes and 10 edges, or 6 nodes and 9 edges). *)
Definition planar_if_small (V : list node) (E : list (node * node)) : bool :=
  (length V <=? 4) || (length E <=? 8).

(** ** Shapes, and loops that assign to cells *)

Definition has_shape (p : nat) (a : matrix) : Prop :=
  length a = p /\ Forall (fun row => length row = p) a.

Definition has_shape3 (p : nat) (D : list matrix) : Prop :=
  length D = p /\ Forall (has_shape p) D.

Section CellLoops.

(** An array type [Arr] with cells [I]: [ok] says that the array has the
    right shape, [valid] that a cell is inside it. *)
Variables Arr I : Type.
Variable ok : Arr -> Prop.
Variable valid : I -> Prop.
Variable getc : Arr -> I -> Q.

(** [step] keeps the shape, assigns [V c] to every cell [c] that [W]
    selects, and leaves the other cells as they are. *)
Definition writes_cells (step : Arr -> Arr) (W : I -> bool) (V : I -> Q) : Prop :=
  forall a, ok a ->
    ok (step a) /\
    forall c, valid c -> getc (step a) c = if W c then V c else getc a c.

End CellLoops.

(** The cells of a 2-d and of a 3-d array. *)
Definition cell2_valid (p : nat) (c : nat * nat) : Prop := fst c < p /\ snd c < p.
Definition cell2_get (a : matrix) (c : nat * nat) : Q := get a (fst c) (snd c).
Definition cell3_valid (p : nat) (c : nat * nat * nat) : Prop :=
  fst (fst c) < p /\ snd (fst c) < p /\ snd c < p.
Definition cell3_get (D : list matrix) (c : nat * nat * nat) : Q :=
  get3 D (fst (fst c)) (snd (fst c)) (snd c).

(** ** The partial correlation of a trio

    The specification gives [partialcorr(i, j | k)] as the formula of
    [partial_correlation] restricted to the trio: the entry for [i] and
    [j] of [partial_correlation] applied to the 3 x 3 matrix of the
    correlations among [i], [j] and [k]. *)

Definition trio (corr : matrix) (i j k : nat) : matrix :=
  [[get corr i i; get corr i j; get corr i k];
   [get corr j i; get corr j j; get corr j k];
   [get corr k i; get corr k j; get corr k k]].

(** The entry [[r, c]] of the product of two n x n matrices. *)
Definition matmul_entry (n : nat) (A B : matrix) (r c : nat) : Q :=
  np_sum (map (fun s => (get A r s * get B s c)%Q) (seq 0 n)).

(** [B] is the inverse of [A]: what [np.linalg.inv] promises of its
    result. *)
Definition is_inverse (n : nat) (A B : matrix) : Prop :=
  forall r c, r < n -> c < n ->
    (matmul_entry n A B r c == (if r =? c then 1 else 0))%Q.

(** [s] is the square root of [x]: what [np.sqrt] promises of its
    result. *)
Definition is_sqrt (s x : Q) : Prop := (0 <= s)%Q /\ (s * s == x)%Q.

(** The determinant of the trio of a correlation matrix, from the three
    correlations. *)
Definition trio_det (a b c : Q) : Q := (1 + 2 * a * b * c - a * a - b * b - c * c)%Q.

(** ** Collaborators for the examples *)

(** A square root on the rationals, exact on the squares of rationals. *)
Definition sqrt_exact (x : Q) : Q :=
  match Qnum x with
  | Z.pos n => Z.pos (Pos.sqrt n) # Pos.sqrt (Qden x)
  | _ => 0%Q
  end.

(** The inverse of a 2 x 2 matrix. *)
Definition inv_2x2 (m : matrix) : Exc matrix :=
  match m with
  | [[a; b]; [c; d]] =>
      let det := (a * d - b * c)%Q in
      if Qeq_bool det 0 then Raise LinAlgError
      else Ok [[Qred (d / det); Qred (- b / det)];
               [Qred (- c / det); Qred (a / det)]]%Q
  | _ => Raise LinAlgError
  end.

(** ** Frames

    [keeps n s s']: the first [n] arrays of the store [s] are in [s'] as
    they were.  [frame n m P]: the computation [m] keeps the first [n]
    arrays of any store that has them, and [P] holds of what it
    returns. *)

Definition keeps (n : nat) (s s' : Store) : Prop :=
  n <= length s' /\ forall i, i < n -> nth_error s' i = nth_error s i.

Definition frame {A : Type} (n : nat) (m : St A) (P : A -> Prop) : Prop :=
  forall s, n <= length s ->
    keeps n s (snd (m s)) /\ forall a, fst (m s) = Ok a -> P a.

(** ** Forests and components, for the spanning tree

    [forest_inc E]: every edge of [E] joined two nodes that the edges
    behind it in the list had not connected. *)

Fixpoint forest_inc (E : list (node * node)) : Prop :=
  match E with
  | [] => True
  | e :: E' => ~ conn E' (fst e) (snd e) /\ forest_inc E'
  end.

(** The edges lie between the nodes [0 .. p-1]. *)
Definition in_range (p : nat) (E : list (node * node)) : Prop :=
  forall a b, In (a, b) E -> a < p /\ b < p.

(** [components] is a partition of the nodes [0 .. p-1] into the
    classes of [conn E]: each node is in one set, a set is connected,
    and a set holds whatever is connected to one of its members. *)
Record part_inv (p : nat) (components : list (list node)) (E : list (node * node))
    : Prop := mkPartInv {
  pi_count : forall x, x < p -> length (filter (mem x) components) = 1;
  pi_conn : forall c x y, In c components ->
              mem x c = true -> mem y c = true -> conn E x y;
  pi_closed : forall c x y, In c components ->
              mem x c = true -> conn E x y -> mem y c = true
}.

(** The one-node components that [mst] starts with. *)
Definition singletons (p : nat) : list (list node) :=
  map (fun x => set_of [x]) (seq 0 p).

(** The components of an arbitrary set of edges, built the way [mst]
    builds them; it gives a test for [conn]. *)
Definition merge_total (components : list (list node)) (i j : node) : list (list node) :=
  match _merge_components components i j with
  | Ok c => c
  | Raise _ => components
  end.

Fixpoint components_of (p : nat) (E : list (node * node)) : list (list node) :=
  match E with
  | [] => singletons p
  | e :: E' =>
      let c := components_of p E' in
      if _in_same_component c (fst e) (snd e) then c
      else merge_total c (fst e) (snd e)
  end.

Definition connb (p : nat) (E : list (node * node)) (a b : node) : bool :=
  _in_same_component (components_of p E) a b.

(** The least node of a class stands for the class; the number of
    classes is the number of these nodes. *)
Definition is_rep (p : nat) (E : list (node * node)) (i : node) : bool :=
  forallb (fun j => negb (connb p E j i)) (seq 0 i).

Definition classes (p : nat) (E : list (node * node)) : nat :=
  length (filter (is_rep p E) (seq 0 p)).

Definition pair_eqb (e f : node * node) : bool :=
  (fst e =? fst f) && (snd e =? snd f).

(** The edges of [E] without the edge [e], in either direction. *)
Definition without_edge (e : node * node) (E : list (node * node)) : list (node * node) :=
  filter (fun f => negb (pair_eqb (norm f) (norm e))) E.

(** ** The loop of [mst]

    [mst_inv corr p done components G]: the state of the loop after the
    candidates [done]. *)

Record mst_inv (corr : matrix) (p : nat) (done : list nat)
    (components : list (list node)) (G : Graph) : Prop := mkMstInv {
  mi_part : part_inv p components (pairs G);
  mi_forest : forest_inc (rev (pairs G));
  mi_range : in_range p (pairs G);
  mi_done : forall v, In v done -> conn (pairs G) (v / p) (v mod p);
  mi_weight : forall e, In e (edges G) -> snd e = get corr (fst (fst e)) (snd (fst e));
  mi_nodup : NoDup (nodes G);
  mi_nodes : forall a, In a (nodes G) <-> exists b, adj (pairs G) a b
}.

(** The weight of the candidate [v], and whether it is an edge of [T]. *)
Definition candidate_weight (corr : matrix) (p v : nat) : Q :=
  get corr (v / p) (v mod p).

Definition in_tree (p : nat) (T : list (node * node)) (v : nat) : bool :=
  existsb (pair_eqb (unravel_index v p)) T.

(** The weight of the edges of [T] among the candidates [R]. *)
Definition tree_weight_in (corr : matrix) (p : nat) (T : list (node * node))
    (R : list nat) : Q :=
  np_sum (map (candidate_weight corr p) (filter (in_tree p T) R)).

Definition Qnat (n : nat) : Q := inject_Z (Z.of_nat n).

(** Candidates in descending order of weight. *)
Definition descending (key : nat -> Q) (l : list nat) : Prop :=
  StronglySorted (fun i j => (key j <= key i)%Q) l.

(** The inverse of a 3 x 3 matrix, from its cofactors. *)
Definition inv_3x3 (m : matrix) : Exc matrix :=
  match m with
  | [[a; b; c]; [d; e; f]; [g; h; i]] =>
      let det := (a * (e * i - f * h) - b * (d * i - f * g) + c * (d * h - e * g))%Q in
      if Qeq_bool det 0 then Raise LinAlgError
      else Ok [[Qred ((e * i - f * h) / det); Qred ((c * h - b * i) / det);
                Qred ((b * f - c * e) / det)];
               [Qred ((f * g - d * i) / det); Qred ((a * i - c * g) / det);
                Qred ((c * d - a * f) / det)];
               [Qred ((d * h - e * g) / det); Qred ((b * g - a * h) / det);
                Qred ((a * e - b * d) / det)]]%Q
  | _ => Raise LinAlgError
  end.

(** ** What holds of the state of [tmfg] between rounds

    The nodes of the graph are [range(p)]; edges and faces lie among the
    nodes placed so far; [not_in] holds the others; each round adds 3
    edges and places one node, and the placed nodes are connected. *)

Record tmfg_inv (p : nat) (s : tmfg_state) : Prop := mkTmfgInv {
  ti_nodes : nodes (t_G s) = seq 0 p;
  ti_edges : forall a b, In (a, b) (pairs (t_G s)) ->
               mem a (t_starters_set s) = true /\ mem b (t_starters_set s) = true;
  ti_starters : forall x, mem x (t_starters_set s) = true -> x < p;
  ti_not_in : forall x, mem x (t_not_in s) = true <->
                x < p /\ mem x (t_starters_set s) = false;
  ti_nodup : NoDup (t_not_in s);
  ti_faces : forall f, In f (t_faces s) ->
               length f = 3 /\ NoDup f /\
               forall x, In x f -> mem x (t_starters_set s) = true;
  ti_faces_ne : t_faces s <> [];
  ti_count : number_of_edges (t_G s) + 3 * length (t_not_in s) = 3 * p - 6;
  ti_conn : forall a b, mem a (t_starters_set s) = true ->
              mem b (t_starters_set s) = true -> conn (pairs (t_G s)) a b
}.

(** The pairs of a graph after [add_edge], on the list of pairs. *)
Definition add_pair (E : list (node * node)) (u v : node) : list (node * node) :=
  if existsb (same_edge u v) E then E else E ++ [(u, v)].

(** The state of [tmfg] after the tetrahedron is placed, for four
    distinct nodes in front of [ind]. *)
Definition seed_state (corr : matrix) (p i0 i1 i2 i3 : nat) : tmfg_state :=
  let f := fun (n : nat) (G : Graph) (j : nat) => add_edge G n j (get corr n j) in
  let G := mkGraph (seq 0 p) [] in
  let G := fold_left (f i0) [i1; i3] G in
  let G := fold_left (f i1) [i2; i3] G in
  let G := fold_left (f i0) [i2; i3] G in
  let G := fold_left (f i2) [i1; i3] G in
  mkTmfg G
    (faces_add (faces_add (faces_add (faces_add [] [i0; i1; i3]) [i1; i2; i3])
                  [i0; i2; i3]) [i0; i1; i2])
    [i0; i1; i2; i3]
    (set_difference (seq 0 p) [i0; i1; i2; i3]).

(** A matrix with no negative entry, as [np.abs] gives. *)
Definition nonneg_matrix (w : matrix) : Prop := forall i j, (0 <= get w i j)%Q.

(** ** Notions for the further properties *)

(** The entries of a matrix are not negative. *)
Definition nonneg_entries (corr : matrix) : Prop :=
  forall row x, In row corr -> In x row -> (0 <= x)%Q.

(** The test of [nonneg_entries]. *)
Definition nonneg_entriesb (corr : matrix) : bool :=
  forallb (forallb (Qle_bool 0)) corr.

(** The edges of a graph join two different nodes below [p] and carry
    the entry of the matrix for the two nodes, in one order or the
    other. *)
Definition edges_from (corr : matrix) (p : nat) (G : Graph) : Prop :=
  forall u v w, In (u, v, w) (edges G) ->
    u < p /\ v < p /\ u <> v /\ (w = get corr u v \/ w = get corr v u).

(** The nodes that [knn] joins to [i]: the first [k] entries other than
    [i] of the descending order of column [i]; all of them when [k] is
    negative, since the counter [num] never equals [k] then. *)
Definition neighbours_of (corr : matrix) (k : Z) (i : node) : list node :=
  let others := filter (fun j => negb (j =? i)) (reversed (argsort (column corr i))) in
  if (k <? 0)%Z then others else firstn (Z.to_nat k) others.

(** The edges that [knn] adds for the node [i]. *)
Definition knn_step (corr : matrix) (k : Z) (G : Graph) (i : node) : Graph :=
  fold_left (fun G j => add_edge G i j (get corr i j)) (neighbours_of corr k i) G.

(** What holds of the graph of [knn] after every node. *)
Definition knn_inv (corr : matrix) (k : Z) (G : Graph) : Prop :=
  (forall u v, In (u, v) (pairs G) -> In v (neighbours_of corr k u)) /\
  edges_from corr (shape0 corr) G /\
  NoDup (nodes G) /\
  (forall a, In a (nodes G) -> a < shape0 corr).

(** A planarity test is hereditary when a graph that passes it still
    passes after one of its edges is taken out. *)
Definition hereditary (check : list node -> list (node * node) -> bool) : Prop :=
  forall V E1 e E2, check V (E1 ++ e :: E2) = true -> check V (E1 ++ E2) = true.

(** The candidate edge [(i, j)] was tried on [G]: it is an edge of [G],
    or [G] with it fails the planarity test. *)
Definition tried (check_planarity : list node -> list (node * node) -> bool)
    (G : Graph) (i j : node) : Prop :=
  has_edge G i j = true \/ check_planarity (nodes G) (pairs G ++ [(i, j)]) = false.

(** [f in faces], for a frozenset [f]. *)
Definition has_face (faces : list face) (f : face) : bool := existsb (set_eqb f) faces.

(** The number of nodes other than [i] and [j] whose entry in column [i]
    is at least the entry of [j]. *)
Definition rivals (corr : matrix) (i j : node) : nat :=
  length (filter (fun m => negb (m =? i) && negb (m =? j)
                           && Qle_bool (get corr j i) (get corr m i))
                 (seq 0 (shape0 corr))).

(** The number of nodes other than [i] whose entry in column [i] is
    above the entry of [j]. *)
Definition betters (corr : matrix) (i j : node) : nat :=
  length (filter (fun m => negb (m =? i) && Qltb (get corr j i) (get corr m i))
                 (seq 0 (shape0 corr))).


(** Two matrices for the examples. *)
Definition corr_three : matrix :=
  [[1; 1 # 2; 1 # 3]; [1 # 2; 1; 1 # 4]; [1 # 3; 1 # 4; 1]]%Q.

Definition corr_five : matrix :=
  [[1; 1 # 2; 1 # 3; 1 # 4; 1 # 5];
   [1 # 2; 1; 1 # 6; 1 # 7; 1 # 8];
   [1 # 3; 1 # 6; 1; 1 # 9; 1 # 10];
   [1 # 4; 1 # 7; 1 # 9; 1; 1 # 11];
   [1 # 5; 1 # 8; 1 # 10; 1 # 11; 1]]%Q.

(** * Theorems *)

(** ** threshold *)

Lemma map_matrix_compose (f g : Q -> Q) (a : matrix) :
  map_matrix g (map_matrix f a) = map_matrix (fun x => g (f x)) a.
Proof.
  unfold map_matrix. rewrite map_map. apply map_ext. intros row. apply map_map.
Qed.

Lemma map_matrix_ext_in (f g : Q -> Q) (a : matrix) :
  (forall row x, In row a -> In x row -> f x = g x) ->
  map_matrix f a = map_matrix g a.
Proof.
  intros H. unfold map_matrix. apply map_ext_in. intros row Hrow.
  apply map_ext_in. intros x Hx. exact (H row x Hrow Hx).
Qed.

Lemma map_matrix_eq_inv (f g : Q -> Q) (a : matrix) :
  map_matrix f a = map_matrix g a ->
  forall row x, In row a -> In x row -> f x = g x.
Proof.
  unfold map_matrix. induction a as [|r a IH]; intros Heq row x Hrow Hx.
  - destruct Hrow.
  - simpl in Heq. injection Heq as Hr Ha. destruct Hrow as [<-|Hrow].
    + clear - Hr Hx. induction r as [|y r IHr]; [destruct Hx|].
      simpl in Hr. injection Hr as Hy Hr. destruct Hx as [<-|Hx]; auto.
    + eapply IH; eauto.
Qed.

Lemma threshold_entrywise (corr : matrix) (t : Q) (binary absolute : bool) :
  threshold corr t binary absolute = map_matrix (threshold_entry t binary absolute) corr.
Proof.
  unfold threshold, threshold_entry, masked_assign.
  destruct absolute, binary; rewrite ?map_matrix_compose; reflexivity.
Qed.

Lemma Qltb_false (x y : Q) : (y <= x)%Q -> Qltb x y = false.
Proof.
  intros H. unfold Qltb. apply Qle_bool_iff in H. rewrite H. reflexivity.
Qed.

Lemma Qltb_0_abs_0 : Qltb 0 (Qabs 0) = false.
Proof. reflexivity. Qed.

(** An entry that came out of [threshold] unchanged, or as 0, stays as it
    is when [threshold] is applied again. *)
Lemma threshold_entry_zeroing (t : Q) (absolute : bool) (x : Q) :
  threshold_entry t false absolute (threshold_entry t false absolute x)
  = threshold_entry t false absolute x.
Proof.
  unfold threshold_entry. destruct absolute.
  - destruct (Qltb (Qabs x) t) eqn:E.
    + destruct (Qltb (Qabs 0) t); reflexivity.
    + rewrite E. reflexivity.
  - destruct (Qltb x t) eqn:E.
    + destruct (Qltb 0 t); reflexivity.
    + rewrite E. reflexivity.
Qed.

Lemma threshold_entry_binary (t : Q) (absolute : bool) (x : Q) :
  threshold_entry t true absolute x
  = let y := threshold_entry t false absolute x in
    if Qltb 0 (Qabs y) then 1%Q else y.
Proof. unfold threshold_entry. destruct absolute; reflexivity. Qed.

Lemma threshold_entry_one (t : Q) (absolute : bool) :
  (t <= 1)%Q -> threshold_entry t true absolute 1 = 1%Q.
Proof.
  intros Ht. unfold threshold_entry. destruct absolute.
  - rewrite (Qltb_false (Qabs 1) t) by exact Ht. reflexivity.
  - rewrite (Qltb_false 1 t) by exact Ht. reflexivity.
Qed.

Lemma threshold_entry_idem (t : Q) (binary absolute : bool) (x : Q) :
  binary = false \/ (t <= 1)%Q \/ threshold_entry t false absolute x = 0%Q ->
  threshold_entry t binary absolute (threshold_entry t binary absolute x)
  = threshold_entry t binary absolute x.
Proof.
  intros H. destruct binary.
  - destruct H as [H|H]; [discriminate|].
    rewrite (threshold_entry_binary t absolute x). cbv zeta.
    destruct (Qltb 0 (Qabs (threshold_entry t false absolute x))) eqn:E.
    + destruct H as [Ht|Hz].
      * apply threshold_entry_one. exact Ht.
      * rewrite Hz in E. discriminate E.
    + rewrite threshold_entry_binary. cbv zeta.
      rewrite threshold_entry_zeroing. rewrite E. reflexivity.
  - apply threshold_entry_zeroing.
Qed.

(** C4, as amended.  Applying [threshold] twice with the same arguments
    gives what applying it once gives, when [binary] is off, or the
    threshold is at most 1, or the threshold leaves no entry standing.
    (With [binary] on, an entry that passes a threshold above 1 becomes 1
    and is zeroed by the second application.) *)
Theorem threshold_idempotent (corr : matrix) (t : Q) (binary absolute : bool) :
  binary = false \/ (t <= 1)%Q \/
  threshold corr t false absolute = map_matrix (fun _ => 0%Q) corr ->
  threshold (threshold corr t binary absolute) t binary absolute
  = threshold corr t binary absolute.
Proof.
  intros H. rewrite !threshold_entrywise. rewrite map_matrix_compose.
  apply map_matrix_ext_in. intros row x Hrow Hx.
  apply threshold_entry_idem.
  destruct H as [H|[H|H]]; auto.
  right; right. rewrite threshold_entrywise in H.
  exact (map_matrix_eq_inv _ _ _ H row x Hrow Hx).
Qed.

Lemma threshold_idempotent_witness :
  threshold (threshold [[1; 3 # 10]; [3 # 10; 1]]%Q (1 # 2) true true) (1 # 2) true true
  = threshold [[1; 3 # 10]; [3 # 10; 1]]%Q (1 # 2) true true.
Proof.
  apply (threshold_idempotent [[1; 3 # 10]; [3 # 10; 1]]%Q (1 # 2) true true).
  right; left. unfold Qle; simpl; lia.
Defined.

(** C4 as stated fails: with [binary] on and the threshold 2, the entry 3
    becomes 1, and the second application zeroes it. *)
Lemma threshold_not_idempotent :
  threshold (threshold [[3]]%Q 2 true true) 2 true true
  <> threshold [[3]]%Q 2 true true.
Proof. vm_compute. discriminate. Qed.

(** ** The TMFG: its guards and its failures *)

Lemma insert_by_length (key : nat -> Q) (x : nat) (l : list nat) :
  length (insert_by key x l) = S (length l).
Proof.
  induction l as [|y l IH]; simpl; [reflexivity|].
  destruct (Qle_bool (key x) (key y)); simpl; [reflexivity|].
  rewrite IH. reflexivity.
Qed.

Lemma insertion_sort_length (key : nat -> Q) (l : list nat) :
  length (fold_right (insert_by key) [] l) = length l.
Proof.
  induction l as [|x l IH]; simpl; [reflexivity|].
  rewrite insert_by_length, IH. reflexivity.
Qed.

Lemma argsort_length (a : vector) : length (argsort a) = length a.
Proof.
  unfold argsort. rewrite insertion_sort_length. apply length_seq.
Qed.

Lemma is_square_shape1 (corr : matrix) :
  is_square corr -> shape1 corr = shape0 corr.
Proof.
  unfold is_square, shape1, shape0. destruct corr as [|row corr]; [reflexivity|].
  intros H. inversion H; subst. assumption.
Qed.

Lemma np_abs_shape1 (corr : matrix) : shape1 (np_abs corr) = shape1 corr.
Proof.
  unfold shape1, np_abs, map_matrix. destruct corr; simpl; [reflexivity|].
  apply length_map.
Qed.

Lemma centrality_order_length (corr : matrix) :
  length (reversed (argsort (sum_axis0 corr))) = shape1 corr.
Proof.
  unfold reversed, sum_axis0.
  rewrite length_rev, argsort_length, length_map, length_seq. reflexivity.
Qed.

(** C6.  A square matrix with fewer than 4 rows makes [tmfg] fail: the
    seed needs [ind[3]], and the index array is too short.  The failure
    is Python's [IndexError]; the code has no input check of its own, and
    this is the error that the specification files under InvalidInput. *)
Theorem tmfg_small_fails (corr : matrix) (absolute : bool) :
  is_square corr -> shape0 corr < 4 -> tmfg corr absolute = Raise IndexError.
Proof.
  intros Hsq Hp. unfold tmfg, tmfg_from.
  assert (Hlen : length (reversed (argsort (sum_axis0
                   (if absolute then np_abs corr else corr)))) < 4).
  { rewrite centrality_order_length.
    destruct absolute; rewrite ?np_abs_shape1, is_square_shape1; assumption. }
  revert Hlen.
  generalize (reversed (argsort (sum_axis0 (if absolute then np_abs corr else corr)))).
  intros ind Hlen. unfold tmfg_seed.
  destruct ind as [|a [|b [|c [|d ind]]]]; try reflexivity.
  simpl in Hlen. lia.
Qed.

Lemma tmfg_small_fails_witness :
  tmfg [[1; 1 # 2; 1 # 3]; [1 # 2; 1; 1 # 4]; [1 # 3; 1 # 4; 1]]%Q false
  = Raise IndexError.
Proof.
  apply tmfg_small_fails.
  - repeat constructor.
  - simpl. lia.
Defined.

(** C7, as amended.  [_add_triangular_face] raises [ValueError] when
    [new] has a length, and raises [ValueError] when the face has more
    than 3 members; with an integer [new] and a face of at most 3 members
    for which the entries [C[new, j]] exist, it returns the graph with
    one edge from [new] to each member. *)
Theorem add_triangular_face_guards
    (G : Graph) (new : pyobj) (old_set : list node) (C : matrix) (faces : list face) :
  match new with
  | PySized _ => _add_triangular_face G new old_set C faces = Raise ValueError
  | PyInt n =>
      (3 < length old_set -> _add_triangular_face G new old_set C faces = Raise ValueError)
      /\ (length old_set <= 3 ->
          n < length C -> (forall j, In j old_set -> j < length (nth n C [])) ->
          _add_triangular_face G new old_set C faces
          = Ok (fold_left (fun G j => add_edge G n j (get C n j)) old_set G))
  end.
Proof.
  destruct new as [n|l]; simpl; [|reflexivity].
  split; intros H.
  - apply Nat.ltb_lt in H. rewrite H. reflexivity.
  - intros _ _. destruct (3 <? length old_set) eqn:E; [|reflexivity].
    apply Nat.ltb_lt in E. lia.
Qed.

Lemma add_triangular_face_guards_witness :
  _add_triangular_face nx_Graph (PyInt 0) [1; 2; 3; 4] [] [] = Raise ValueError /\
  _add_triangular_face nx_Graph (PyInt 0) [1; 2; 3] [[1; 1 # 2; 1 # 3; 1 # 4]]%Q []
  = Ok (fold_left (fun G j => add_edge G 0 j (get [[1; 1 # 2; 1 # 3; 1 # 4]]%Q 0 j))
          [1; 2; 3] nx_Graph).
Proof.
  split.
  - apply (add_triangular_face_guards nx_Graph (PyInt 0) [1; 2; 3; 4] [] []).
    simpl. lia.
  - apply (add_triangular_face_guards nx_Graph (PyInt 0) [1; 2; 3]
             [[1; 1 # 2; 1 # 3; 1 # 4]]%Q []).
    + simpl. lia.
    + simpl. lia.
    + intros j [<-|[<-|[<-|[]]]]; simpl; lia.
Defined.

(** C7 as stated fails: a face of 2 members is accepted.  [tmfg] itself
    calls the routine with such faces when it builds the seed. *)
Lemma add_triangular_face_accepts_pair :
  _add_triangular_face nx_Graph (PyInt 0) [1; 2] [[1; 1 # 2; 1 # 3]]%Q []
  = Ok (mkGraph [0; 1; 2] [(0, 1, (1 # 2)%Q); (0, 2, (1 # 3)%Q)])
  /\ length [1; 2] <> 3.
Proof. split; [reflexivity|discriminate]. Qed.

(** C1 fails on the code.  On [corr_negative], without [absolute], the
    fifth node has the sum -3/2 with every face; no sum is above the
    initial [max_corr = -1], [max_i] stays [-1], and [set(max_i)] raises
    [TypeError] instead of the graph being returned. *)
Theorem tmfg_negative_sums_fail :
  is_squareb corr_negative = true /\ 4 <= shape0 corr_negative /\
  tmfg corr_negative false = Raise TypeError.
Proof. repeat split; vm_compute; try reflexivity. lia. Qed.

(** C8 fails on the code.  [mst] and [knn] never call [add_nodes_from]:
    a node is in their graph only if an edge brought it there.  The 1 x 1
    matrix gives [mst] no edge, and [k = 0] gives [knn] none. *)
Theorem mst_knn_lose_nodes :
  mst [[1]]%Q = Ok (mkGraph [] []) /\
  knn [[1; 1 # 2; 1 # 3]; [1 # 2; 1; 1 # 4]; [1 # 3; 1 # 4; 1]]%Q 0 = mkGraph [] [] /\
  ~ node_set_is_range (mkGraph [] []) 1 /\
  ~ node_set_is_range (mkGraph [] []) 3.
Proof.
  repeat split; try reflexivity.
  - intros [_ H]. apply (proj2 (H 0)). lia.
  - intros [_ H]. apply (proj2 (H 0)). lia.
Qed.

(** ** Lists, sets and the graph operations *)

Lemma mem_In (x : node) (s : list node) : mem x s = true <-> In x s.
Proof.
  unfold mem. rewrite existsb_exists. split.
  - intros [y [Hy E]]. apply Nat.eqb_eq in E. subst. assumption.
  - intros H. exists x. split; [assumption|apply Nat.eqb_refl].
Qed.

Lemma mem_not_In (x : node) (s : list node) : mem x s = false <-> ~ In x s.
Proof.
  rewrite <- mem_In. destruct (mem x s); split; intros H; congruence.
Qed.

Lemma add_node_present (G : Graph) (n : node) :
  In n (nodes G) -> add_node G n = G.
Proof.
  intros H. unfold add_node. apply mem_In in H. rewrite H. reflexivity.
Qed.

Lemma add_nodes_from_seq (E : list (node * node * Q)) (k n : nat) :
  add_nodes_from (mkGraph (seq 0 n) E) (seq n k) = mkGraph (seq 0 (n + k)) E.
Proof.
  revert n. induction k as [|k IH]; intros n; simpl.
  - rewrite Nat.add_0_r. reflexivity.
  - unfold add_nodes_from in *. unfold add_node at 2. simpl.
    assert (Hn : mem n (seq 0 n) = false).
    { apply mem_not_In. rewrite in_seq. lia. }
    rewrite Hn. rewrite <- seq_S. rewrite IH. f_equal. f_equal. lia.
Qed.

Lemma add_nodes_from_range (p : nat) :
  add_nodes_from nx_Graph (seq 0 p) = mkGraph (seq 0 p) [].
Proof. exact (add_nodes_from_seq [] p 0). Qed.

Lemma insert_by_perm (key : nat -> Q) (x : nat) (l : list nat) :
  Permutation (insert_by key x l) (x :: l).
Proof.
  induction l as [|y l IH]; simpl; [reflexivity|].
  destruct (Qle_bool (key x) (key y)); [reflexivity|].
  rewrite IH. apply perm_swap.
Qed.

Lemma insertion_sort_perm (key : nat -> Q) (l : list nat) :
  Permutation (fold_right (insert_by key) [] l) l.
Proof.
  induction l as [|x l IH]; simpl; [reflexivity|].
  rewrite insert_by_perm. constructor. exact IH.
Qed.

Lemma argsort_perm (a : vector) : Permutation (argsort a) (seq 0 (length a)).
Proof. apply insertion_sort_perm. Qed.

Lemma order_perm (a : vector) :
  Permutation (reversed (argsort a)) (seq 0 (length a)).
Proof.
  unfold reversed. transitivity (argsort a).
  - symmetry. apply Permutation_rev.
  - apply argsort_perm.
Qed.

Lemma flatten_length (corr : matrix) :
  is_square corr -> length (flatten corr) = shape0 corr * shape0 corr.
Proof.
  unfold is_square, flatten. generalize (shape0 corr) at 1 3 as p.
  unfold shape0. intros p H. induction H as [|row l Hrow H IH]; simpl; [reflexivity|].
  rewrite length_app, IH, Hrow. reflexivity.
Qed.

Lemma order_range (corr : matrix) (v : nat) :
  is_square corr -> In v (reversed (argsort (flatten corr))) ->
  v < shape0 corr * shape0 corr.
Proof.
  intros Hsq Hv.
  apply (Permutation_in _ (order_perm (flatten corr))) in Hv.
  apply in_seq in Hv. rewrite flatten_length in Hv by assumption. lia.
Qed.

Lemma unravel_range (v p : nat) :
  v < p * p -> v / p < p /\ v mod p < p.
Proof.
  intros H. assert (Hp : p <> 0) by (intros ->; simpl in H; lia). split.
  - apply Nat.Div0.div_lt_upper_bound. lia.
  - apply Nat.mod_upper_bound. assumption.
Qed.

Lemma pairs_add_edge_present (G : Graph) (u v : node) (w : Q) :
  In u (nodes G) -> In v (nodes G) -> has_edge G u v = true ->
  nodes (add_edge G u v w) = nodes G /\ pairs (add_edge G u v w) = pairs G.
Proof.
  intros Hu Hv He. unfold add_edge.
  rewrite (add_node_present G u Hu), (add_node_present G v Hv), He.
  split; [reflexivity|]. unfold pairs. simpl. rewrite map_map.
  apply map_ext. intros e. destruct (same_edge u v (fst e)); reflexivity.
Qed.

Lemma add_edge_absent (G : Graph) (u v : node) (w : Q) :
  In u (nodes G) -> In v (nodes G) -> has_edge G u v = false ->
  add_edge G u v w = mkGraph (nodes G) (edges G ++ [(u, v, w)]).
Proof.
  intros Hu Hv He. unfold add_edge.
  rewrite (add_node_present G u Hu), (add_node_present G v Hv), He. reflexivity.
Qed.

Lemma same_edge_refl (u v : node) : same_edge u v (u, v) = true.
Proof. unfold same_edge. simpl. rewrite !Nat.eqb_refl. reflexivity. Qed.

Lemma remove_added_edge (G : Graph) (u v : node) (w : Q) :
  has_edge G u v = false ->
  remove_edge (mkGraph (nodes G) (edges G ++ [(u, v, w)])) u v = G.
Proof.
  intros He. unfold remove_edge. simpl. rewrite filter_app. simpl.
  rewrite same_edge_refl. simpl. rewrite app_nil_r.
  destruct G as [V E]. simpl in *. f_equal.
  unfold has_edge in He. simpl in He.
  induction E as [|e E IH]; simpl in *; [reflexivity|].
  apply orb_false_iff in He. destruct He as [He1 He2].
  rewrite He1. simpl. rewrite IH by assumption. reflexivity.
Qed.

Lemma add_edge_count (G : Graph) (u v : node) (w : Q) :
  number_of_edges (add_edge G u v w) <= S (number_of_edges G).
Proof.
  unfold add_edge, number_of_edges.
  assert (Hn : forall G n, edges (add_node G n) = edges G).
  { intros G' n. unfold add_node. destruct (mem n (nodes G')); reflexivity. }
  destruct (has_edge (add_node (add_node G u) v) u v); simpl.
  - rewrite length_map, !Hn. lia.
  - rewrite length_app, !Hn. simpl. lia.
Qed.

(** ** The PMFG *)

Section PlanarityProofs.

Variable check_planarity : list node -> list (node * node) -> bool.


Lemma pmfg_loop_cons (corr : matrix) (p v : nat) (rest : list nat) (G : Graph)
    (trace : list Graph) :
  pmfg_loop check_planarity corr p (v :: rest) G trace
  = if v / p =? v mod p then pmfg_loop check_planarity corr p rest G (G :: trace)
    else
      let G' := pmfg_try check_planarity corr G (v / p) (v mod p) in
      if Z.eqb (Z.of_nat (number_of_edges G')) (3 * (Z.of_nat p - 2))
      then G' :: G :: trace
      else pmfg_loop check_planarity corr p rest G' (G :: trace).
Proof. reflexivity. Qed.


Lemma pmfg_loop_nonempty (corr : matrix) (p : nat) (vals : list nat) (G : Graph)
    (trace : list Graph) :
  pmfg_loop check_planarity corr p vals G trace <> [].
Proof.
  revert G trace. induction vals as [|v vals IH]; intros G trace.
  - discriminate.
  - rewrite pmfg_loop_cons. cbv zeta.
    destruct (v / p =? v mod p); [apply IH|].
    destruct (Z.eqb _ _); [discriminate|apply IH].
Qed.

End PlanarityProofs.


(** ** Assignments to cells *)

Section CellLoopsProofs.

Variables Arr I : Type.
Variable ok : Arr -> Prop.
Variable valid : I -> Prop.
Variable getc : Arr -> I -> Q.

Lemma writes_cells_skip (V : I -> Q) :
  writes_cells Arr I ok valid getc (fun a => a) (fun _ => false) V.
Proof. intros a Ha. split; [assumption|reflexivity]. Qed.

Lemma writes_cells_ext (step : Arr -> Arr) (W W' : I -> bool) (V : I -> Q) :
  (forall c, W c = W' c) ->
  writes_cells Arr I ok valid getc step W V ->
  writes_cells Arr I ok valid getc step W' V.
Proof.
  intros HW H a Ha. destruct (H a Ha) as [H1 H2]. split; [assumption|].
  intros c Hc. rewrite <- HW. apply H2. assumption.
Qed.

(** A loop whose rounds assign values of [V] assigns values of [V], to the
    cells that some round selects. *)
Lemma writes_cells_fold {X : Type} (f : Arr -> X -> Arr) (W : X -> I -> bool)
    (V : I -> Q) (l : list X) :
  (forall x, In x l -> writes_cells Arr I ok valid getc (fun a => f a x) (W x) V) ->
  writes_cells Arr I ok valid getc (fun a => fold_left f l a)
    (fun c => existsb (fun x => W x c) l) V.
Proof.
  induction l as [|x l IH]; intros H.
  - apply writes_cells_skip.
  - intros a Ha. simpl.
    destruct (H x (or_introl eq_refl) a Ha) as [Hok Hget].
    destruct (IH (fun y Hy => H y (or_intror Hy)) (f a x) Hok) as [Hok' Hget'].
    split; [assumption|]. intros c Hc.
    rewrite Hget' by assumption. rewrite Hget by assumption.
    destruct (W x c); simpl; [|reflexivity].
    destruct (existsb (fun y => W y c) l); reflexivity.
Qed.

Lemma writes_cells_seq (s1 s2 : Arr -> Arr) (W1 W2 : I -> bool) (V : I -> Q) :
  writes_cells Arr I ok valid getc s1 W1 V ->
  writes_cells Arr I ok valid getc s2 W2 V ->
  writes_cells Arr I ok valid getc (fun a => s2 (s1 a)) (fun c => W1 c || W2 c) V.
Proof.
  intros H1 H2 a Ha. destruct (H1 a Ha) as [Hok Hget].
  destruct (H2 (s1 a) Hok) as [Hok' Hget'].
  split; [assumption|]. intros c Hc.
  rewrite Hget', Hget by assumption.
  destruct (W1 c), (W2 c); reflexivity.
Qed.

End CellLoopsProofs.

Lemma nth_upd {A : Type} (f : A -> A) (d : A) (l : list A) (i r : nat) :
  nth r (upd l i f) d
  = if r =? i then (if r <? length l then f (nth r l d) else d) else nth r l d.
Proof.
  revert i r. induction l as [|x l IH]; intros i r.
  - simpl. destruct r, i; simpl; try reflexivity.
    destruct (r =? i); reflexivity.
  - destruct i, r; simpl; try reflexivity.
    rewrite IH. reflexivity.
Qed.

Lemma upd_length {A : Type} (f : A -> A) (l : list A) (i : nat) :
  length (upd l i f) = length l.
Proof.
  revert i. induction l as [|x l IH]; intros [|i]; simpl; auto.
Qed.

Lemma Forall_upd {A : Type} (P : A -> Prop) (f : A -> A) (l : list A) (i : nat) :
  Forall P l -> (forall x, P x -> P (f x)) -> Forall P (upd l i f).
Proof.
  intros H Hf. revert i. induction H as [|x l Hx H IH]; intros [|i]; simpl;
    constructor; auto.
Qed.

Lemma has_shape_row (p : nat) (a : matrix) (i : nat) :
  has_shape p a -> i < p -> length (nth i a []) = p.
Proof.
  intros [Hl Hr] Hi. rewrite Forall_forall in Hr. apply Hr.
  apply nth_In. lia.
Qed.

Lemma set2_shape (p : nat) (a : matrix) (i j : nat) (v : Q) :
  has_shape p a -> has_shape p (set2 a i j v).
Proof.
  intros [Hl Hr]. unfold set2. split.
  - rewrite upd_length. assumption.
  - apply Forall_upd; [assumption|]. intros row Hrow.
    rewrite upd_length. assumption.
Qed.

Lemma get_set2 (p : nat) (a : matrix) (i j : nat) (v : Q) (r c : nat) :
  has_shape p a -> i < p -> j < p ->
  get (set2 a i j v) r c = if (r =? i) && (c =? j) then v else get a r c.
Proof.
  intros Ha Hi Hj. unfold get, set2. rewrite nth_upd.
  destruct (Nat.eqb_spec r i) as [->|Hri]; simpl; [|reflexivity].
  destruct Ha as [Hl Hr].
  assert (Hlt : (i <? length a) = true) by (apply Nat.ltb_lt; lia).
  rewrite Hlt. rewrite nth_upd.
  destruct (Nat.eqb_spec c j) as [->|Hcj]; [|reflexivity].
  assert (Hlt' : (j <? length (nth i a [])) = true).
  { apply Nat.ltb_lt. rewrite (has_shape_row p); [assumption|split; assumption|assumption]. }
  rewrite Hlt'. reflexivity.
Qed.

Lemma zeros2_shape (p : nat) : has_shape p (zeros2 p).
Proof.
  unfold zeros2. split; [apply repeat_length|].
  apply Forall_forall. intros row Hrow. apply repeat_spec in Hrow. subst.
  apply repeat_length.
Qed.

Lemma zeros3_shape (p : nat) : has_shape3 p (zeros3 p).
Proof.
  unfold zeros3. split; [apply repeat_length|].
  apply Forall_forall. intros a Ha. apply repeat_spec in Ha. subst.
  apply zeros2_shape.
Qed.

Lemma set3_shape (p : nat) (D : list matrix) (i j k : nat) (v : Q) :
  has_shape3 p D -> has_shape3 p (set3 D i j k v).
Proof.
  intros [Hl Hr]. unfold set3. split.
  - rewrite upd_length. assumption.
  - apply Forall_upd; [assumption|]. intros a Ha. apply set2_shape. assumption.
Qed.

Lemma get3_set3 (p : nat) (D : list matrix) (i j k : nat) (v : Q) (r c d : nat) :
  has_shape3 p D -> i < p -> j < p -> k < p ->
  get3 (set3 D i j k v) r c d
  = if (r =? i) && (c =? j) && (d =? k) then v else get3 D r c d.
Proof.
  intros [Hl Hr] Hi Hj Hk. unfold get3, set3. rewrite nth_upd.
  destruct (Nat.eqb_spec r i) as [->|Hri]; simpl; [|reflexivity].
  assert (Hlt : (i <? length D) = true) by (apply Nat.ltb_lt; lia).
  rewrite Hlt. apply (get_set2 p); try assumption.
  rewrite Forall_forall in Hr. apply Hr. apply nth_In. lia.
Qed.

Lemma set2_writes (p i j : nat) (V : nat * nat -> Q) :
  i < p -> j < p ->
  writes_cells matrix (nat * nat) (has_shape p) (cell2_valid p) cell2_get
    (fun a => set2 a i j (V (i, j)))
    (fun c => (fst c =? i) && (snd c =? j)) V.
Proof.
  intros Hi Hj a Ha. split; [apply set2_shape; assumption|].
  intros [r c] _. unfold cell2_get. simpl.
  rewrite (get_set2 p) by assumption.
  destruct (Nat.eqb_spec r i) as [->|]; simpl; [|reflexivity].
  destruct (Nat.eqb_spec c j) as [->|]; reflexivity.
Qed.

Lemma set3_writes (p i j k : nat) (V : nat * nat * nat -> Q) :
  i < p -> j < p -> k < p ->
  writes_cells (list matrix) (nat * nat * nat) (has_shape3 p) (cell3_valid p) cell3_get
    (fun D => set3 D i j k (V (i, j, k)))
    (fun c => (fst (fst c) =? i) && (snd (fst c) =? j) && (snd c =? k)) V.
Proof.
  intros Hi Hj Hk D HD. split; [apply set3_shape; assumption|].
  intros [[r c] d] _. unfold cell3_get. simpl.
  rewrite (get3_set3 p) by assumption.
  destruct (Nat.eqb_spec r i) as [->|]; simpl; [|reflexivity].
  destruct (Nat.eqb_spec c j) as [->|]; simpl; [|reflexivity].
  destruct (Nat.eqb_spec d k) as [->|]; reflexivity.
Qed.

(** ** The algebra of a trio *)

(** Cramer's rule for the first two unknowns of a 3 x 3 system with the
    matrix of a trio. *)
Lemma cramer3 (a b c x0 x1 x2 e0 e1 e2 : Q) :
  (x0 + a * x1 + b * x2 == e0)%Q ->
  (a * x0 + x1 + c * x2 == e1)%Q ->
  (b * x0 + c * x1 + x2 == e2)%Q ->
  (trio_det a b c * x0 == (1 - c * c) * e0 + (b * c - a) * e1 + (a * c - b) * e2)%Q /\
  (trio_det a b c * x1 == (b * c - a) * e0 + (1 - b * b) * e1 + (a * b - c) * e2)%Q.
Proof.
  intros E0 E1 E2. split; rewrite <- E0, <- E1, <- E2; unfold trio_det; ring.
Qed.

Lemma nonneg_square_eq (x y : Q) :
  (0 <= x)%Q -> (0 <= y)%Q -> (x * x == y * y)%Q -> (x == y)%Q.
Proof.
  intros Hx Hy H.
  assert (H0 : ((x - y) * (x + y) == 0)%Q) by (ring_simplify; rewrite H; ring).
  apply Qmult_integral in H0. destruct H0 as [H0|H0]; lra.
Qed.

Lemma trio_algebra (a b c p00 p01 p11 s s' : Q) :
  (0 < trio_det a b c)%Q ->
  (trio_det a b c * p00 == 1 - c * c)%Q ->
  (trio_det a b c * p01 == b * c - a)%Q ->
  (trio_det a b c * p11 == 1 - b * b)%Q ->
  is_sqrt s ((1 - b ^ 2) * (1 - c ^ 2))%Q ->
  is_sqrt s' (p00 * p11)%Q ->
  (- p01 / s' == (a - b * c) / s)%Q.
Proof.
  intros HD H00 H01 H11 [Hs0 Hs] [Hs0' Hs'].
  set (D := trio_det a b c) in *.
  assert (HDne : ~ (D == 0)%Q) by lra.
  assert (E00 : (p00 == (1 - c * c) / D)%Q) by (rewrite <- H00; field; exact HDne).
  assert (E01 : (p01 == (b * c - a) / D)%Q) by (rewrite <- H01; field; exact HDne).
  assert (E11 : (p11 == (1 - b * b) / D)%Q) by (rewrite <- H11; field; exact HDne).
  assert (Hsd : (s' == s / D)%Q).
  { apply nonneg_square_eq; [exact Hs0'| |].
    - apply Qle_shift_div_l; [exact HD|]. lra.
    - rewrite Hs', E00, E11.
      assert (Hs2 : (s * s == (1 - b * b) * (1 - c * c))%Q) by (rewrite Hs; ring).
      transitivity ((s * s) / (D * D))%Q; [rewrite Hs2; field; exact HDne|].
      field. exact HDne. }
  rewrite Hsd, E01.
  destruct (Qeq_dec s 0) as [Hz|Hnz].
  - rewrite Hz. unfold Qdiv.
    assert (E1 : (/ (0 * / D) == 0)%Q)
      by (setoid_replace (0 * / D)%Q with 0%Q by ring; reflexivity).
    rewrite E1. assert (E2 : (/ 0 == 0)%Q) by reflexivity. rewrite E2. ring.
  - field. split; assumption.
Qed.

(** ** Partial correlation *)

Section NumericProofs.

Variable sqrt : Q -> Q.
Variable linalg_inv : matrix -> Exc matrix.

Lemma partial_correlation_loops_shape (prec : matrix) (p : nat) (a : matrix) :
  has_shape p a -> has_shape p (partial_correlation_loops sqrt prec p a).
Proof.
  intros Ha. unfold partial_correlation_loops.
  pose (V := fun c : nat * nat =>
               (- get prec (fst c) (snd c)
                / sqrt (get prec (fst c) (fst c) * get prec (snd c) (snd c)))%Q).
  refine (proj1 (writes_cells_fold matrix (nat * nat) (has_shape p) (cell2_valid p)
                   cell2_get _ _ V (seq 0 p) _ a Ha)).
  intros i Hi. apply in_seq in Hi.
  apply (writes_cells_fold matrix (nat * nat) (has_shape p) (cell2_valid p) cell2_get
           (fun a j => set2 a i j (V (i, j)))
           (fun j c => (fst c =? i) && (snd c =? j))).
  intros j Hj. apply in_seq in Hj. apply set2_writes; lia.
Qed.

Lemma fill_diagonal_spec (p : nat) (a : matrix) (v : Q) :
  has_shape p a ->
  has_shape p (fill_diagonal a v) /\
  forall i, i < p -> get (fill_diagonal a v) i i = v.
Proof.
  intros Ha. unfold fill_diagonal.
  destruct (writes_cells_fold matrix (nat * nat) (has_shape p) (cell2_valid p) cell2_get
              (fun a i => set2 a i i v)
              (fun i c => (fst c =? i) && (snd c =? i))
              (fun _ => v) (seq 0 (length a))) with (a := a) as [Hok Hget].
  - intros i Hi. apply in_seq in Hi. destruct Ha as [Hl _].
    apply (set2_writes p i i (fun _ => v)); lia.
  - assumption.
  - split; [assumption|]. intros i Hi.
    specialize (Hget (i, i)). unfold cell2_get in Hget. simpl in Hget.
    rewrite Hget by (split; simpl; assumption).
    assert (E : existsb (fun x => (i =? x) && (i =? x)) (seq 0 (length a)) = true).
    { apply existsb_exists. exists i. rewrite Nat.eqb_refl. split; [|reflexivity].
      apply in_seq. destruct Ha as [Hl _]. lia. }
    rewrite E. reflexivity.
Qed.

Lemma partial_correlation_loops_writes (prec : matrix) (p : nat) :
  writes_cells matrix (nat * nat) (has_shape p) (cell2_valid p) cell2_get
    (partial_correlation_loops sqrt prec p)
    (fun c => existsb (fun i => existsb (fun j =>
       (fst c =? i) && (snd c =? j)) (seq 0 p)) (seq 0 p))
    (fun c => (- get prec (fst c) (snd c)
               / sqrt (get prec (fst c) (fst c) * get prec (snd c) (snd c)))%Q).
Proof.
  unfold partial_correlation_loops.
  pose (V := fun c : nat * nat =>
               (- get prec (fst c) (snd c)
                / sqrt (get prec (fst c) (fst c) * get prec (snd c) (snd c)))%Q).
  apply (writes_cells_fold matrix (nat * nat) (has_shape p) (cell2_valid p) cell2_get
           _ (fun i c => existsb (fun j => (fst c =? i) && (snd c =? j)) (seq 0 p)) V).
  intros i Hi. apply in_seq in Hi.
  apply (writes_cells_fold matrix (nat * nat) (has_shape p) (cell2_valid p) cell2_get
           (fun a j => set2 a i j (V (i, j)))
           (fun j c => (fst c =? i) && (snd c =? j))).
  intros j Hj. apply in_seq in Hj. apply set2_writes; lia.
Qed.

Lemma fill_diagonal_other (p : nat) (a : matrix) (v : Q) (r c : nat) :
  has_shape p a -> r < p -> c < p -> r <> c ->
  get (fill_diagonal a v) r c = get a r c.
Proof.
  intros Ha Hr Hc Hrc. unfold fill_diagonal.
  destruct (writes_cells_fold matrix (nat * nat) (has_shape p) (cell2_valid p) cell2_get
              (fun a i => set2 a i i v)
              (fun i c => (fst c =? i) && (snd c =? i))
              (fun _ => v) (seq 0 (length a))) with (a := a) as [_ Hget].
  - intros i Hi. apply in_seq in Hi. destruct Ha as [Hl _].
    apply (set2_writes p i i (fun _ => v)); lia.
  - assumption.
  - specialize (Hget (r, c)). unfold cell2_get in Hget. simpl in Hget.
    rewrite Hget by (split; simpl; assumption).
    assert (E : existsb (fun x => (r =? x) && (c =? x)) (seq 0 (length a)) = false).
    { clear - Hrc. induction (seq 0 (length a)) as [|x l IH]; simpl; [reflexivity|].
      rewrite IH, orb_false_r.
      destruct (Nat.eqb_spec r x), (Nat.eqb_spec c x); simpl; congruence. }
    rewrite E. reflexivity.
Qed.

(** The entries of [partial_correlation] off the diagonal. *)
Lemma partial_correlation_entry (corr prec : matrix) :
  linalg_inv corr = Ok prec ->
  exists R,
    partial_correlation sqrt linalg_inv corr = Ok R /\
    forall r c, r < shape0 corr -> c < shape0 corr -> r <> c ->
      get R r c = (- get prec r c / sqrt (get prec r r * get prec c c))%Q.
Proof.
  intros Hinv. unfold partial_correlation. rewrite Hinv. simpl.
  eexists. split; [reflexivity|]. intros r c Hr Hc Hrc.
  destruct (partial_correlation_loops_writes prec (shape0 corr) (zeros2 (shape0 corr))
              (zeros2_shape _)) as [Hok Hget].
  rewrite (fill_diagonal_other (shape0 corr)) by assumption.
  specialize (Hget (r, c)). unfold cell2_get in Hget. simpl in Hget.
  rewrite Hget by (split; simpl; assumption).
  match goal with |- (if ?a then _ else _) = _ => assert (E : a = true) end.
  { apply existsb_exists. exists r. split; [apply in_seq; lia|].
    apply existsb_exists. exists c. split; [apply in_seq; lia|].
    rewrite !Nat.eqb_refl. reflexivity. }
  rewrite E. reflexivity.
Qed.

(** C5.  When the inversion returns, [partial_correlation] returns a
    matrix with 1 in every diagonal entry; when the inversion raises (for
    a singular matrix, [LinAlgError]), [partial_correlation] raises the
    same error.  Invertible and singular are what the inversion
    collaborator makes of the matrix. *)
Theorem partial_correlation_unit_diagonal (corr : matrix) :
  (forall prec, linalg_inv corr = Ok prec ->
     exists R, partial_correlation sqrt linalg_inv corr = Ok R /\
               has_shape (shape0 corr) R /\
               forall i, i < shape0 corr -> get R i i = 1%Q) /\
  (forall e, linalg_inv corr = Raise e ->
     partial_correlation sqrt linalg_inv corr = Raise e).
Proof.
  unfold partial_correlation. split.
  - intros prec Hinv. rewrite Hinv. simpl.
    eexists. split; [reflexivity|].
    apply fill_diagonal_spec. apply partial_correlation_loops_shape.
    apply zeros2_shape.
  - intros e Hinv. rewrite Hinv. reflexivity.
Qed.

Lemma tensor_loops_writes (corr : matrix) (p : nat) :
  writes_cells (list matrix) (nat * nat * nat) (has_shape3 p) (cell3_valid p) cell3_get
    (tensor_loops sqrt corr p)
    (fun c =>
       existsb (fun i => existsb (fun j => existsb (fun k =>
         negb (tensor_cond i j k)
         && ((fst (fst c) =? i) && (snd (fst c) =? j) && (snd c =? k)))
         (seq 0 p)) (seq 0 p)) (seq 0 p))
    (tensor_value sqrt corr).
Proof.
  unfold tensor_loops.
  apply (writes_cells_fold (list matrix) (nat * nat * nat) (has_shape3 p)
           (cell3_valid p) cell3_get _
           (fun i c => existsb (fun j => existsb (fun k =>
              negb (tensor_cond i j k)
              && ((fst (fst c) =? i) && (snd (fst c) =? j) && (snd c =? k)))
              (seq 0 p)) (seq 0 p))).
  intros i Hi. apply in_seq in Hi.
  apply (writes_cells_fold (list matrix) (nat * nat * nat) (has_shape3 p)
           (cell3_valid p) cell3_get _
           (fun j c => existsb (fun k =>
              negb (tensor_cond i j k)
              && ((fst (fst c) =? i) && (snd (fst c) =? j) && (snd c =? k)))
              (seq 0 p))).
  intros j Hj. apply in_seq in Hj.
  apply (writes_cells_fold (list matrix) (nat * nat * nat) (has_shape3 p)
           (cell3_valid p) cell3_get _
           (fun k c =>
              negb (tensor_cond i j k)
              && ((fst (fst c) =? i) && (snd (fst c) =? j) && (snd c =? k)))).
  intros k Hk. apply in_seq in Hk.
  fold (tensor_cond i j k). destruct (tensor_cond i j k) eqn:E; simpl.
  - apply writes_cells_skip.
  - assert (Hjk : (j =? k) = false).
    { unfold tensor_cond in E. apply orb_false_iff in E. apply E. }
    replace (get corr i j - calculate_partial_correlation sqrt corr i j k)%Q
      with (tensor_value sqrt corr (i, j, k))
      by (unfold tensor_value; simpl; rewrite Hjk; reflexivity).
    apply set3_writes; lia.
Qed.

Lemma sentinel_loops_writes (corr : matrix) (p : nat) :
  writes_cells (list matrix) (nat * nat * nat) (has_shape3 p) (cell3_valid p) cell3_get
    (sentinel_loops p)
    (fun c =>
       existsb (fun i => existsb (fun j =>
         (fst (fst c) =? i) && (snd (fst c) =? j) && (snd c =? j))
         (seq 0 p)) (seq 0 p))
    (tensor_value sqrt corr).
Proof.
  unfold sentinel_loops.
  apply (writes_cells_fold (list matrix) (nat * nat * nat) (has_shape3 p)
           (cell3_valid p) cell3_get _
           (fun i c => existsb (fun j =>
              (fst (fst c) =? i) && (snd (fst c) =? j) && (snd c =? j))
              (seq 0 p))).
  intros i Hi. apply in_seq in Hi.
  apply (writes_cells_fold (list matrix) (nat * nat * nat) (has_shape3 p)
           (cell3_valid p) cell3_get _
           (fun j c => (fst (fst c) =? i) && (snd (fst c) =? j) && (snd c =? j))).
  intros j Hj. apply in_seq in Hj.
  replace 1%Q with (tensor_value sqrt corr (i, j, j))
    by (unfold tensor_value; simpl; rewrite Nat.eqb_refl; reflexivity).
  apply set3_writes; lia.
Qed.

Lemma dependency_tensor_spec (corr : matrix) :
  let p := shape0 corr in
  has_shape3 p (dependency_tensor sqrt corr) /\
  (forall i j, i < p -> j < p -> get3 (dependency_tensor sqrt corr) i j j = 1%Q) /\
  (forall i j k, i < p -> j < p -> k < p -> i <> j -> i <> k -> j <> k ->
     get3 (dependency_tensor sqrt corr) i j k
     = (get corr i j - calculate_partial_correlation sqrt corr i j k)%Q).
Proof.
  intros p. unfold dependency_tensor. fold p.
  destruct (writes_cells_seq _ _ _ _ _ _ _ _ _ _
              (tensor_loops_writes corr p) (sentinel_loops_writes corr p)
              (zeros3 p) (zeros3_shape p)) as [Hok Hget].
  split; [exact Hok|]. split.
  - intros i j Hi Hj. specialize (Hget (i, j, j)). unfold cell3_get in Hget.
    simpl in Hget. rewrite Hget by (repeat split; simpl; assumption).
    match goal with |- (if ?a || ?b then _ else _) = _ =>
      assert (E : b = true) end.
    { apply existsb_exists. exists i. split; [apply in_seq; lia|].
      apply existsb_exists. exists j. split; [apply in_seq; lia|].
      rewrite !Nat.eqb_refl. reflexivity. }
    rewrite E, orb_true_r. unfold tensor_value. simpl.
    rewrite Nat.eqb_refl. reflexivity.
  - intros i j k Hi Hj Hk Hij Hik Hjk. specialize (Hget (i, j, k)).
    unfold cell3_get in Hget. simpl in Hget.
    rewrite Hget by (repeat split; simpl; assumption).
    match goal with |- (if ?a || ?b then _ else _) = _ =>
      assert (E : a = true) end.
    { apply existsb_exists. exists i. split; [apply in_seq; lia|].
      apply existsb_exists. exists j. split; [apply in_seq; lia|].
      apply existsb_exists. exists k. split; [apply in_seq; lia|].
      rewrite !Nat.eqb_refl. unfold tensor_cond.
      apply Nat.eqb_neq in Hij, Hik, Hjk. rewrite Hij, Hik, Hjk. reflexivity. }
    rewrite E. simpl. unfold tensor_value. simpl.
    apply Nat.eqb_neq in Hjk. rewrite Hjk. reflexivity.
Qed.

Lemma filter_loops_spec (D : list matrix) (p : nat) (i k : nat) :
  i < p -> k < p -> k <> i ->
  get (filter_loops D p (zeros2 p)) k i
  = (np_sum (masked_row D p i k) / inject_Z (Z.of_nat p - 1))%Q.
Proof.
  intros Hi Hk Hki. unfold filter_loops.
  pose (V := fun c : nat * nat =>
               (np_sum (masked_row D p (snd c) (fst c)) / inject_Z (Z.of_nat p - 1))%Q).
  destruct (writes_cells_fold matrix (nat * nat) (has_shape p) (cell2_valid p) cell2_get
              (fun a i => fold_left
                 (fun a k => if i =? k then a else set2 a k i (V (k, i))) (seq 0 p) a)
              (fun i c => existsb (fun k =>
                 negb (i =? k) && ((fst c =? k) && (snd c =? i))) (seq 0 p))
              V (seq 0 p)) with (a := zeros2 p) as [_ Hget].
  - intros i' Hi'. apply in_seq in Hi'.
    apply (writes_cells_fold matrix (nat * nat) (has_shape p) (cell2_valid p) cell2_get
             (fun a k => if i' =? k then a else set2 a k i' (V (k, i')))
             (fun k c => negb (i' =? k) && ((fst c =? k) && (snd c =? i')))).
    intros k' Hk'. apply in_seq in Hk'.
    destruct (i' =? k'); simpl.
    + apply writes_cells_skip.
    + apply set2_writes; lia.
  - apply zeros2_shape.
  - specialize (Hget (k, i)). unfold cell2_get in Hget. simpl in Hget.
    unfold V at 1 in Hget. simpl in Hget. unfold V. simpl.
    rewrite Hget by (split; simpl; assumption).
    match goal with |- (if ?a then _ else _) = _ => assert (E : a = true) end.
    { apply existsb_exists. exists i. split; [apply in_seq; lia|].
      apply existsb_exists. exists k. split; [apply in_seq; lia|].
      rewrite !Nat.eqb_refl.
      assert (Hne : (i =? k) = false) by (apply Nat.eqb_neq; congruence).
      rewrite Hne. reflexivity. }
    rewrite E. reflexivity.
Qed.

Lemma trio_entries (corr : matrix) (i j k : nat) :
  forall r c, r < 3 -> c < 3 ->
    get (trio corr i j k) r c = get corr (nth r [i; j; k] 0) (nth c [i; j; k] 0).
Proof.
  intros r c Hr Hc.
  destruct r as [|[|[|r]]]; [| | |lia]; destruct c as [|[|[|c]]]; try lia; reflexivity.
Qed.

Lemma trio_column (corr P : matrix) (i j k c : nat) :
  (get corr i i == 1)%Q -> (get corr j j == 1)%Q -> (get corr k k == 1)%Q ->
  (get corr j i == get corr i j)%Q -> (get corr k i == get corr i k)%Q ->
  (get corr j k == get corr k j)%Q ->
  is_inverse 3 (trio corr i j k) P -> c < 3 ->
  let a := get corr i j in
  let b := get corr i k in
  let d := get corr k j in
  (get P 0 c + a * get P 1 c + b * get P 2 c == (if 0 =? c then 1 else 0))%Q /\
  (a * get P 0 c + get P 1 c + d * get P 2 c == (if 1 =? c then 1 else 0))%Q /\
  (b * get P 0 c + d * get P 1 c + get P 2 c == (if 2 =? c then 1 else 0))%Q.
Proof.
  intros Hii Hjj Hkk Hji Hki Hjk Hinv Hc a b d.
  pose proof (Hinv 0 c ltac:(lia) Hc) as H0.
  pose proof (Hinv 1 c ltac:(lia) Hc) as H1.
  pose proof (Hinv 2 c ltac:(lia) Hc) as H2.
  unfold matmul_entry, np_sum in H0, H1, H2.
  cbn [seq map fold_left] in H0, H1, H2.
  rewrite !trio_entries in H0, H1, H2 by lia.
  cbn [nth] in H0, H1, H2.
  rewrite Hii in H0. rewrite Hji, Hjj, Hjk in H1. rewrite Hki, Hkk in H2.
  fold a b d in H0, H1, H2.
  repeat split; [rewrite <- H0|rewrite <- H1|rewrite <- H2]; ring.
Qed.

(** On a trio with unit diagonal, symmetric entries and a positive
    determinant, the closed form of [calculate_partial_correlation] is
    the entry of [partial_correlation] of the trio. *)
Lemma trio_partial_correlation (corr P : matrix) (i j k : nat) :
  (get corr i i == 1)%Q -> (get corr j j == 1)%Q -> (get corr k k == 1)%Q ->
  (get corr j i == get corr i j)%Q -> (get corr k i == get corr i k)%Q ->
  (get corr j k == get corr k j)%Q ->
  (0 < trio_det (get corr i j) (get corr i k) (get corr k j))%Q ->
  linalg_inv (trio corr i j k) = Ok P ->
  is_inverse 3 (trio corr i j k) P ->
  is_sqrt (sqrt ((1 - get corr i k ^ 2) * (1 - get corr k j ^ 2))%Q)
          ((1 - get corr i k ^ 2) * (1 - get corr k j ^ 2))%Q ->
  is_sqrt (sqrt (get P 0 0 * get P 1 1)%Q) (get P 0 0 * get P 1 1)%Q ->
  exists R,
    partial_correlation sqrt linalg_inv (trio corr i j k) = Ok R /\
    (get R 0 1 == calculate_partial_correlation sqrt corr i j k)%Q.
Proof.
  intros Hii Hjj Hkk Hji Hki Hjk HD Hinv HP Hs Hs'.
  destruct (partial_correlation_entry (trio corr i j k) P Hinv)
    as [R [HR Hent]].
  exists R. split; [exact HR|].
  rewrite (Hent 0 1) by (simpl; lia).
  unfold calculate_partial_correlation. cbv zeta.
  destruct (trio_column corr P i j k 0 Hii Hjj Hkk Hji Hki Hjk HP ltac:(lia))
    as [A0 [A1 A2]].
  destruct (trio_column corr P i j k 1 Hii Hjj Hkk Hji Hki Hjk HP ltac:(lia))
    as [B0 [B1 B2]].
  cbv zeta in A0, A1, A2, B0, B1, B2. simpl Nat.eqb in A0, A1, A2, B0, B1, B2.
  cbv iota in A0, A1, A2, B0, B1, B2.
  destruct (cramer3 _ _ _ _ _ _ _ _ _ A0 A1 A2) as [C00 _].
  destruct (cramer3 _ _ _ _ _ _ _ _ _ B0 B1 B2) as [C01 C11].
  apply (trio_algebra (get corr i j) (get corr i k) (get corr k j)
           (get P 0 0) (get P 0 1) (get P 1 1)); try assumption.
  - rewrite C00. ring.
  - rewrite C01. ring.
  - rewrite C11. ring.
Qed.

(** C9.  The tensor that [dependency_network] builds has
    [D[i, j, j] = 1] for all [i], [j], and
    [D[i, j, k] = corr[i, j] - calculate_partial_correlation(corr, i, j, k)]
    for pairwise distinct [i], [j], [k]; for [k <> i] the entry
    [[k, i]] of the result is [1 / (p - 1)] times the sum of [D[i, j, k]]
    over the [j <> i]; and [calculate_partial_correlation(corr, i, j, k)]
    is what [partial_correlation] gives for [i] and [j] on the matrix
    restricted to the trio, when the trio has unit diagonal, symmetric
    entries and a positive determinant, and the inversion and the square
    root return what they promise. *)
Theorem dependency_network_formula (corr : matrix) :
  let p := shape0 corr in
  let D := dependency_tensor sqrt corr in
  (forall i j, i < p -> j < p -> get3 D i j j = 1%Q) /\
  (forall i j k, i < p -> j < p -> k < p -> i <> j -> i <> k -> j <> k ->
     get3 D i j k = (get corr i j - calculate_partial_correlation sqrt corr i j k)%Q) /\
  (forall i k, i < p -> k < p -> k <> i ->
     (get (dependency_network sqrt corr) k i
      == (1 / inject_Z (Z.of_nat p - 1))
         * np_sum (map (fun j => get3 D i j k)
                       (filter (fun j => negb (i =? j)) (seq 0 p))))%Q) /\
  (forall i j k P,
     (get corr i i == 1)%Q -> (get corr j j == 1)%Q -> (get corr k k == 1)%Q ->
     (get corr j i == get corr i j)%Q -> (get corr k i == get corr i k)%Q ->
     (get corr j k == get corr k j)%Q ->
     (0 < trio_det (get corr i j) (get corr i k) (get corr k j))%Q ->
     linalg_inv (trio corr i j k) = Ok P ->
     is_inverse 3 (trio corr i j k) P ->
     is_sqrt (sqrt ((1 - get corr i k ^ 2) * (1 - get corr k j ^ 2))%Q)
             ((1 - get corr i k ^ 2) * (1 - get corr k j ^ 2))%Q ->
     is_sqrt (sqrt (get P 0 0 * get P 1 1)%Q) (get P 0 0 * get P 1 1)%Q ->
     exists R,
       partial_correlation sqrt linalg_inv (trio corr i j k) = Ok R /\
       (get R 0 1 == calculate_partial_correlation sqrt corr i j k)%Q).
Proof.
  intros p D. destruct (dependency_tensor_spec corr) as [_ [H1 H2]].
  split; [exact H1|]. split; [exact H2|]. split.
  - intros i k Hi Hk Hki. unfold dependency_network. fold p. fold D.
    rewrite filter_loops_spec by assumption.
    unfold masked_row. unfold Qdiv. ring.
  - intros i j k P. apply trio_partial_correlation.
Qed.

End NumericProofs.

(** ** No operation changes its argument *)

Lemma keeps_refl (n : nat) (s : Store) : n <= length s -> keeps n s s.
Proof. intros H. split; [assumption|reflexivity]. Qed.

Lemma keeps_trans (n : nat) (s1 s2 s3 : Store) :
  keeps n s1 s2 -> keeps n s2 s3 -> keeps n s1 s3.
Proof.
  intros [H1 H2] [H3 H4]. split; [assumption|].
  intros i Hi. rewrite H4, H2 by assumption. reflexivity.
Qed.

Lemma nth_error_upd_other {A : Type} (f : A -> A) (l : list A) (r i : nat) :
  i <> r -> nth_error (upd l r f) i = nth_error l i.
Proof.
  revert r i. induction l as [|x l IH]; intros [|r] [|i] H; simpl; auto;
    congruence.
Qed.

Lemma nth_error_upd_same {A : Type} (f : A -> A) (l : list A) (r : nat) (x : A) :
  nth_error l r = Some x -> nth_error (upd l r f) r = Some (f x).
Proof.
  revert r. induction l as [|y l IH]; intros [|r] H; simpl in *; try discriminate.
  - congruence.
  - apply IH. assumption.
Qed.

Lemma frame_ret {A : Type} (n : nat) (a : A) (P : A -> Prop) :
  P a -> frame n (st_ret a) P.
Proof.
  intros HP s Hs. split; [apply keeps_refl; assumption|].
  simpl. intros b [= <-]. assumption.
Qed.

Lemma frame_lift {A : Type} (n : nat) (m : Exc A) :
  frame n (st_lift m) (fun _ => True).
Proof. intros s Hs. split; [apply keeps_refl; assumption|auto]. Qed.

Lemma frame_bind {A B : Type} (n : nat) (m : St A) (k : A -> St B)
    (P : A -> Prop) (Q : B -> Prop) :
  frame n m P -> (forall a, P a -> frame n (k a) Q) -> frame n (st_bind m k) Q.
Proof.
  intros Hm Hk s Hs. unfold st_bind.
  destruct (Hm s Hs) as [Hkeep HP].
  destruct (m s) as [[a|e] s'] eqn:E; simpl in *.
  - destruct (Hk a (HP a eq_refl) s' (proj1 Hkeep)) as [Hkeep' HQ].
    split; [eapply keeps_trans; eassumption|assumption].
  - split; [assumption|]. intros b Hb. discriminate.
Qed.

Lemma frame_weaken {A : Type} (n : nat) (m : St A) (P Q : A -> Prop) :
  (forall a, P a -> Q a) -> frame n m P -> frame n m Q.
Proof.
  intros H Hm s Hs. destruct (Hm s Hs) as [H1 H2]. split; auto.
Qed.

(** A new array lies behind the arrays that were there. *)
Lemma frame_alloc (n : nat) (a : ndarray) : frame n (alloc a) (fun r => n <= r).
Proof.
  intros s Hs. unfold alloc. simpl. split.
  - split; [rewrite length_app; lia|].
    intros i Hi. apply nth_error_app1. lia.
  - intros r [= <-]. assumption.
Qed.

Lemma frame_load2 (n : nat) (r : ref) : frame n (load2 r) (fun _ => True).
Proof.
  intros s Hs. unfold load2.
  destruct (nth_error s r) as [[a|a]|]; simpl;
    (split; [apply keeps_refl; assumption|auto]).
Qed.

Lemma frame_load3 (n : nat) (r : ref) : frame n (load3 r) (fun _ => True).
Proof.
  intros s Hs. unfold load3.
  destruct (nth_error s r) as [[a|a]|]; simpl;
    (split; [apply keeps_refl; assumption|auto]).
Qed.

(** An assignment into an array behind the first [n] keeps these. *)
Lemma frame_modify2 (n : nat) (r : ref) (f : matrix -> matrix) :
  n <= r -> frame n (modify2 r f) (fun _ => True).
Proof.
  intros Hr s Hs. unfold modify2.
  destruct (nth_error s r) as [[a|a]|]; simpl;
    try (split; [apply keeps_refl; assumption|auto]).
  split; [|auto]. split; [rewrite upd_length; assumption|].
  intros i Hi. apply nth_error_upd_other. lia.
Qed.

Lemma frame_modify3 (n : nat) (r : ref) (f : list matrix -> list matrix) :
  n <= r -> frame n (modify3 r f) (fun _ => True).
Proof.
  intros Hr s Hs. unfold modify3.
  destruct (nth_error s r) as [[a|a]|]; simpl;
    try (split; [apply keeps_refl; assumption|auto]).
  split; [|auto]. split; [rewrite upd_length; assumption|].
  intros i Hi. apply nth_error_upd_other. lia.
Qed.

Lemma frame_copy (n : nat) (r : ref) : frame n (np_copy_st r) (fun r' => n <= r').
Proof.
  unfold np_copy_st. eapply frame_bind; [apply frame_load2|].
  intros a _. apply frame_alloc.
Qed.

Lemma frame_abs (n : nat) (r : ref) : frame n (np_abs_st r) (fun r' => n <= r').
Proof.
  unfold np_abs_st. eapply frame_bind; [apply frame_load2|].
  intros a _. apply frame_alloc.
Qed.

Lemma frame_threshold (n : nat) (corr : ref) (t : Q) (binary absolute : bool) :
  frame n (threshold_st corr t binary absolute) (fun r => n <= r).
Proof.
  unfold threshold_st. eapply frame_bind; [apply frame_copy|].
  intros c Hc. eapply frame_bind.
  { unfold setitem_mask. destruct absolute; apply frame_modify2; exact Hc. }
  intros _ _. eapply frame_bind.
  { unfold setitem_mask. destruct binary;
      [apply frame_modify2; exact Hc|apply (frame_ret n tt (fun _ => True) I)]. }
  intros _ _. apply frame_ret. exact Hc.
Qed.

Lemma frame_tmfg (n : nat) (corr : ref) (absolute : bool) :
  frame n (tmfg_st corr absolute) (fun _ => True).
Proof.
  unfold tmfg_st. eapply frame_bind with (P := fun _ => True).
  { destruct absolute.
    - eapply frame_weaken; [|apply frame_abs]. auto.
    - apply frame_ret. exact I. }
  intros w _. eapply frame_bind; [apply frame_load2|].
  intros c _. eapply frame_bind; [apply frame_load2|].
  intros wv _. apply frame_lift.
Qed.

Lemma frame_mst (n : nat) (corr : ref) : frame n (mst_st corr) (fun _ => True).
Proof.
  unfold mst_st. eapply frame_bind; [apply frame_load2|].
  intros c _. apply frame_lift.
Qed.

Lemma frame_knn (n : nat) (corr : ref) (k : Z) : frame n (knn_st corr k) (fun _ => True).
Proof.
  unfold knn_st. eapply frame_bind; [apply frame_load2|].
  intros c _. apply frame_ret. exact I.
Qed.

Section StoreProofs.

Variable check_planarity : list node -> list (node * node) -> bool.
Variable sqrt : Q -> Q.
Variable linalg_inv : matrix -> Exc matrix.

Lemma frame_pmfg (n : nat) (corr : ref) :
  frame n (pmfg_st check_planarity corr) (fun _ => True).
Proof.
  unfold pmfg_st. eapply frame_bind; [apply frame_load2|].
  intros c _. apply frame_ret. exact I.
Qed.

Lemma frame_partial_correlation (n : nat) (corr : ref) :
  frame n (partial_correlation_st sqrt linalg_inv corr) (fun r => n <= r).
Proof.
  unfold partial_correlation_st. eapply frame_bind; [apply frame_load2|].
  intros c _. eapply frame_bind; [apply frame_lift|].
  intros prec_v _. eapply frame_bind; [apply frame_alloc|].
  intros prec _. eapply frame_bind; [apply frame_alloc|].
  intros pc Hpc. eapply frame_bind; [apply frame_load2|].
  intros pv _. eapply frame_bind; [apply frame_modify2; exact Hpc|].
  intros _ _. eapply frame_bind; [apply frame_modify2; exact Hpc|].
  intros _ _. apply frame_ret. exact Hpc.
Qed.

Lemma frame_dependency_network (n : nat) (corr : ref) :
  frame n (dependency_network_st sqrt corr) (fun r => n <= r).
Proof.
  unfold dependency_network_st. eapply frame_bind; [apply frame_load2|].
  intros c _. eapply frame_bind; [apply frame_alloc|].
  intros D HD. eapply frame_bind; [apply frame_load2|].
  intros c' _. eapply frame_bind; [apply frame_modify3; exact HD|].
  intros _ _. eapply frame_bind; [apply frame_modify3; exact HD|].
  intros _ _. eapply frame_bind; [apply frame_alloc|].
  intros dn Hdn. eapply frame_bind; [apply frame_load3|].
  intros Dv _. eapply frame_bind; [apply frame_modify2; exact Hdn|].
  intros _ _. apply frame_ret. exact Hdn.
Qed.

(** C10.  Whatever the store and the arguments, and whether the call
    returns or raises: every array that was in the store before a call of
    [tmfg], [pmfg], [mst], [knn], [threshold], [partial_correlation] or
    [dependency_network] is in it, unchanged, after the call; the
    argument [corr] is one of them. *)
Theorem operations_keep_arrays (s : Store) (corr : ref) (t : Q)
    (binary absolute : bool) (k : Z) (r : ref) :
  r < length s ->
  nth_error (snd (tmfg_st corr absolute s)) r = nth_error s r /\
  nth_error (snd (pmfg_st check_planarity corr s)) r = nth_error s r /\
  nth_error (snd (mst_st corr s)) r = nth_error s r /\
  nth_error (snd (knn_st corr k s)) r = nth_error s r /\
  nth_error (snd (threshold_st corr t binary absolute s)) r = nth_error s r /\
  nth_error (snd (partial_correlation_st sqrt linalg_inv corr s)) r = nth_error s r /\
  nth_error (snd (dependency_network_st sqrt corr s)) r = nth_error s r.
Proof.
  intros Hr.
  repeat split.
  - apply (frame_tmfg (length s) corr absolute s (le_n _)). exact Hr.
  - apply (frame_pmfg (length s) corr s (le_n _)). exact Hr.
  - apply (frame_mst (length s) corr s (le_n _)). exact Hr.
  - apply (frame_knn (length s) corr k s (le_n _)). exact Hr.
  - apply (frame_threshold (length s) corr t binary absolute s (le_n _)). exact Hr.
  - apply (frame_partial_correlation (length s) corr s (le_n _)). exact Hr.
  - apply (frame_dependency_network (length s) corr s (le_n _)). exact Hr.
Qed.

End StoreProofs.

(** [threshold] over references returns a new array, and the array holds
    what [threshold] over values makes of the argument. *)
Lemma threshold_st_result (s : Store) (corr : ref) (c : matrix) (t : Q)
    (binary absolute : bool) :
  nth_error s corr = Some (Arr2 c) ->
  threshold_st corr t binary absolute s
  = (Ok (length s), s ++ [Arr2 (threshold c t binary absolute)]).
Proof.
  intros Hc. unfold threshold_st, np_copy_st, st_bind, load2, alloc, setitem_mask,
    modify2, st_ret. rewrite Hc.
  assert (Hnew : forall a, nth_error (s ++ [Arr2 a]) (length s) = Some (Arr2 a)).
  { intros a. rewrite nth_error_app2 by lia. rewrite Nat.sub_diag. reflexivity. }
  assert (Hupd : forall a b, upd (s ++ [Arr2 a]) (length s) (fun _ => Arr2 b)
                             = s ++ [Arr2 b]).
  { intros a b. clear. induction s as [|x s IH]; simpl; [reflexivity|].
    rewrite IH. reflexivity. }
  unfold threshold.
  destruct absolute, binary; rewrite ?Hnew, ?Hupd, ?Hnew, ?Hupd; reflexivity.
Qed.

Lemma operations_keep_arrays_witness :
  let s := [Arr2 [[1; 3 # 5]; [3 # 5; 1]]%Q] in
  nth_error (snd (tmfg_st 0 false s)) 0 = nth_error s 0 /\
  nth_error (snd (pmfg_st planar_if_small 0 s)) 0 = nth_error s 0 /\
  nth_error (snd (mst_st 0 s)) 0 = nth_error s 0 /\
  nth_error (snd (knn_st 0 1 s)) 0 = nth_error s 0 /\
  nth_error (snd (threshold_st 0 (1 # 2) true true s)) 0 = nth_error s 0 /\
  nth_error (snd (partial_correlation_st sqrt_exact inv_2x2 0 s)) 0 = nth_error s 0 /\
  nth_error (snd (dependency_network_st sqrt_exact 0 s)) 0 = nth_error s 0.
Proof.
  apply (operations_keep_arrays planar_if_small sqrt_exact inv_2x2
           [Arr2 [[1; 3 # 5]; [3 # 5; 1]]%Q] 0 (1 # 2) true true 1%Z 0).
  simpl. lia.
Defined.

Lemma partial_correlation_unit_diagonal_witness :
  (exists R,
     partial_correlation sqrt_exact inv_2x2 [[1; 3 # 5]; [3 # 5; 1]]%Q = Ok R /\
     has_shape 2 R /\ forall i, i < 2 -> get R i i = 1%Q) /\
  partial_correlation sqrt_exact inv_2x2 [[1; 1]; [1; 1]]%Q = Raise LinAlgError.
Proof.
  split.
  - eapply (proj1 (partial_correlation_unit_diagonal sqrt_exact inv_2x2
                     [[1; 3 # 5]; [3 # 5; 1]]%Q)).
    vm_compute. reflexivity.
  - apply (proj2 (partial_correlation_unit_diagonal sqrt_exact inv_2x2
                    [[1; 1]; [1; 1]]%Q)).
    vm_compute. reflexivity.
Defined.

Lemma dependency_network_formula_witness :
  let corr := [[1; 1 # 2; 3 # 5]; [1 # 2; 1; 0]; [3 # 5; 0; 1]]%Q in
  let D := dependency_tensor sqrt_exact corr in
  get3 D 0 1 1 = 1%Q /\
  get3 D 0 1 2
  = (get corr 0 1 - calculate_partial_correlation sqrt_exact corr 0 1 2)%Q /\
  (get (dependency_network sqrt_exact corr) 2 0
   == (1 / inject_Z (Z.of_nat 3 - 1))
      * np_sum (map (fun j => get3 D 0 j 2)
                    (filter (fun j => negb (0 =? j)) (seq 0 3))))%Q /\
  exists R,
    partial_correlation sqrt_exact inv_3x3 (trio corr 0 1 2) = Ok R /\
    (get R 0 1 == calculate_partial_correlation sqrt_exact corr 0 1 2)%Q.
Proof.
  intros corr D.
  destruct (dependency_network_formula sqrt_exact inv_3x3 corr) as [H1 [H2 [H3 H4]]].
  split; [|split; [|split]].
  - apply H1; simpl; lia.
  - apply H2; simpl; lia.
  - apply (H3 0 2); simpl; lia.
  - eapply (H4 0 1 2).
    1-6: vm_compute; reflexivity.
    + vm_compute. reflexivity.
    + vm_compute. reflexivity.
    + intros r c Hr Hc.
      destruct r as [|[|[|r]]]; [| | |lia]; destruct c as [|[|[|c]]]; try lia;
        vm_compute; reflexivity.
    + split; vm_compute; [discriminate|reflexivity].
    + split; vm_compute; [discriminate|reflexivity].
Defined.

(** ** Connectivity *)

Lemma adj_sym (E : list (node * node)) (a b : node) : adj E a b -> adj E b a.
Proof. unfold adj. tauto. Qed.

Lemma conn_adj (E : list (node * node)) (a b : node) : adj E a b -> conn E a b.
Proof. intros H. eapply conn_step; [exact H|apply conn_refl]. Qed.

Lemma conn_trans (E : list (node * node)) (a b c : node) :
  conn E a b -> conn E b c -> conn E a c.
Proof.
  intros H. revert c. induction H as [a|a b' b Hadj H IH]; intros c Hc.
  - exact Hc.
  - eapply conn_step; [exact Hadj|]. apply IH. exact Hc.
Qed.

Lemma conn_sym (E : list (node * node)) (a b : node) : conn E a b -> conn E b a.
Proof.
  intros H. induction H as [a|a b' b Hadj H IH].
  - apply conn_refl.
  - eapply conn_trans; [exact IH|]. apply conn_adj. apply adj_sym. exact Hadj.
Qed.

Lemma conn_mono (E E' : list (node * node)) (a b : node) :
  (forall x y, adj E x y -> conn E' x y) -> conn E a b -> conn E' a b.
Proof.
  intros Hadj H. induction H as [a|a b' b Hab H IH].
  - apply conn_refl.
  - eapply conn_trans; [apply Hadj; exact Hab|exact IH].
Qed.

Lemma conn_incl (E E' : list (node * node)) (a b : node) :
  incl E E' -> conn E a b -> conn E' a b.
Proof.
  intros Hincl. apply conn_mono. intros x y [H|H]; apply conn_adj; [left|right];
    apply Hincl; exact H.
Qed.

Lemma conn_nil (a b : node) : conn [] a b -> a = b.
Proof.
  intros H. inversion H as [|? ? ? [[]|[]]]; subst. reflexivity.
Qed.

(** What a new edge connects. *)
Lemma conn_cons_inv (E : list (node * node)) (u v a b : node) :
  conn ((u, v) :: E) a b ->
  conn E a b \/ (conn E a u /\ conn E v b) \/ (conn E a v /\ conn E u b).
Proof.
  intros H. induction H as [a|a b' b Hadj H IH].
  - left. apply conn_refl.
  - assert (Hcases : adj E a b' \/ (a = u /\ b' = v) \/ (a = v /\ b' = u)).
    { destruct Hadj as [[Heq|Hin]|[Heq|Hin]].
      - injection Heq as -> ->. right; left; auto.
      - left; left; exact Hin.
      - injection Heq as -> ->. right; right; auto.
      - left; right; exact Hin. }
    destruct Hcases as [Hab|[[-> ->]|[-> ->]]].
    + destruct IH as [IH|[[IH1 IH2]|[IH1 IH2]]].
      * left. eapply conn_step; eassumption.
      * right; left. split; [eapply conn_step; eassumption|assumption].
      * right; right. split; [eapply conn_step; eassumption|assumption].
    + destruct IH as [IH|[[IH1 IH2]|[IH1 IH2]]].
      * right; left. split; [apply conn_refl|assumption].
      * right; left. split; [apply conn_refl|assumption].
      * left. assumption.
    + destruct IH as [IH|[[IH1 IH2]|[IH1 IH2]]].
      * right; right. split; [apply conn_refl|assumption].
      * left. assumption.
      * right; right. split; [apply conn_refl|assumption].
Qed.

Lemma conn_cons_new (E : list (node * node)) (u v : node) : conn ((u, v) :: E) u v.
Proof. apply conn_adj. left. left. reflexivity. Qed.

Lemma conn_cons_old (E : list (node * node)) (e : node * node) (a b : node) :
  conn E a b -> conn (e :: E) a b.
Proof. apply conn_incl. intros x Hx. right. exact Hx. Qed.

(** An edge between connected nodes connects nothing new. *)
Lemma conn_cons_redundant (E : list (node * node)) (u v a b : node) :
  conn E u v -> conn ((u, v) :: E) a b -> conn E a b.
Proof.
  intros Huv H. apply conn_cons_inv in H.
  destruct H as [H|[[H1 H2]|[H1 H2]]].
  - exact H.
  - eapply conn_trans; [exact H1|]. eapply conn_trans; [exact Huv|exact H2].
  - eapply conn_trans; [exact H1|].
    eapply conn_trans; [apply conn_sym; exact Huv|exact H2].
Qed.

Lemma conn_cons_swap (E : list (node * node)) (u v a b : node) :
  conn ((u, v) :: E) a b <-> conn ((v, u) :: E) a b.
Proof.
  split; apply conn_mono; intros x y Hxy; apply conn_adj;
    destruct Hxy as [[Heq|Hin]|[Heq|Hin]].
  - injection Heq as <- <-. right. left. reflexivity.
  - left. right. exact Hin.
  - injection Heq as <- <-. left. left. reflexivity.
  - right. right. exact Hin.
  - injection Heq as <- <-. right. left. reflexivity.
  - left. right. exact Hin.
  - injection Heq as <- <-. left. left. reflexivity.
  - right. right. exact Hin.
Qed.

Lemma conn_range (p : nat) (E : list (node * node)) (a b : node) :
  in_range p E -> conn E a b -> a < p -> b < p.
Proof.
  intros Hr H. induction H as [a|a b' b Hadj H IH]; intros Ha; [exact Ha|].
  apply IH. destruct Hadj as [Hin|Hin]; apply Hr in Hin; tauto.
Qed.

(** ** The partition into components *)

Lemma mem_set_add (x y : node) (s : list node) :
  mem x (set_add y s) = (x =? y) || mem x s.
Proof.
  unfold set_add. destruct (mem y s) eqn:E.
  - destruct (Nat.eqb_spec x y) as [->|]; [rewrite E|]; reflexivity.
  - unfold mem. rewrite existsb_app. simpl. rewrite orb_false_r. apply orb_comm.
Qed.

Lemma mem_set_union (x : node) (s1 s2 : list node) :
  mem x (set_union s1 s2) = mem x s1 || mem x s2.
Proof.
  unfold set_union. revert s1. induction s2 as [|y s2 IH]; intros s1; simpl.
  - rewrite orb_false_r. reflexivity.
  - rewrite IH, mem_set_add.
    destruct (x =? y), (mem x s1), (mem x s2); reflexivity.
Qed.

Lemma in_same_component_spec (components : list (list node)) (i j : node) :
  _in_same_component components i j = true <->
  exists c, In c components /\ mem i c = true /\ mem j c = true.
Proof.
  unfold _in_same_component. rewrite existsb_exists.
  split; intros [c [Hc H]]; exists c; split; auto.
  - apply andb_true_iff in H. exact H.
  - apply andb_true_iff. exact H.
Qed.

Lemma locate_shift (x : node) (components : list (list node)) (idx : nat)
    (found : option nat) :
  locate x components idx found
  = match locate x components 0 None with
    | Some k => Some (idx + k)
    | None => found
    end.
Proof.
  revert idx found. induction components as [|c rest IH]; intros idx found; simpl.
  - reflexivity.
  - rewrite (IH (S idx)), (IH 1).
    destruct (locate x rest 0 None) as [k|].
    + f_equal. lia.
    + destruct (mem x c); [f_equal; lia|reflexivity].
Qed.

Lemma locate_some (x : node) (components : list (list node)) (k : nat) :
  locate x components 0 None = Some k ->
  exists c, nth_error components k = Some c /\ mem x c = true.
Proof.
  revert k. induction components as [|c rest IH]; intros k H; simpl in H.
  - discriminate.
  - rewrite locate_shift in H. destruct (locate x rest 0 None) as [k'|] eqn:E.
    + injection H as <-. simpl. apply IH. reflexivity.
    + destruct (mem x c) eqn:Hc; [|discriminate].
      injection H as <-. exists c. auto.
Qed.

Lemma locate_none (x : node) (components : list (list node)) :
  locate x components 0 None = None ->
  forall c, In c components -> mem x c = false.
Proof.
  induction components as [|c rest IH]; intros H c' Hc'; simpl in H.
  - destruct Hc'.
  - rewrite locate_shift in H. destruct (locate x rest 0 None) as [k'|] eqn:E.
    + discriminate.
    + destruct (mem x c) eqn:Hc; [discriminate|].
      destruct Hc' as [<-|Hc']; [assumption|]. apply IH; auto.
Qed.

Lemma delete_perm {A : Type} (l : list A) (k : nat) (x : A) :
  nth_error l k = Some x -> Permutation l (x :: delete l k).
Proof.
  revert k. induction l as [|y l IH]; intros [|k] H; simpl in *; try discriminate.
  - injection H as ->. reflexivity.
  - rewrite (IH k H) at 1. apply perm_swap.
Qed.

Lemma upd_perm {A : Type} (f : A -> A) (l : list A) (k : nat) (x : A) :
  nth_error l k = Some x -> Permutation (upd l k f) (f x :: delete l k).
Proof.
  revert k. induction l as [|y l IH]; intros [|k] H; simpl in *; try discriminate.
  - injection H as ->. reflexivity.
  - rewrite (IH k H). apply perm_swap.
Qed.

(** Taking two entries out of a list, after one of them was changed. *)
Lemma merge_perm {A : Type} (f : A -> A) (l : list A) (k1 k2 : nat) (x1 x2 : A) :
  k1 <> k2 -> nth_error l k1 = Some x1 -> nth_error l k2 = Some x2 ->
  exists rest,
    Permutation l (x1 :: x2 :: rest) /\
    Permutation (delete (upd l k1 f) k2) (f x1 :: rest).
Proof.
  revert k1 k2. induction l as [|y l IH]; intros [|k1] [|k2] Hne H1 H2;
    simpl in *; try discriminate; try congruence.
  - injection H1 as ->. exists (delete l k2). split; [|reflexivity].
    constructor. apply delete_perm. assumption.
  - injection H2 as ->. exists (delete l k1). split.
    + rewrite (delete_perm l k1 x1 H1) at 1. apply perm_swap.
    + apply upd_perm. assumption.
  - destruct (IH k1 k2) as [rest [P1 P2]]; try assumption; try congruence.
    exists (y :: rest). split.
    + rewrite P1. transitivity (x1 :: y :: x2 :: rest); [apply perm_swap|].
      constructor. apply perm_swap.
    + rewrite P2. apply perm_swap.
Qed.

(** [_merge_components], on two nodes that are in different components:
    the two components are replaced by their union. *)
Lemma merge_components_spec (components : list (list node)) (i j : node) :
  (exists c, In c components /\ mem i c = true) ->
  (exists c, In c components /\ mem j c = true) ->
  _in_same_component components i j = false ->
  exists c1 c2 others components',
    _merge_components components i j = Ok components' /\
    mem i c1 = true /\ mem j c2 = true /\
    Permutation components (c1 :: c2 :: others) /\
    Permutation components' (set_union c1 c2 :: others).
Proof.
  intros [ci [Hci Hi]] [cj [Hcj Hj]] Hsame. unfold _merge_components.
  destruct (locate i components 0 None) as [k1|] eqn:E1.
  2:{ rewrite (locate_none i components E1 ci Hci) in Hi. discriminate. }
  destruct (locate j components 0 None) as [k2|] eqn:E2.
  2:{ rewrite (locate_none j components E2 cj Hcj) in Hj. discriminate. }
  destruct (locate_some i components k1 E1) as [c1 [Hc1 Hi1]].
  destruct (locate_some j components k2 E2) as [c2 [Hc2 Hj2]].
  assert (Hne : k1 <> k2).
  { intros ->. rewrite Hc1 in Hc2. injection Hc2 as ->.
    assert (Ht : _in_same_component components i j = true).
    { apply in_same_component_spec. exists c2. repeat split; auto.
      eapply nth_error_In. eassumption. }
    congruence. }
  destruct (merge_perm (fun c => set_union c (nth k2 components [])) components
              k1 k2 c1 c2 Hne Hc1 Hc2) as [others [P1 P2]].
  exists c1, c2, others. eexists. split; [reflexivity|].
  repeat split; auto.
  rewrite (nth_error_nth components k2 [] Hc2) in P2.
  rewrite (nth_error_nth components k2 [] Hc2). exact P2.
Qed.

Lemma filter_length_perm {A : Type} (f : A -> bool) (l l' : list A) :
  Permutation l l' -> length (filter f l) = length (filter f l').
Proof.
  intros H. induction H; simpl.
  - reflexivity.
  - destruct (f x); simpl; congruence.
  - destruct (f x), (f y); reflexivity.
  - congruence.
Qed.

Lemma filter_none {A : Type} (f : A -> bool) (l : list A) :
  length (filter f l) = 0 -> forall x, In x l -> f x = false.
Proof.
  induction l as [|y l IH]; intros H x Hx; [destruct Hx|].
  simpl in H. destruct (f y) eqn:E; [discriminate|].
  destruct Hx as [<-|Hx]; auto.
Qed.

Lemma filter_some {A : Type} (f : A -> bool) (l : list A) :
  0 < length (filter f l) -> exists x, In x l /\ f x = true.
Proof.
  induction l as [|y l IH]; simpl; intros H; [lia|].
  destruct (f y) eqn:E.
  - exists y. auto.
  - destruct (IH H) as [x [Hx Hf]]. exists x. auto.
Qed.

Lemma part_inv_cover (p : nat) (components : list (list node))
    (E : list (node * node)) (x : node) :
  part_inv p components E -> x < p ->
  exists c, In c components /\ mem x c = true.
Proof.
  intros H Hx. apply filter_some. rewrite (pi_count _ _ _ H x Hx). lia.
Qed.

Lemma part_inv_same (p : nat) (components : list (list node))
    (E : list (node * node)) (a b : node) :
  part_inv p components E -> a < p ->
  (_in_same_component components a b = true <-> conn E a b).
Proof.
  intros H Ha. rewrite in_same_component_spec. split.
  - intros [c [Hc [H1 H2]]]. eapply pi_conn; eassumption.
  - intros Hab. destruct (part_inv_cover p components E a H Ha) as [c [Hc H1]].
    exists c. repeat split; auto. eapply pi_closed; eassumption.
Qed.

(** The partition does not depend on how the edges are listed. *)
Lemma part_inv_ext (p : nat) (components : list (list node))
    (E E' : list (node * node)) :
  (forall a b, conn E a b <-> conn E' a b) ->
  part_inv p components E -> part_inv p components E'.
Proof.
  intros Heq [H1 H2 H3]. constructor.
  - exact H1.
  - intros c x y Hc Hx Hy. apply Heq. eapply H2; eassumption.
  - intros c x y Hc Hx Hxy. apply Heq in Hxy. eapply H3; eassumption.
Qed.

Lemma part_inv_merge (p : nat) (components components' : list (list node))
    (E : list (node * node)) (i j : node) (c1 c2 : list node)
    (others : list (list node)) :
  part_inv p components E -> i < p -> j < p ->
  mem i c1 = true -> mem j c2 = true ->
  Permutation components (c1 :: c2 :: others) ->
  Permutation components' (set_union c1 c2 :: others) ->
  part_inv p components' ((i, j) :: E).
Proof.
  intros [Hcount Hconn Hclosed] Hi Hj Hi1 Hj2 P P'.
  assert (Hin1 : In c1 components)
    by (eapply Permutation_in; [symmetry; exact P|left; reflexivity]).
  assert (Hin2 : In c2 components)
    by (eapply Permutation_in; [symmetry; exact P|right; left; reflexivity]).
  assert (Hino : forall c, In c others -> In c components)
    by (intros c Hc; eapply Permutation_in; [symmetry; exact P|right; right; exact Hc]).
  assert (Hcnt : forall x, x < p ->
            (if mem x c1 then 1 else 0) + (if mem x c2 then 1 else 0)
            + length (filter (mem x) others) = 1).
  { intros x Hx. pose proof (Hcount x Hx) as H0.
    rewrite (filter_length_perm _ _ _ P) in H0. simpl in H0.
    destruct (mem x c1), (mem x c2); simpl in *; lia. }
  assert (Hother : forall c x, In c others -> x < p -> mem x c = true ->
            mem x c1 = false /\ mem x c2 = false).
  { intros c x Hc Hx Hm. specialize (Hcnt x Hx).
    assert (0 < length (filter (mem x) others)).
    { destruct (filter (mem x) others) eqn:Ef; simpl; [|lia].
      assert (Hf : mem x c = false).
      { apply (filter_none (mem x) others); [rewrite Ef; reflexivity|exact Hc]. }
      congruence. }
    destruct (mem x c1), (mem x c2); auto; lia. }
  constructor.
  - intros x Hx. rewrite (filter_length_perm _ _ _ P'). simpl.
    rewrite mem_set_union. specialize (Hcnt x Hx).
    destruct (mem x c1), (mem x c2); simpl in *; lia.
  - intros c x y Hc Hx Hy.
    apply (Permutation_in _ P') in Hc. destruct Hc as [<-|Hc].
    + rewrite mem_set_union in Hx, Hy.
      apply orb_true_iff in Hx, Hy.
      destruct Hx as [Hx|Hx], Hy as [Hy|Hy].
      * apply conn_cons_old. eapply Hconn; [exact Hin1| |]; assumption.
      * eapply conn_trans; [apply conn_cons_old; apply (Hconn c1 x i); assumption|].
        eapply conn_trans; [apply conn_cons_new|].
        apply conn_cons_old. apply (Hconn c2 j y); assumption.
      * eapply conn_trans; [apply conn_cons_old; apply (Hconn c2 x j); assumption|].
        eapply conn_trans; [apply conn_sym; apply conn_cons_new|].
        apply conn_cons_old. apply (Hconn c1 i y); assumption.
      * apply conn_cons_old. eapply Hconn; [exact Hin2| |]; assumption.
    + apply conn_cons_old. eapply Hconn; [apply Hino; exact Hc| |]; assumption.
  - intros c x y Hc Hx Hxy.
    apply (Permutation_in _ P') in Hc.
    apply conn_cons_inv in Hxy. destruct Hc as [<-|Hc].
    + rewrite mem_set_union in *. apply orb_true_iff in Hx. apply orb_true_iff.
      destruct Hxy as [Hxy|[[Hxi Hjy]|[Hxj Hiy]]].
      * destruct Hx as [Hx|Hx]; [left|right]; eapply Hclosed; eauto.
      * right. eapply Hclosed; eauto.
      * left. eapply Hclosed; eauto.
    + destruct Hxy as [Hxy|[[Hxi Hjy]|[Hxj Hiy]]].
      * eapply Hclosed; [apply Hino; exact Hc| |]; eassumption.
      * exfalso.
        assert (Hic : mem i c = true)
          by (eapply Hclosed; [apply Hino; exact Hc|exact Hx|exact Hxi]).
        destruct (Hother c i Hc Hi Hic) as [Hf _]. congruence.
      * exfalso.
        assert (Hjc : mem j c = true)
          by (eapply Hclosed; [apply Hino; exact Hc|exact Hx|exact Hxj]).
        destruct (Hother c j Hc Hj Hjc) as [_ Hf]. congruence.
Qed.

Lemma singletons_count (x a n : nat) :
  length (filter (mem x) (map (fun y => set_of [y]) (seq a n)))
  = if (a <=? x) && (x <? a + n) then 1 else 0.
Proof.
  revert a. induction n as [|n IH]; intros a; simpl.
  - destruct (a <=? x) eqn:E1; simpl; [|reflexivity].
    destruct (x <? a + 0) eqn:E2; [|reflexivity].
    apply Nat.leb_le in E1. apply Nat.ltb_lt in E2. lia.
  - rewrite orb_false_r. destruct (Nat.eqb_spec x a) as [->|Hne]; simpl.
    + rewrite IH. rewrite Nat.leb_refl.
      assert (E1 : (S a <=? a) = false) by (apply Nat.leb_gt; lia).
      assert (E2 : (a <? a + S n) = true) by (apply Nat.ltb_lt; lia).
      rewrite E1, E2. reflexivity.
    + rewrite IH.
      destruct (a <=? x) eqn:E1, (S a <=? x) eqn:E2, (x <? a + S n) eqn:E3,
        (x <? S a + n) eqn:E4; simpl; try reflexivity;
        repeat match goal with
        | H : (_ <=? _) = true |- _ => apply Nat.leb_le in H
        | H : (_ <=? _) = false |- _ => apply Nat.leb_gt in H
        | H : (_ <? _) = true |- _ => apply Nat.ltb_lt in H
        | H : (_ <? _) = false |- _ => apply Nat.ltb_ge in H
        end; lia.
Qed.

Lemma singletons_inv (p : nat) : part_inv p (singletons p) [].
Proof.
  unfold singletons. constructor.
  - intros x Hx. rewrite singletons_count.
    assert (E : (x <? 0 + p) = true) by (apply Nat.ltb_lt; lia).
    rewrite E. reflexivity.
  - intros c x y Hc Hx Hy. apply in_map_iff in Hc. destruct Hc as [z [<- _]].
    simpl in Hx, Hy. rewrite orb_false_r in Hx, Hy.
    apply Nat.eqb_eq in Hx, Hy. subst. apply conn_refl.
  - intros c x y Hc Hx Hxy. apply conn_nil in Hxy. subst. exact Hx.
Qed.

(** ** A test for [conn], and the number of classes *)

Lemma in_range_cons (p : nat) (e : node * node) (E : list (node * node)) :
  in_range p (e :: E) -> fst e < p /\ snd e < p /\ in_range p E.
Proof.
  intros H. destruct e as [a b]. simpl.
  destruct (H a b (or_introl eq_refl)) as [Ha Hb].
  split; [exact Ha|split; [exact Hb|]].
  intros x y Hxy. apply H. right. exact Hxy.
Qed.

Lemma components_of_inv (p : nat) (E : list (node * node)) :
  in_range p E -> part_inv p (components_of p E) E.
Proof.
  induction E as [|[u v] E IH]; intros Hr.
  - apply singletons_inv.
  - apply in_range_cons in Hr. simpl in Hr. destruct Hr as [Hu [Hv Hr]].
    specialize (IH Hr). simpl.
    destruct (_in_same_component (components_of p E) u v) eqn:Hs.
    + apply (part_inv_ext p _ E); [|exact IH].
      apply (part_inv_same p _ E u v IH Hu) in Hs.
      intros a b. split; [apply conn_cons_old|apply conn_cons_redundant; exact Hs].
    + destruct (merge_components_spec (components_of p E) u v)
        as [c1 [c2 [others [comps' [Hm [H1 [H2 [P P']]]]]]]].
      * apply (part_inv_cover p _ E); assumption.
      * apply (part_inv_cover p _ E); assumption.
      * exact Hs.
      * unfold merge_total. rewrite Hm.
        eapply part_inv_merge; eassumption.
Qed.

Lemma connb_spec (p : nat) (E : list (node * node)) (a b : node) :
  in_range p E -> a < p -> (connb p E a b = true <-> conn E a b).
Proof.
  intros Hr Ha. unfold connb. apply (part_inv_same p); [|exact Ha].
  apply components_of_inv. exact Hr.
Qed.

Lemma is_rep_spec (p : nat) (E : list (node * node)) (i : node) :
  in_range p E -> i < p ->
  (is_rep p E i = true <-> forall j, j < i -> ~ conn E j i).
Proof.
  intros Hr Hi. unfold is_rep. rewrite forallb_forall. split.
  - intros H j Hj Hc.
    assert (Hb : connb p E j i = true) by (apply connb_spec; [assumption|lia|assumption]).
    assert (Hn : negb (connb p E j i) = true) by (apply H; apply in_seq; lia).
    rewrite Hb in Hn. discriminate Hn.
  - intros H j Hj. apply in_seq in Hj.
    destruct (connb p E j i) eqn:Hb; [|reflexivity].
    apply connb_spec in Hb; [|assumption|lia]. exfalso. apply (H j); [lia|exact Hb].
Qed.

(** Every node is connected to the least node of its class. *)
Lemma least_rep (p : nat) (E : list (node * node)) :
  in_range p E ->
  forall x, x < p ->
    exists r, r <= x /\ conn E r x /\ is_rep p E r = true.
Proof.
  intros Hr x. induction x as [x IH] using lt_wf_ind. intros Hx.
  destruct (is_rep p E x) eqn:Hrep.
  - exists x. repeat split; [lia|apply conn_refl|exact Hrep].
  - unfold is_rep in Hrep.
    assert (Hex : exists j, In j (seq 0 x) /\ connb p E j x = true).
    { clear - Hrep. induction (seq 0 x) as [|y l IHl]; simpl in Hrep; [discriminate|].
      destruct (connb p E y x) eqn:Hy.
      - exists y. split; [left; reflexivity|exact Hy].
      - simpl in Hrep. destruct (IHl Hrep) as [j [Hj1 Hj2]].
        exists j. split; [right; exact Hj1|exact Hj2]. }
    destruct Hex as [j [Hj Hc]]. apply in_seq in Hj.
    apply connb_spec in Hc; [|assumption|lia].
    destruct (IH j) as [r [Hr1 [Hr2 Hr3]]]; [lia|lia|].
    exists r. repeat split; [lia| |exact Hr3].
    eapply conn_trans; eassumption.
Qed.

Lemma rep_least (p : nat) (E : list (node * node)) (r x : node) :
  in_range p E -> r < p -> is_rep p E r = true -> conn E x r -> r <= x.
Proof.
  intros Hr Hrp Hrep Hc.
  destruct (le_lt_dec r x) as [H|H]; [exact H|].
  exfalso. apply ((proj1 (is_rep_spec p E r Hr Hrp)) Hrep x H Hc).
Qed.

Lemma rep_unique (p : nat) (E : list (node * node)) (r r' : node) :
  in_range p E -> r < p -> r' < p ->
  is_rep p E r = true -> is_rep p E r' = true -> conn E r r' -> r = r'.
Proof.
  intros Hr H1 H2 R1 R2 Hc.
  pose proof (rep_least p E r' r Hr H2 R2 Hc).
  pose proof (rep_least p E r r' Hr H1 R1 (conn_sym _ _ _ Hc)). lia.
Qed.

Lemma filter_length_le {A : Type} (f g : A -> bool) (l : list A) :
  (forall x, In x l -> f x = true -> g x = true) ->
  length (filter f l) <= length (filter g l).
Proof.
  induction l as [|x l IH]; intros H; simpl; [lia|].
  assert (IH' : length (filter f l) <= length (filter g l))
    by (apply IH; intros y Hy; apply H; right; exact Hy).
  destruct (f x) eqn:Ef.
  - rewrite (H x (or_introl eq_refl) Ef). simpl. lia.
  - destruct (g x); simpl; lia.
Qed.

(** More connections, fewer classes. *)
Lemma classes_mono (p : nat) (E E' : list (node * node)) :
  in_range p E -> in_range p E' ->
  (forall a b, conn E a b -> conn E' a b) ->
  classes p E' <= classes p E.
Proof.
  intros Hr Hr' Hsub. unfold classes. apply filter_length_le.
  intros i Hi Hrep. apply in_seq in Hi.
  apply is_rep_spec; [assumption|lia|].
  intros j Hj Hc. apply Hsub in Hc.
  apply ((proj1 (is_rep_spec p E' i Hr' ltac:(lia))) Hrep j Hj Hc).
Qed.

Lemma filter_remove_one (f : nat -> bool) (l : list nat) (x : nat) :
  NoDup l -> In x l -> f x = true ->
  length (filter (fun i => f i && negb (i =? x)) l) + 1 = length (filter f l).
Proof.
  induction l as [|y l IH]; intros Hnd Hin Hf; [destruct Hin|].
  inversion Hnd as [|? ? Hy Hnd']; subst. simpl.
  destruct Hin as [->|Hin].
  - rewrite Hf, Nat.eqb_refl. simpl.
    assert (E : filter (fun i => f i && negb (i =? x)) l = filter f l).
    { apply filter_ext_in. intros i Hi.
      destruct (Nat.eqb_spec i x) as [->|]; [contradiction|].
      rewrite andb_true_r. reflexivity. }
    rewrite E. lia.
  - specialize (IH Hnd' Hin Hf).
    destruct (Nat.eqb_spec y x) as [->|Hne]; [contradiction|].
    rewrite andb_true_r. destruct (f y); simpl; lia.
Qed.

(** An edge between two classes makes one class of them. *)
Lemma classes_step_lt (p : nat) (E : list (node * node)) (u v ru rv : node) :
  in_range p E -> u < p -> v < p ->
  ru < p -> rv < p ->
  conn E ru u -> conn E rv v ->
  is_rep p E ru = true -> is_rep p E rv = true ->
  ru < rv ->
  forall E', in_range p E' ->
    (forall a b, conn E' a b <-> conn ((u, v) :: E) a b) ->
    classes p E' + 1 = classes p E.
Proof.
  intros Hr Hu Hv Hru Hrv Cu Cv Ru Rv Hlt E' Hr' Heq. unfold classes.
  assert (H1 : length (filter (fun i => is_rep p E i && negb (i =? rv)) (seq 0 p)) + 1
               = length (filter (is_rep p E) (seq 0 p))).
  { apply filter_remove_one; [apply seq_NoDup|apply in_seq; lia|exact Rv]. }
  etransitivity; [|exact H1].
  f_equal. f_equal. apply filter_ext_in. intros i Hi. apply in_seq in Hi.
  assert (Hip : i < p) by lia.
  destruct (is_rep p E' i) eqn:Hrep'; symmetry.
  - pose proof (proj1 (is_rep_spec p E' i Hr' Hip) Hrep') as H'.
    apply andb_true_iff. split.
    + apply is_rep_spec; [assumption|assumption|].
      intros j Hj Hc. apply (H' j Hj). apply Heq. apply conn_cons_old. exact Hc.
    + apply negb_true_iff. apply Nat.eqb_neq. intros ->.
      apply (H' ru Hlt). apply Heq.
      eapply conn_trans; [apply conn_cons_old; exact Cu|].
      eapply conn_trans; [apply conn_cons_new|].
      apply conn_cons_old. apply conn_sym. exact Cv.
  - apply andb_false_iff.
    destruct (is_rep p E i) eqn:Hrep; [|left; reflexivity].
    right. apply negb_false_iff. apply Nat.eqb_eq.
    assert (Hex : exists j, j < i /\ conn E' j i).
    { unfold is_rep in Hrep'.
      assert (Hex : exists j, In j (seq 0 i) /\ connb p E' j i = true).
      { clear - Hrep'. induction (seq 0 i) as [|y l IHl]; simpl in Hrep'; [discriminate|].
        destruct (connb p E' y i) eqn:Hy.
        - exists y. split; [left; reflexivity|exact Hy].
        - simpl in Hrep'. destruct (IHl Hrep') as [j [Hj1 Hj2]].
          exists j. split; [right; exact Hj1|exact Hj2]. }
      destruct Hex as [j [Hj Hc]]. apply in_seq in Hj.
      exists j. split; [lia|]. apply connb_spec in Hc; [exact Hc|assumption|lia]. }
    destruct Hex as [j [Hj Hc]]. apply Heq in Hc. apply conn_cons_inv in Hc.
    pose proof (proj1 (is_rep_spec p E i Hr Hip) Hrep) as Hi'.
    destruct Hc as [Hc|[[Hju Hvi]|[Hjv Hui]]].
    + exfalso. apply (Hi' j Hj Hc).
    + apply (rep_unique p E); try assumption.
      eapply conn_trans; [|apply conn_sym; exact Cv]. apply conn_sym. exact Hvi.
    + exfalso.
      assert (i = ru).
      { apply (rep_unique p E); try assumption.
        eapply conn_trans; [|apply conn_sym; exact Cu]. apply conn_sym. exact Hui. }
      subst i.
      assert (rv <= j).
      { apply (rep_least p E rv j Hr Hrv Rv).
        eapply conn_trans; [exact Hjv|]. apply conn_sym. exact Cv. }
      lia.
Qed.

Lemma classes_step (p : nat) (E : list (node * node)) (u v : node) :
  in_range p E -> u < p -> v < p -> ~ conn E u v ->
  classes p ((u, v) :: E) + 1 = classes p E.
Proof.
  intros Hr Hu Hv Hn.
  destruct (least_rep p E Hr u Hu) as [ru [Lu [Cu Ru]]].
  destruct (least_rep p E Hr v Hv) as [rv [Lv [Cv Rv]]].
  assert (Hr' : in_range p ((u, v) :: E)).
  { intros a b [Heq|Hin]; [injection Heq as <- <-; auto|apply Hr; exact Hin]. }
  destruct (Nat.lt_trichotomy ru rv) as [Hlt|[Heq|Hgt]].
  - apply (classes_step_lt p E u v ru rv); try assumption; try lia.
    intros a b. reflexivity.
  - exfalso. subst rv. apply Hn.
    eapply conn_trans; [apply conn_sym; exact Cu|exact Cv].
  - apply (classes_step_lt p E v u rv ru); try assumption; try lia.
    intros a b. apply conn_cons_swap.
Qed.

Lemma filter_all {A : Type} (f : A -> bool) (l : list A) :
  (forall x, In x l -> f x = true) -> filter f l = l.
Proof.
  induction l as [|x l IH]; intros H; simpl; [reflexivity|].
  rewrite (H x (or_introl eq_refl)). f_equal. apply IH.
  intros y Hy. apply H. right. exact Hy.
Qed.

Lemma in_range_nil (p : nat) : in_range p [].
Proof. intros a b []. Qed.

Lemma classes_nil (p : nat) : classes p [] = p.
Proof.
  unfold classes. rewrite filter_all; [apply length_seq|].
  intros i Hi. apply in_seq in Hi.
  apply is_rep_spec; [apply in_range_nil|lia|].
  intros j Hj Hc. apply conn_nil in Hc. lia.
Qed.

(** A forest on [p] nodes with [n] edges has [p - n] classes. *)
Lemma forest_classes (p : nat) (E : list (node * node)) :
  in_range p E -> forest_inc E -> classes p E + length E = p.
Proof.
  induction E as [|[u v] E IH]; intros Hr Hf.
  - rewrite classes_nil. simpl. lia.
  - apply in_range_cons in Hr. simpl in Hr. destruct Hr as [Hu [Hv Hr]].
    destruct Hf as [Hn Hf]. simpl in Hn.
    specialize (IH Hr Hf).
    pose proof (classes_step p E u v Hr Hu Hv Hn). simpl. lia.
Qed.

(** A forest inside the classes of another forest has no more edges. *)
Lemma forest_inside (p : nat) (F K : list (node * node)) :
  in_range p F -> in_range p K -> forest_inc F -> forest_inc K ->
  (forall a b, In (a, b) F -> conn K a b) ->
  length F <= length K.
Proof.
  intros HrF HrK HfF HfK Hin.
  pose proof (forest_classes p F HrF HfF) as HF.
  pose proof (forest_classes p K HrK HfK) as HK.
  assert (Hle : classes p K <= classes p F).
  { apply classes_mono; try assumption.
    intros a b. apply conn_mono. intros x y [Hxy|Hxy].
    - apply Hin. exact Hxy.
    - apply conn_sym. apply Hin. exact Hxy. }
  lia.
Qed.

Lemma length_one_eq {A : Type} (l : list A) (x y : A) :
  length l = 1 -> In x l -> In y l -> x = y.
Proof.
  destruct l as [|a [|b l]]; simpl; intros H Hx Hy; try discriminate.
  destruct Hx as [<-|[]], Hy as [<-|[]]. reflexivity.
Qed.

(** One class: everything is connected; and the other way round. *)
Lemma one_class_connected (p : nat) (E : list (node * node)) :
  in_range p E -> classes p E = 1 ->
  forall a b, a < p -> b < p -> conn E a b.
Proof.
  intros Hr H1 a b Ha Hb.
  destruct (least_rep p E Hr a Ha) as [ra [La [Ca Ra]]].
  destruct (least_rep p E Hr b Hb) as [rb [Lb [Cb Rb]]].
  assert (ra = rb).
  { apply (length_one_eq (filter (is_rep p E) (seq 0 p))); [exact H1| |];
      apply filter_In; split; auto; apply in_seq; lia. }
  subst rb. eapply conn_trans; [apply conn_sym; exact Ca|exact Cb].
Qed.

Lemma filter_zero_none (n a : nat) :
  0 < a -> filter (fun i => i =? 0) (seq a n) = [].
Proof.
  revert a. induction n as [|n IH]; intros a Ha; simpl; [reflexivity|].
  destruct (Nat.eqb_spec a 0); [lia|]. apply IH. lia.
Qed.

Lemma connected_one_class (p : nat) (E : list (node * node)) :
  in_range p E -> 0 < p ->
  (forall a b, a < p -> b < p -> conn E a b) -> classes p E = 1.
Proof.
  intros Hr Hp Hall. unfold classes.
  assert (E0 : filter (is_rep p E) (seq 0 p) = filter (fun i => i =? 0) (seq 0 p)).
  { apply filter_ext_in. intros i Hi. apply in_seq in Hi.
    destruct (Nat.eqb_spec i 0) as [->|Hne].
    - apply is_rep_spec; [assumption|lia|]. intros j Hj. lia.
    - destruct (is_rep p E i) eqn:Hrep; [|reflexivity].
      exfalso. apply ((proj1 (is_rep_spec p E i Hr ltac:(lia))) Hrep 0); [lia|].
      apply Hall; lia. }
  rewrite E0. destruct p as [|p]; [lia|]. simpl.
  rewrite filter_zero_none by lia. reflexivity.
Qed.

(** ** Cycles and forests *)

Lemma pair_eqb_spec (e f : node * node) : pair_eqb e f = true <-> e = f.
Proof.
  destruct e as [a b], f as [c d]. unfold pair_eqb. simpl.
  rewrite andb_true_iff, !Nat.eqb_eq. split.
  - intros [-> ->]. reflexivity.
  - intros [= -> ->]. auto.
Qed.

Lemma norm_eq (a b c d : node) :
  norm (a, b) = norm (c, d) <-> (a = c /\ b = d) \/ (a = d /\ b = c).
Proof.
  unfold norm. simpl. split.
  - intros [= H1 H2]. lia.
  - intros [[-> ->]|[-> ->]]; [reflexivity|].
    rewrite Nat.min_comm, Nat.max_comm. reflexivity.
Qed.

Lemma norm_swap (a b : node) : norm (a, b) = norm (b, a).
Proof. apply norm_eq. right. auto. Qed.

Lemma adj_norm_in (E : list (node * node)) (x y : node) :
  adj E x y -> In (norm (x, y)) (map norm E).
Proof.
  intros [H|H].
  - apply in_map. exact H.
  - rewrite norm_swap. apply in_map. exact H.
Qed.

Lemma without_edge_In (e f : node * node) (E : list (node * node)) :
  In f (without_edge e E) <-> In f E /\ norm f <> norm e.
Proof.
  unfold without_edge. rewrite filter_In, negb_true_iff.
  split; intros [H1 H2]; split; auto.
  - intros Heq. apply pair_eqb_spec in Heq. congruence.
  - destruct (pair_eqb (norm f) (norm e)) eqn:E1; [|reflexivity].
    apply pair_eqb_spec in E1. contradiction.
Qed.

Lemma path_conn (E : list (node * node)) (a b : node) (vs : list node) :
  path E a vs b -> conn E a b.
Proof.
  intros H. induction H as [a|a b c vs Hadj H IH].
  - apply conn_refl.
  - eapply conn_step; eassumption.
Qed.

Lemma path_mono (E E' : list (node * node)) (a b : node) (vs : list node) :
  (forall x y, adj E x y -> adj E' x y) -> path E a vs b -> path E' a vs b.
Proof.
  intros Hadj H. induction H as [a|a b c vs Hab H IH]; constructor; auto.
Qed.

Lemma path_suffix (E : list (node * node)) (l1 l2 : list node) (a x c : node) :
  path E a (l1 ++ x :: l2) c -> path E x l2 c.
Proof.
  revert a. induction l1 as [|y l1 IH]; intros a H; simpl in H.
  - inversion H; subst. assumption.
  - inversion H; subst. eapply IH. eassumption.
Qed.

(** Two connected nodes are joined by a walk that visits no node twice. *)
Lemma conn_simple_path (E : list (node * node)) (a b : node) :
  conn E a b -> exists vs, path E a vs b /\ NoDup (a :: vs).
Proof.
  intros H. induction H as [a|a b c Hadj H [vs [Hp Hnd]]].
  - exists []. split; [constructor|]. constructor; [intros []|constructor].
  - destruct (in_dec Nat.eq_dec a (b :: vs)) as [Hin|Hout].
    + apply in_split in Hin. destruct Hin as [l1 [l2 Heq]].
      exists l2. split.
      * destruct l1 as [|y l1]; simpl in Heq.
        -- injection Heq as -> ->. exact Hp.
        -- injection Heq as -> ->. eapply path_suffix. exact Hp.
      * rewrite Heq in Hnd. apply NoDup_app_remove_l in Hnd. exact Hnd.
    + exists (b :: vs). split; [constructor; assumption|].
      constructor; assumption.
Qed.

Lemma edges_of_ends (a : node) (vs : list node) (e : node * node) :
  In e (edges_of a vs) -> In (fst e) (a :: vs) /\ In (snd e) vs.
Proof.
  revert a. induction vs as [|b vs IH]; intros a H; simpl in H; [destruct H|].
  destruct H as [<-|H].
  - simpl. auto.
  - destruct (IH b H) as [H1 H2]. split; right; assumption.
Qed.

Lemma path_edges_adj (E : list (node * node)) (a b : node) (vs : list node) :
  path E a vs b -> forall e, In e (edges_of a vs) -> adj E (fst e) (snd e).
Proof.
  intros H. induction H as [a|a b c vs Hadj H IH]; intros e He; simpl in He.
  - destruct He.
  - destruct He as [<-|He]; [exact Hadj|apply IH; exact He].
Qed.

(** A walk that visits no node twice goes along no edge twice. *)
Lemma simple_path_edges (a : node) (vs : list node) :
  NoDup (a :: vs) -> NoDup (map norm (edges_of a vs)).
Proof.
  revert a. induction vs as [|b vs IH]; intros a Hnd; simpl.
  - constructor.
  - inversion Hnd as [|? ? Ha Hnd']; subst. constructor; [|apply IH; exact Hnd'].
    intros Hin. apply in_map_iff in Hin. destruct Hin as [[x y] [Heq Hxy]].
    apply edges_of_ends in Hxy. simpl in Hxy. destruct Hxy as [Hx Hy].
    apply norm_eq in Heq. destruct Heq as [[-> ->]|[-> ->]].
    + apply Ha. exact Hx.
    + apply Ha. right. exact Hy.
Qed.

Lemma acyclic_incl (E E' : list (node * node)) :
  incl E E' -> acyclic E' -> acyclic E.
Proof.
  intros Hincl Hac a vs [Hne [Hp Hnd]]. apply (Hac a vs).
  repeat split; auto. eapply path_mono; [|exact Hp].
  intros x y [H|H]; [left|right]; apply Hincl; exact H.
Qed.

(** A set of edges without a cycle is a forest, in whatever order its
    edges are listed. *)
Lemma acyclic_forest (E : list (node * node)) :
  NoDup (map norm E) -> acyclic E -> forest_inc E.
Proof.
  induction E as [|[u v] E IH]; intros Hnd Hac; simpl; [exact I|].
  inversion Hnd as [|? ? Hnew Hnd']; subst.
  split.
  - intros Hc. apply conn_sym in Hc.
    destruct (conn_simple_path E v u Hc) as [vs [Hp Hs]].
    apply (Hac u (v :: vs)). split; [discriminate|]. split.
    + constructor; [left; left; reflexivity|].
      eapply path_mono; [|exact Hp]. intros x y [H|H]; [left|right]; right; exact H.
    + simpl. constructor; [|apply simple_path_edges; exact Hs].
      intros Hin. apply Hnew. apply in_map_iff in Hin.
      destruct Hin as [[x y] [Heq Hxy]].
      pose proof (path_edges_adj E v u vs Hp (x, y) Hxy) as Hadj. simpl in Hadj.
      rewrite <- Heq. apply adj_norm_in. exact Hadj.
  - apply IH; [exact Hnd'|].
    eapply acyclic_incl; [|exact Hac]. intros e He. right. exact He.
Qed.

(** In a forest every edge is a bridge. *)
Lemma forest_bridge (E : list (node * node)) :
  forest_inc E ->
  forall a b, adj E a b -> ~ conn (without_edge (a, b) E) a b.
Proof.
  induction E as [|[u v] E IH]; intros Hf a b Hadj Hc.
  - destruct Hadj as [[]|[]].
  - destruct Hf as [Hn Hf]. simpl in Hn.
    assert (Hsub : forall x y, conn (without_edge (a, b) E) x y -> conn E x y).
    { intros x y. apply conn_incl. intros e He.
      apply without_edge_In in He. apply He. }
    unfold without_edge in Hc. simpl in Hc.
    destruct (pair_eqb (norm (u, v)) (norm (a, b))) eqn:Heq; simpl in Hc.
    + apply pair_eqb_spec in Heq. apply norm_eq in Heq.
      fold (without_edge (a, b) E) in Hc. apply Hsub in Hc.
      destruct Heq as [[-> ->]|[-> ->]]; [exact (Hn Hc)|].
      apply Hn. apply conn_sym. exact Hc.
    + fold (without_edge (a, b) E) in Hc.
      assert (Hab : adj E a b).
      { destruct Hadj as [[H|H]|[H|H]]; [|left; exact H| |right; exact H];
          exfalso; injection H as -> ->.
        - rewrite (proj2 (pair_eqb_spec _ _) eq_refl) in Heq. discriminate.
        - rewrite norm_swap, (proj2 (pair_eqb_spec _ _) eq_refl) in Heq. discriminate. }
      apply conn_cons_inv in Hc. destruct Hc as [Hc|[[H1 H2]|[H1 H2]]].
      * exact (IH Hf a b Hab Hc).
      * apply Hn. apply Hsub in H1. apply Hsub in H2.
        eapply conn_trans; [apply conn_sym; exact H1|].
        eapply conn_trans; [apply conn_adj; exact Hab|].
        apply conn_sym. exact H2.
      * apply Hn. apply Hsub in H1. apply Hsub in H2.
        eapply conn_trans; [exact H2|].
        eapply conn_trans; [apply conn_adj; apply adj_sym; exact Hab|].
        exact H1.
Qed.

Lemma path_avoiding (E : list (node * node)) (e : node * node) (a b : node)
    (vs : list node) :
  path E a vs b ->
  (forall f, In f (edges_of a vs) -> norm f <> norm e) ->
  conn (without_edge e E) a b.
Proof.
  intros H. induction H as [a|a b c vs Hadj H IH]; intros Hav.
  - apply conn_refl.
  - eapply conn_step.
    + assert (Hne : norm (a, b) <> norm e) by (apply Hav; left; reflexivity).
      destruct Hadj as [Hin|Hin]; [left|right]; apply without_edge_In;
        (split; [exact Hin|]); [exact Hne|].
      rewrite (norm_swap b a). exact Hne.
    + apply IH. intros f Hf. apply Hav. right. exact Hf.
Qed.

(** A forest has no cycle. *)
Lemma forest_acyclic (E : list (node * node)) : forest_inc E -> acyclic E.
Proof.
  intros Hf a vs [Hne [Hp Hnd]].
  destruct vs as [|b vs]; [congruence|].
  inversion Hp as [|? ? ? ? Hadj Hp']; subst.
  simpl in Hnd. inversion Hnd as [|? ? Hnew Hnd']; subst.
  apply (forest_bridge E Hf a b Hadj).
  apply conn_sym. eapply path_avoiding; [exact Hp'|].
  intros f Hfin Heq. apply Hnew. rewrite <- Heq. apply in_map. exact Hfin.
Qed.

Lemma acyclic_perm (E E' : list (node * node)) :
  (forall e, In e E <-> In e E') -> acyclic E -> acyclic E'.
Proof.
  intros H. apply acyclic_incl. intros e He. apply H. exact He.
Qed.

(** ** Sums, order and the flattened matrix *)

Lemma fold_left_Qplus (l : vector) (a : Q) :
  (fold_left Qplus l a == a + np_sum l)%Q.
Proof.
  unfold np_sum. revert a. induction l as [|x l IH]; intros a; simpl.
  - ring.
  - rewrite (IH (a + x)%Q), (IH (0 + x)%Q). ring.
Qed.

Lemma np_sum_cons (x : Q) (l : vector) : (np_sum (x :: l) == x + np_sum l)%Q.
Proof.
  unfold np_sum at 1. simpl. rewrite fold_left_Qplus. ring.
Qed.

Lemma np_sum_app (l1 l2 : vector) : (np_sum (l1 ++ l2) == np_sum l1 + np_sum l2)%Q.
Proof.
  induction l1 as [|x l1 IH]; simpl.
  - unfold np_sum at 2. simpl. ring.
  - rewrite !np_sum_cons, IH. ring.
Qed.

Lemma np_sum_perm (l1 l2 : vector) :
  Permutation l1 l2 -> (np_sum l1 == np_sum l2)%Q.
Proof.
  intros H. induction H as [|x l l' H IH|x y l|l l' l'' H1 IH1 H2 IH2].
  - reflexivity.
  - rewrite !np_sum_cons, IH. reflexivity.
  - rewrite !np_sum_cons. ring.
  - rewrite IH1. exact IH2.
Qed.

Lemma Qnat_S (n : nat) : (Qnat (S n) == Qnat n + 1)%Q.
Proof.
  unfold Qnat. rewrite Nat2Z.inj_succ. unfold Z.succ.
  rewrite inject_Z_plus. reflexivity.
Qed.

Lemma Qnat_le (n m : nat) : n <= m -> (Qnat n <= Qnat m)%Q.
Proof.
  intros H. unfold Qnat. rewrite <- Zle_Qle. lia.
Qed.

Lemma Qle_bool_false (x y : Q) : Qle_bool x y = false -> (y <= x)%Q.
Proof.
  intros H. apply Qlt_le_weak. apply Qnot_le_lt. intros Hle.
  apply Qle_bool_iff in Hle. congruence.
Qed.

Lemma insert_by_sorted (key : nat -> Q) (x : nat) (l : list nat) :
  StronglySorted (fun i j => (key i <= key j)%Q) l ->
  StronglySorted (fun i j => (key i <= key j)%Q) (insert_by key x l).
Proof.
  intros H. induction H as [|y l Hs IH Hy]; simpl.
  - constructor; constructor.
  - destruct (Qle_bool (key x) (key y)) eqn:E.
    + apply Qle_bool_iff in E. constructor; [constructor; assumption|].
      constructor; [exact E|].
      eapply Forall_impl; [|exact Hy]. intros z Hz. simpl in Hz.
      eapply Qle_trans; eassumption.
    + apply Qle_bool_false in E. constructor; [exact IH|].
      eapply Permutation_Forall; [symmetry; apply insert_by_perm|].
      constructor; assumption.
Qed.

Lemma argsort_sorted (a : vector) :
  StronglySorted (fun i j => (nth i a 0 <= nth j a 0)%Q) (argsort a).
Proof.
  unfold argsort. induction (seq 0 (length a)) as [|x l IH]; simpl.
  - constructor.
  - apply (insert_by_sorted (fun i => nth i a 0%Q)). exact IH.
Qed.

Lemma sorted_snoc (R : nat -> nat -> Prop) (l : list nat) (x : nat) :
  StronglySorted R l -> Forall (fun y => R y x) l -> StronglySorted R (l ++ [x]).
Proof.
  intros H. induction H as [|y l Hs IH Hy]; intros Hx; simpl.
  - constructor; constructor.
  - inversion Hx; subst. constructor; [apply IH; assumption|].
    apply Forall_app. split; [assumption|]. constructor; [assumption|constructor].
Qed.

Lemma order_descending (a : vector) :
  descending (fun i => nth i a 0%Q) (reversed (argsort a)).
Proof.
  unfold descending, reversed. pose proof (argsort_sorted a) as H.
  induction H as [|x l Hs IH Hx]; simpl.
  - constructor.
  - apply sorted_snoc; [exact IH|].
    apply Forall_rev. exact Hx.
Qed.

Lemma concat_nth (p : nat) (M : matrix) (v : nat) :
  Forall (fun row => length row = p) M -> v < length M * p ->
  nth v (concat M) 0%Q = nth (v mod p) (nth (v / p) M []) 0%Q.
Proof.
  intros H. revert v. induction H as [|row M Hrow H IH]; intros v Hv; simpl in *.
  - lia.
  - assert (Hp : p <> 0) by (intros ->; lia).
    destruct (lt_dec v p) as [Hlt|Hge].
    + rewrite app_nth1 by lia.
      rewrite Nat.div_small, Nat.mod_small by lia. reflexivity.
    + rewrite app_nth2 by lia. rewrite Hrow.
      rewrite IH by lia.
      replace v with ((v - p) + 1 * p) at 3 4 by lia.
      rewrite Nat.Div0.mod_add, Nat.div_add by assumption.
      replace ((v - p) / p + 1) with (S ((v - p) / p)) by lia.
      reflexivity.
Qed.

Lemma flatten_nth (corr : matrix) (v : nat) :
  is_square corr -> v < shape0 corr * shape0 corr ->
  nth v (flatten corr) 0%Q = candidate_weight corr (shape0 corr) v.
Proof.
  intros Hsq Hv. unfold flatten, candidate_weight, get.
  apply concat_nth; assumption.
Qed.

Lemma unravel_flat (p a b : nat) :
  b < p -> (a * p + b) / p = a /\ (a * p + b) mod p = b.
Proof.
  intros Hb. split.
  - rewrite Nat.div_add_l by lia. rewrite Nat.div_small by lia. lia.
  - rewrite Nat.add_comm, Nat.Div0.mod_add. apply Nat.mod_small. exact Hb.
Qed.

Lemma unravel_inj (p v v' : nat) :
  unravel_index v p = unravel_index v' p -> v = v'.
Proof.
  unfold unravel_index. intros [= H1 H2].
  destruct (Nat.eq_dec p 0) as [->|Hp].
  - simpl in H2. exact H2.
  - rewrite (Nat.div_mod_eq v p), (Nat.div_mod_eq v' p). congruence.
Qed.

(** ** The maximum spanning tree *)

Lemma has_edge_adj (G : Graph) (u v : node) :
  has_edge G u v = true -> adj (pairs G) u v.
Proof.
  unfold has_edge, pairs. rewrite existsb_exists. intros [e [He Hs]].
  unfold same_edge in Hs. apply orb_true_iff in Hs.
  destruct e as [[a b] w]. simpl in Hs.
  destruct Hs as [Hs|Hs]; apply andb_true_iff in Hs; destruct Hs as [H1 H2];
    apply Nat.eqb_eq in H1, H2; subst; [left|right];
    apply (in_map fst) in He; exact He.
Qed.

Lemma edges_add_node (G : Graph) (n : node) : edges (add_node G n) = edges G.
Proof. unfold add_node. destruct (mem n (nodes G)); reflexivity. Qed.

Lemma nodes_add_node (G : Graph) (n a : node) :
  In a (nodes (add_node G n)) <-> a = n \/ In a (nodes G).
Proof.
  unfold add_node. destruct (mem n (nodes G)) eqn:E; simpl.
  - apply mem_In in E. split; [auto|]. intros [->|H]; assumption.
  - rewrite in_app_iff. simpl. split; intros H; intuition.
Qed.

Lemma nodup_add_node (G : Graph) (n : node) :
  NoDup (nodes G) -> NoDup (nodes (add_node G n)).
Proof.
  intros H. unfold add_node. destruct (mem n (nodes G)) eqn:E; simpl; [exact H|].
  apply mem_not_In in E.
  apply NoDup_app; [exact H|constructor; [intros []|constructor]|].
  intros x Hx [<-|[]]. contradiction.
Qed.

(** [add_edge] for an edge that is not in the graph. *)
Lemma add_edge_new (G : Graph) (u v : node) (w : Q) :
  has_edge G u v = false ->
  edges (add_edge G u v w) = edges G ++ [(u, v, w)] /\
  nodes (add_edge G u v w) = nodes (add_node (add_node G u) v).
Proof.
  intros H. unfold add_edge.
  assert (H' : has_edge (add_node (add_node G u) v) u v = false).
  { unfold has_edge. rewrite !edges_add_node. exact H. }
  rewrite H'. simpl. rewrite !edges_add_node. split; reflexivity.
Qed.

Lemma forest_simple (E : list (node * node)) :
  forest_inc E -> NoDup (map norm E).
Proof.
  induction E as [|[u v] E IH]; intros Hf; simpl; [constructor|].
  destruct Hf as [Hn Hf]. simpl in Hn. constructor; [|apply IH; exact Hf].
  intros Hin. apply Hn. apply in_map_iff in Hin.
  destruct Hin as [[x y] [Heq Hxy]]. apply norm_eq in Heq.
  apply conn_adj. destruct Heq as [[-> ->]|[-> ->]]; [left|right]; exact Hxy.
Qed.

Lemma conn_rev (E : list (node * node)) (a b : node) :
  conn (rev E) a b <-> conn E a b.
Proof.
  split; apply conn_incl; intros e He; [apply in_rev|apply -> in_rev]; exact He.
Qed.

Lemma in_range_rev (p : nat) (E : list (node * node)) :
  in_range p E -> in_range p (rev E).
Proof. intros H a b Hab. apply H. apply in_rev. exact Hab. Qed.

Lemma conn_snoc (E : list (node * node)) (e : node * node) (a b : node) :
  conn (E ++ [e]) a b <-> conn (e :: E) a b.
Proof.
  split; apply conn_incl; intros f Hf.
  - apply in_app_iff in Hf. destruct Hf as [Hf|[<-|[]]]; [right|left]; auto.
  - apply in_app_iff. destruct Hf as [<-|Hf]; [right; left|left]; auto.
Qed.

Lemma mst_loop_cons (corr : matrix) (p v : nat) (rest : list nat)
    (components : list (list node)) (mst_G : Graph) :
  mst_loop corr p (v :: rest) components mst_G
  = if v / p =? v mod p then mst_loop corr p rest components mst_G
    else if _in_same_component components (v / p) (v mod p)
    then mst_loop corr p rest components mst_G
    else
      components' <- _merge_components components (v / p) (v mod p) ;;
      if Z.eqb (Z.of_nat (number_of_edges
                  (add_edge mst_G (v / p) (v mod p) (get corr (v / p) (v mod p)))))
               (Z.of_nat p - 1)
      then Ok (add_edge mst_G (v / p) (v mod p) (get corr (v / p) (v mod p)))
      else mst_loop corr p rest components'
             (add_edge mst_G (v / p) (v mod p) (get corr (v / p) (v mod p))).
Proof. reflexivity. Qed.

Lemma mst_inv_initial (corr : matrix) (p : nat) :
  mst_inv corr p [] (singletons p) nx_Graph.
Proof.
  constructor; simpl.
  - apply singletons_inv.
  - exact I.
  - apply in_range_nil.
  - intros v [].
  - intros e [].
  - constructor.
  - intros a. split; [intros []|intros [b [[]|[]]]].
Qed.

(** A candidate that is skipped leaves the state as it is. *)
Lemma mst_inv_skip (corr : matrix) (p : nat) (done : list nat) (v : nat)
    (components : list (list node)) (G : Graph) :
  mst_inv corr p done components G ->
  conn (pairs G) (v / p) (v mod p) ->
  mst_inv corr p (done ++ [v]) components G.
Proof.
  intros [H1 H2 H3 H4 H5 H6 H7] Hc. constructor; auto.
  intros v' Hv'. apply in_app_iff in Hv'. destruct Hv' as [Hv'|[<-|[]]]; auto.
Qed.

(** A candidate that is accepted: the state after the round. *)
Lemma mst_inv_accept (corr : matrix) (p : nat) (done : list nat) (v : nat)
    (components : list (list node)) (G : Graph) :
  mst_inv corr p done components G ->
  v / p < p -> v mod p < p ->
  _in_same_component components (v / p) (v mod p) = false ->
  let G1 := add_edge G (v / p) (v mod p) (get corr (v / p) (v mod p)) in
  exists components1,
    _merge_components components (v / p) (v mod p) = Ok components1 /\
    mst_inv corr p (done ++ [v]) components1 G1 /\
    edges G1 = edges G ++ [(v / p, v mod p, get corr (v / p) (v mod p))].
Proof.
  intros [H1 H2 H3 H4 H5 H6 H7] Hi Hj Hs G1.
  set (i := v / p) in *. set (j := v mod p) in *.
  assert (Hn : ~ conn (pairs G) i j).
  { intros Hc. apply (part_inv_same p components (pairs G) i j H1 Hi) in Hc.
    congruence. }
  assert (He : has_edge G i j = false).
  { destruct (has_edge G i j) eqn:E; [|reflexivity].
    exfalso. apply Hn. apply conn_adj. apply has_edge_adj. exact E. }
  destruct (add_edge_new G i j (get corr i j) He) as [Hedges Hnodes].
  fold G1 in Hedges, Hnodes.
  assert (Hpairs : pairs G1 = pairs G ++ [(i, j)]).
  { unfold pairs. rewrite Hedges, map_app. reflexivity. }
  destruct (merge_components_spec components i j)
    as [c1 [c2 [others [comps1 [Hm [Hc1 [Hc2 [P P']]]]]]]].
  { apply (part_inv_cover p _ (pairs G)); assumption. }
  { apply (part_inv_cover p _ (pairs G)); assumption. }
  { exact Hs. }
  exists comps1. split; [exact Hm|]. split; [|exact Hedges].
  constructor.
  - apply (part_inv_ext p comps1 ((i, j) :: pairs G)).
    + intros a b. rewrite Hpairs. symmetry. apply conn_snoc.
    + eapply part_inv_merge; eassumption.
  - rewrite Hpairs, rev_app_distr. simpl. split; [|exact H2].
    intros Hc. apply Hn. apply conn_rev. exact Hc.
  - rewrite Hpairs. intros a b Hab. apply in_app_iff in Hab.
    destruct Hab as [Hab|[[= <- <-]|[]]]; auto.
  - intros v' Hv'. rewrite Hpairs. apply conn_snoc.
    apply in_app_iff in Hv'. destruct Hv' as [Hv'|[<-|[]]].
    + apply conn_cons_old. apply H4. exact Hv'.
    + apply conn_cons_new.
  - rewrite Hedges. intros e He'. apply in_app_iff in He'.
    destruct He' as [He'|[<-|[]]]; [apply H5; exact He'|reflexivity].
  - rewrite Hnodes. apply nodup_add_node. apply nodup_add_node. exact H6.
  - intros a. rewrite Hnodes, !nodes_add_node, H7, Hpairs. split.
    + intros [->|[->|[b Hb]]].
      * exists i. right. apply in_app_iff. right. left. reflexivity.
      * exists j. left. apply in_app_iff. right. left. reflexivity.
      * exists b. destruct Hb as [Hb|Hb]; [left|right]; apply in_app_iff; left; exact Hb.
    + intros [b [Hb|Hb]]; apply in_app_iff in Hb;
        destruct Hb as [Hb|[[= <- <-]|[]]]; auto.
      * right. right. exists b. left. exact Hb.
      * right. right. exists b. right. exact Hb.
Qed.

Lemma mst_inv_edges (corr : matrix) (p : nat) (done : list nat)
    (components : list (list node)) (G : Graph) :
  mst_inv corr p done components G ->
  classes p (rev (pairs G)) + number_of_edges G = p.
Proof.
  intros H. pose proof (forest_classes p (rev (pairs G))
                          (in_range_rev p _ (mi_range _ _ _ _ _ H))
                          (mi_forest _ _ _ _ _ H)) as Hc.
  rewrite length_rev in Hc. unfold pairs in Hc at 2. rewrite length_map in Hc.
  exact Hc.
Qed.

(** With [p - 1] edges the forest connects all nodes. *)
Lemma mst_inv_full (corr : matrix) (p : nat) (done : list nat)
    (components : list (list node)) (G : Graph) :
  mst_inv corr p done components G -> 0 < p ->
  number_of_edges G = p - 1 ->
  forall a b, a < p -> b < p -> conn (pairs G) a b.
Proof.
  intros H Hp Hn a b Ha Hb. apply conn_rev.
  apply (one_class_connected p); try assumption.
  - apply in_range_rev. apply (mi_range _ _ _ _ _ H).
  - pose proof (mst_inv_edges _ _ _ _ _ H). lia.
Qed.

Lemma mst_inv_connected_edges (corr : matrix) (p : nat) (done : list nat)
    (components : list (list node)) (G : Graph) :
  mst_inv corr p done components G -> 0 < p ->
  (forall a b, a < p -> b < p -> conn (pairs G) a b) ->
  number_of_edges G = p - 1.
Proof.
  intros H Hp Hall.
  assert (Hc : classes p (rev (pairs G)) = 1).
  { apply connected_one_class; [|exact Hp|].
    - apply in_range_rev. apply (mi_range _ _ _ _ _ H).
    - intros a b Ha Hb. apply conn_rev. apply Hall; assumption. }
  pose proof (mst_inv_edges _ _ _ _ _ H). lia.
Qed.

Lemma mst_inv_extend (corr : matrix) (p : nat) (done R : list nat)
    (components : list (list node)) (G : Graph) :
  mst_inv corr p done components G ->
  (forall a b, a < p -> b < p -> conn (pairs G) a b) ->
  (forall v, In v R -> v < p * p) ->
  mst_inv corr p (done ++ R) components G.
Proof.
  intros [H1 H2 H3 H4 H5 H6 H7] Hall HR. constructor; auto.
  intros v Hv. apply in_app_iff in Hv. destruct Hv as [Hv|Hv]; auto.
  destruct (unravel_range v p (HR v Hv)). apply Hall; assumption.
Qed.

(** Once all nodes are connected the loop accepts nothing more. *)
Lemma mst_loop_saturated (corr : matrix) (p : nat) (done R : list nat)
    (components : list (list node)) (G : Graph) :
  mst_inv corr p done components G ->
  (forall a b, a < p -> b < p -> conn (pairs G) a b) ->
  (forall v, In v R -> v < p * p) ->
  mst_loop corr p R components G = Ok G.
Proof.
  intros H Hall. induction R as [|v R IH]; intros HR; [reflexivity|].
  rewrite mst_loop_cons.
  assert (IH' : mst_loop corr p R components G = Ok G)
    by (apply IH; intros v' Hv'; apply HR; right; exact Hv').
  destruct (v / p =? v mod p); [exact IH'|].
  destruct (unravel_range v p (HR v (or_introl eq_refl))) as [Hi Hj].
  assert (Hs : _in_same_component components (v / p) (v mod p) = true).
  { apply (part_inv_same p components (pairs G)); [apply (mi_part _ _ _ _ _ H)|exact Hi|].
    apply Hall; assumption. }
  rewrite Hs. exact IH'.
Qed.

(** *** The edges of a spanning tree among the candidates *)

Lemma in_tree_spec (p : nat) (T : list (node * node)) (v : nat) :
  in_tree p T v = true <-> In (unravel_index v p) T.
Proof.
  unfold in_tree. rewrite existsb_exists. split.
  - intros [e [He Heq]]. apply pair_eqb_spec in Heq. rewrite Heq. exact He.
  - intros H. exists (unravel_index v p). split; [exact H|].
    apply pair_eqb_spec. reflexivity.
Qed.

Lemma NoDup_map_on {A B : Type} (f : A -> B) (l : list A) :
  (forall x y, In x l -> In y l -> f x = f y -> x = y) ->
  NoDup l -> NoDup (map f l).
Proof.
  intros Hinj H. induction H as [|x l Hx H IH]; simpl; constructor.
  - intros Hin. apply in_map_iff in Hin. destruct Hin as [y [Heq Hy]].
    assert (y = x) by (apply Hinj; [right; exact Hy|left; reflexivity|exact Heq]).
    subst. contradiction.
  - apply IH. intros a b Ha Hb. apply Hinj; right; assumption.
Qed.

Lemma NoDup_map_eq {A B : Type} (f : A -> B) (l : list A) (x y : A) :
  NoDup (map f l) -> In x l -> In y l -> f x = f y -> x = y.
Proof.
  induction l as [|a l IH]; intros Hnd Hx Hy Heq; [destruct Hx|].
  simpl in Hnd. inversion Hnd as [|? ? Ha Hnd']; subst.
  destruct Hx as [->|Hx], Hy as [->|Hy]; auto.
  - exfalso. apply Ha. rewrite Heq. apply in_map. exact Hy.
  - exfalso. apply Ha. rewrite <- Heq. apply in_map. exact Hx.
Qed.

(** The edges of [T] among the candidates [l], as edges. *)
Lemma tree_edges_in (p : nat) (T : list (node * node)) (l : list nat) :
  NoDup (map norm T) -> NoDup l ->
  let F := map (fun v => unravel_index v p) (filter (in_tree p T) l) in
  incl F T /\ NoDup (map norm F) /\ length F = length (filter (in_tree p T) l).
Proof.
  intros HT Hl F. assert (Hincl : incl F T).
  { intros e He. apply in_map_iff in He. destruct He as [v [<- Hv]].
    apply filter_In in Hv. apply in_tree_spec. apply Hv. }
  split; [exact Hincl|]. split; [|apply length_map].
  apply NoDup_map_on.
  - intros x y Hx Hy. apply (NoDup_map_eq norm T); auto.
  - apply NoDup_map_on; [|apply NoDup_filter; exact Hl].
    intros x y _ _. apply unravel_inj.
Qed.

(** A spanning tree has [p - 1] edges. *)
Lemma spanning_tree_size (p : nat) (T : list (node * node)) :
  0 < p -> spanning_tree p T -> length T = p - 1.
Proof.
  intros Hp [Hnd [Hr [Hc Hac]]].
  pose proof (forest_classes p T Hr (acyclic_forest T Hnd Hac)) as H1.
  pose proof (connected_one_class p T Hr Hp Hc) as H2. lia.
Qed.

(** All the candidates together hold every edge of the tree once. *)
Lemma tree_edges_all (corr : matrix) (p : nat) (T : list (node * node)) (l : list nat) :
  spanning_tree p T -> Permutation l (seq 0 (p * p)) ->
  length (filter (in_tree p T) l) = length T /\
  (tree_weight_in corr p T l == weight corr T)%Q.
Proof.
  intros [Hnd [Hr [Hc Hac]]] Hl.
  assert (Hndl : NoDup l).
  { eapply Permutation_NoDup; [symmetry; exact Hl|apply seq_NoDup]. }
  destruct (tree_edges_in p T l Hnd Hndl) as [Hincl [HndF HlenF]].
  set (F := map (fun v => unravel_index v p) (filter (in_tree p T) l)) in *.
  assert (HP : Permutation F T).
  { apply NoDup_Permutation.
    - eapply NoDup_map_inv. exact HndF.
    - eapply NoDup_map_inv. exact Hnd.
    - intros [a b]. split; [apply Hincl|]. intros He.
      destruct (Hr a b He) as [Ha Hb].
      destruct (unravel_flat p a b Hb) as [E1 E2].
      apply in_map_iff. exists (a * p + b). split.
      + unfold unravel_index. rewrite E1, E2. reflexivity.
      + apply filter_In. split.
        * eapply Permutation_in; [symmetry; exact Hl|]. apply in_seq. nia.
        * apply in_tree_spec. unfold unravel_index. rewrite E1, E2. exact He. }
  split.
  - rewrite <- HlenF. apply Permutation_length. exact HP.
  - unfold tree_weight_in, weight. rewrite <- (np_sum_perm _ _
      (Permutation_map (fun e => get corr (fst e) (snd e)) HP)).
    unfold F. rewrite map_map. reflexivity.
Qed.

(** The tree has no more edges among the candidates that are done than
    the loop has accepted. *)
Lemma tree_edges_behind (corr : matrix) (p : nat) (T : list (node * node))
    (done : list nat) (components : list (list node)) (G : Graph) :
  spanning_tree p T -> NoDup done ->
  mst_inv corr p done components G ->
  length (filter (in_tree p T) done) <= number_of_edges G.
Proof.
  intros [Hnd [Hr [Hc Hac]]] Hdone H.
  destruct (tree_edges_in p T done Hnd Hdone) as [Hincl [HndF HlenF]].
  set (F := map (fun v => unravel_index v p) (filter (in_tree p T) done)) in *.
  rewrite <- HlenF.
  replace (number_of_edges G) with (length (rev (pairs G)))
    by (rewrite length_rev; unfold pairs; apply length_map).
  apply (forest_inside p).
  - intros a b Hab. apply Hr. apply Hincl. exact Hab.
  - apply in_range_rev. apply (mi_range _ _ _ _ _ H).
  - apply acyclic_forest; [exact HndF|].
    eapply acyclic_incl; [exact Hincl|exact Hac].
  - apply (mi_forest _ _ _ _ _ H).
  - intros a b Hab. apply conn_rev. unfold F in Hab.
    apply in_map_iff in Hab. destruct Hab as [v [Heq Hv]].
    apply filter_In in Hv. unfold unravel_index in Heq. injection Heq as <- <-.
    apply (mi_done _ _ _ _ _ H). apply Hv.
Qed.

(** The step of the exchange argument, in numbers: [x] is the weight of
    the candidate, [w] a bound on it, [dK] and [c] count the edges that
    the loop and the tree have behind them. *)
Lemma greedy_step (W D dK c x w a k : Q) :
  (c <= dK)%Q -> (x <= w)%Q ->
  (W <= D + ((dK + k) - (c + a)) * x)%Q ->
  (a * x + W <= (D + k * x) + (dK - c) * w)%Q.
Proof.
  intros Hc Hx HW.
  assert (H0 : (0 <= (dK - c) * (w - x))%Q) by (apply Qmult_le_0_compat; lra).
  lra.
Qed.

Lemma tree_count_snoc (p : nat) (T : list (node * node)) (done : list nat) (v : nat) :
  (Qnat (length (filter (in_tree p T) (done ++ [v])))
   == Qnat (length (filter (in_tree p T) done))
      + (if in_tree p T v then 1 else 0))%Q.
Proof.
  rewrite filter_app, length_app. cbn [filter].
  destruct (in_tree p T v); cbn [length].
  - rewrite Nat.add_1_r. apply Qnat_S.
  - rewrite Nat.add_0_r. ring.
Qed.

Lemma tree_weight_cons (corr : matrix) (p : nat) (T : list (node * node))
    (v : nat) (rest : list nat) :
  (tree_weight_in corr p T (v :: rest)
   == (if in_tree p T v then 1 else 0) * candidate_weight corr p v
      + tree_weight_in corr p T rest)%Q.
Proof.
  unfold tree_weight_in. cbn [filter]. destruct (in_tree p T v); cbn [map].
  - rewrite np_sum_cons. ring.
  - ring.
Qed.

Lemma total_weight_snoc (G G1 : Graph) (e : node * node * Q) :
  edges G1 = edges G ++ [e] ->
  (total_weight G1 == total_weight G + 1 * snd e)%Q /\
  (Qnat (number_of_edges G1) == Qnat (number_of_edges G) + 1)%Q.
Proof.
  intros H. unfold total_weight, number_of_edges. rewrite H. split.
  - rewrite map_app, np_sum_app. cbn [map]. rewrite np_sum_cons.
    change (np_sum []) with 0%Q. ring.
  - rewrite length_app. cbn [length]. rewrite Nat.add_1_r. apply Qnat_S.
Qed.

(** The loop of [mst], from any state it can be in: it returns, the
    invariant holds of the result, and the weight it adds makes up for
    every edge of a spanning tree among the candidates that are left. *)
Lemma mst_loop_correct (corr : matrix) (p : nat) :
  0 < p ->
  forall (R done : list nat) (components : list (list node)) (G : Graph) (w : Q),
    mst_inv corr p done components G ->
    Permutation (done ++ R) (seq 0 (p * p)) ->
    descending (candidate_weight corr p) R ->
    (forall v, In v R -> (candidate_weight corr p v <= w)%Q) ->
    exists G' components',
      mst_loop corr p R components G = Ok G' /\
      mst_inv corr p (done ++ R) components' G' /\
      forall T, spanning_tree p T ->
        (tree_weight_in corr p T R
         <= total_weight G' - total_weight G
            + (Qnat (number_of_edges G)
               - Qnat (length (filter (in_tree p T) done))) * w)%Q.
Proof.
  intros Hp. induction R as [|v rest IH]; intros done components G w Hinv HP Hdesc Hw.
  - exists G, components. rewrite app_nil_r in *. split; [reflexivity|].
    split; [exact Hinv|]. intros T HT.
    assert (Hall : forall a b, a < p -> b < p -> conn (pairs G) a b).
    { intros a b Ha Hb. destruct (unravel_flat p a b Hb) as [E1 E2].
      rewrite <- E1 at 1. rewrite <- E2 at 2.
      apply (mi_done _ _ _ _ _ Hinv).
      eapply Permutation_in; [symmetry; exact HP|]. apply in_seq. nia. }
    rewrite (mst_inv_connected_edges _ _ _ _ _ Hinv Hp Hall).
    rewrite (proj1 (tree_edges_all corr p T done HT HP)).
    rewrite (spanning_tree_size p T Hp HT).
    unfold tree_weight_in. simpl. unfold np_sum. simpl. lra.
  - assert (Hnd : NoDup (done ++ v :: rest)).
    { eapply Permutation_NoDup; [symmetry; exact HP|apply seq_NoDup]. }
    assert (Hnd' : NoDup done) by (apply NoDup_app_remove_r in Hnd; exact Hnd).
    assert (Hv : v < p * p).
    { assert (Hin : In v (seq 0 (p * p))).
      { eapply Permutation_in; [exact HP|]. apply in_app_iff. right. left. reflexivity. }
      apply in_seq in Hin. lia. }
    destruct (unravel_range v p Hv) as [Hi Hj].
    assert (HP' : Permutation ((done ++ [v]) ++ rest) (seq 0 (p * p)))
      by (rewrite <- app_assoc; exact HP).
    inversion Hdesc as [|? ? Hdesc' Hrest]; subst.
    assert (Hw' : forall v', In v' rest ->
              (candidate_weight corr p v' <= candidate_weight corr p v)%Q).
    { rewrite Forall_forall in Hrest. exact Hrest. }
    assert (Hx : (candidate_weight corr p v <= w)%Q) by (apply Hw; left; reflexivity).
    assert (Hskip : conn (pairs G) (v / p) (v mod p) ->
              exists G' components',
                mst_loop corr p rest components G = Ok G' /\
                mst_inv corr p (done ++ v :: rest) components' G' /\
                forall T, spanning_tree p T ->
                  (tree_weight_in corr p T (v :: rest)
                   <= total_weight G' - total_weight G
                      + (Qnat (number_of_edges G)
                         - Qnat (length (filter (in_tree p T) done))) * w)%Q).
    { intros Hc.
      destruct (IH (done ++ [v]) components G (candidate_weight corr p v)
                  (mst_inv_skip _ _ _ _ _ _ Hinv Hc) HP' Hdesc' Hw')
        as [G' [comps' [Hloop [Hinv' Hopt]]]].
      exists G', comps'. split; [exact Hloop|].
      split; [rewrite <- app_assoc in Hinv'; exact Hinv'|].
      intros T HT. specialize (Hopt T HT).
      pose proof (Qnat_le _ _ (tree_edges_behind corr p T done components G HT Hnd' Hinv))
        as Hd.
      rewrite tree_count_snoc in Hopt. rewrite tree_weight_cons.
      pose proof (greedy_step (tree_weight_in corr p T rest)
                    (total_weight G' - total_weight G) _ _ _ w
                    (if in_tree p T v then 1 else 0) 0 Hd Hx) as Hstep.
      lra. }
    rewrite mst_loop_cons.
    destruct (Nat.eqb_spec (v / p) (v mod p)) as [Heq|Hne].
    { apply Hskip. rewrite Heq. apply conn_refl. }
    destruct (_in_same_component components (v / p) (v mod p)) eqn:Hs.
    { apply Hskip.
      apply (part_inv_same p components (pairs G) _ _ (mi_part _ _ _ _ _ Hinv) Hi).
      exact Hs. }
    destruct (mst_inv_accept corr p done v components G Hinv Hi Hj Hs)
      as [comps1 [Hm [Hinv1 Hedges]]].
    set (G1 := add_edge G (v / p) (v mod p) (get corr (v / p) (v mod p))) in *.
    destruct (IH (done ++ [v]) comps1 G1 (candidate_weight corr p v)
                Hinv1 HP' Hdesc' Hw')
      as [G' [comps' [Hloop [Hinv' Hopt]]]].
    exists G', comps'. rewrite Hm. simpl. split; [|split].
    + destruct (Z.eqb_spec (Z.of_nat (number_of_edges G1)) (Z.of_nat p - 1))
        as [Hfull|Hnot]; [|exact Hloop].
      assert (Hsat : mst_loop corr p rest comps1 G1 = Ok G1).
      { apply (mst_loop_saturated corr p (done ++ [v])); [exact Hinv1| |].
        - apply (mst_inv_full corr p (done ++ [v]) comps1); [exact Hinv1|exact Hp|lia].
        - intros v' Hv'.
          assert (Hin : In v' (seq 0 (p * p))).
          { eapply Permutation_in; [exact HP|]. apply in_app_iff. right. right. exact Hv'. }
          apply in_seq in Hin. lia. }
      congruence.
    + rewrite <- app_assoc in Hinv'. exact Hinv'.
    + intros T HT. specialize (Hopt T HT).
      pose proof (Qnat_le _ _ (tree_edges_behind corr p T done components G HT Hnd' Hinv))
        as Hd.
      destruct (total_weight_snoc G G1 _ Hedges) as [Htw Hcount].
      simpl in Htw. fold (candidate_weight corr p v) in Htw.
      rewrite tree_count_snoc in Hopt. rewrite tree_weight_cons.
      pose proof (greedy_step (tree_weight_in corr p T rest)
                    (total_weight G' - total_weight G1) _ _ _ w
                    (if in_tree p T v then 1 else 0) 1 Hd Hx) as Hstep.
      rewrite Hcount in Hopt. specialize (Hstep Hopt). lra.
Qed.

Lemma sorted_on (R R' : nat -> nat -> Prop) (l : list nat) :
  (forall x y, In x l -> In y l -> R x y -> R' x y) ->
  StronglySorted R l -> StronglySorted R' l.
Proof.
  intros H Hs. induction Hs as [|x l Hs IH Hx]; constructor.
  - apply IH. intros a b Ha Hb. apply H; right; assumption.
  - rewrite Forall_forall in *. intros y Hy.
    apply H; [left; reflexivity|right; exact Hy|apply Hx; exact Hy].
Qed.

(** The candidates of [mst]: every position of the matrix once, in
    descending order of the entries. *)
Lemma mst_candidates (corr : matrix) :
  is_square corr ->
  let p := shape0 corr in
  let vals := reversed (argsort (flatten corr)) in
  Permutation vals (seq 0 (p * p)) /\ descending (candidate_weight corr p) vals.
Proof.
  intros Hsq p vals.
  assert (HP : Permutation vals (seq 0 (p * p))).
  { unfold vals, p. rewrite <- flatten_length by exact Hsq. apply order_perm. }
  split; [exact HP|].
  unfold descending. eapply sorted_on; [|apply order_descending].
  intros x y Hx Hy Hxy. simpl in Hxy.
  assert (Hlt : forall z, In z vals -> z < p * p).
  { intros z Hz. apply (Permutation_in _ HP) in Hz. apply in_seq in Hz. lia. }
  rewrite !flatten_nth in Hxy by (try exact Hsq; apply Hlt; assumption).
  exact Hxy.
Qed.

(** C2.  For a square matrix with p >= 2 rows, [mst] returns a graph on
    the nodes [0 .. p-1] that is connected, has no cycle and has p - 1
    edges; the weights of its edges are the entries of the matrix, and
    their sum is at least the weight of every spanning tree of the
    complete graph on these nodes.  (The matrix need not be symmetric:
    an edge [(a, b)] of a tree weighs [corr[a, b]].) *)
Theorem mst_maximum_spanning_tree (corr : matrix) :
  is_square corr -> 2 <= shape0 corr ->
  exists G,
    mst corr = Ok G /\
    node_set_is_range G (shape0 corr) /\
    connected (nodes G) (pairs G) /\
    acyclic (pairs G) /\
    number_of_edges G = shape0 corr - 1 /\
    spanning_tree (shape0 corr) (pairs G) /\
    (total_weight G == weight corr (pairs G))%Q /\
    forall T, spanning_tree (shape0 corr) T ->
      (weight corr T <= total_weight G)%Q.
Proof.
  intros Hsq Hp2. set (p := shape0 corr) in *.
  assert (Hp : 0 < p) by lia.
  destruct (mst_candidates corr Hsq) as [HP Hdesc]. fold p in HP, Hdesc.
  set (vals := reversed (argsort (flatten corr))) in *.
  assert (Hbound : exists w, forall v, In v vals ->
            (candidate_weight corr p v <= w)%Q).
  { destruct vals as [|v0 rest]; [exists 0%Q; intros v []|].
    exists (candidate_weight corr p v0). intros v [<-|Hv]; [apply Qle_refl|].
    inversion Hdesc as [|? ? _ Hrest]; subst.
    rewrite Forall_forall in Hrest. apply Hrest. exact Hv. }
  destruct Hbound as [w Hw].
  destruct (mst_loop_correct corr p Hp vals [] (singletons p) nx_Graph w
              (mst_inv_initial corr p) HP Hdesc Hw)
    as [G [comps [Hloop [Hinv Hopt]]]].
  simpl in Hinv.
  assert (Hall : forall a b, a < p -> b < p -> conn (pairs G) a b).
  { intros a b Ha Hb. destruct (unravel_flat p a b Hb) as [E1 E2].
    rewrite <- E1 at 1. rewrite <- E2 at 2.
    apply (mi_done _ _ _ _ _ Hinv).
    eapply Permutation_in; [symmetry; exact HP|]. apply in_seq. nia. }
  assert (Hnodes : forall a, In a (nodes G) <-> a < p).
  { intros a. rewrite (mi_nodes _ _ _ _ _ Hinv). split.
    - intros [b [Hab|Hab]]; apply (mi_range _ _ _ _ _ Hinv) in Hab; tauto.
    - intros Ha.
      assert (Hb : exists b, b < p /\ a <> b).
      { destruct a as [|a]; [exists 1|exists 0]; split; lia. }
      destruct Hb as [b [Hb Hab]].
      pose proof (Hall a b Ha Hb) as Hc.
      inversion Hc as [|? x ? Hadj _]; subst; [contradiction|].
      exists x. exact Hadj. }
  assert (Hac : acyclic (pairs G)).
  { apply (acyclic_perm (rev (pairs G))).
    - intros e. symmetry. apply in_rev.
    - apply forest_acyclic. apply (mi_forest _ _ _ _ _ Hinv). }
  exists G. split; [exact Hloop|].
  split; [split; [apply (mi_nodup _ _ _ _ _ Hinv)|exact Hnodes]|].
  split; [intros a b Ha Hb; apply Hall; apply Hnodes; assumption|].
  split; [exact Hac|].
  split; [apply (mst_inv_connected_edges _ _ _ _ _ Hinv Hp Hall)|].
  split.
  { split; [|split; [apply (mi_range _ _ _ _ _ Hinv)|split; [exact Hall|exact Hac]]].
    pose proof (forest_simple _ (mi_forest _ _ _ _ _ Hinv)) as Hs.
    rewrite map_rev in Hs. apply NoDup_rev in Hs. rewrite rev_involutive in Hs.
    exact Hs. }
  split.
  { assert (E : map snd (edges G)
                = map (fun e => get corr (fst e) (snd e)) (pairs G)).
    { unfold pairs. rewrite map_map. apply map_ext_in.
      apply (mi_weight _ _ _ _ _ Hinv). }
    unfold total_weight, weight. rewrite E. reflexivity. }
  intros T HT. specialize (Hopt T HT).
  destruct (tree_edges_all corr p T vals HT HP) as [_ HwT].
  rewrite HwT in Hopt.
  change (total_weight nx_Graph) with 0%Q in Hopt.
  change (Qnat (number_of_edges nx_Graph)) with 0%Q in Hopt.
  change (Qnat (length (filter (in_tree p T) []))) with 0%Q in Hopt.
  lra.
Qed.

Lemma mst_maximum_spanning_tree_witness :
  let corr := [[1; 1 # 2; 1 # 3]; [1 # 2; 1; 1 # 4]; [1 # 3; 1 # 4; 1]]%Q in
  exists G,
    mst corr = Ok G /\
    node_set_is_range G (shape0 corr) /\
    connected (nodes G) (pairs G) /\
    acyclic (pairs G) /\
    number_of_edges G = shape0 corr - 1 /\
    spanning_tree (shape0 corr) (pairs G) /\
    (total_weight G == weight corr (pairs G))%Q /\
    forall T, spanning_tree (shape0 corr) T ->
      (weight corr T <= total_weight G)%Q.
Proof.
  apply mst_maximum_spanning_tree.
  - repeat constructor.
  - simpl. lia.
Defined.

(** ** TMFG: the loop ends, and what it builds *)

Lemma index_ok {A : Type} (a : list A) (i : nat) (x : A) :
  index a i = Ok x -> nth_error a i = Some x.
Proof.
  unfold index. destruct (nth_error a i); [intros [= ->]; reflexivity|discriminate].
Qed.

Lemma index_lt {A : Type} (a : list A) (i : nat) :
  i < length a -> exists x, index a i = Ok x.
Proof.
  intros H. unfold index. destruct (nth_error a i) as [x|] eqn:E.
  - exists x. reflexivity.
  - apply nth_error_None in E. lia.
Qed.

(** What the scan of one face returns: the state it had, or a node of
    [not_in_arr] with this face. *)
Lemma scan_face_result (w : matrix) (not_in_arr : list node) (st st' : scan_state)
    (ind : face) :
  scan_face w not_in_arr st ind = Ok st' ->
  st' = st \/ exists n c, st' = (c, Some (n, ind)) /\ In n not_in_arr.
Proof.
  unfold scan_face.
  destruct (index (reversed (argsort _)) 0) as [i2|e]; simpl; [|discriminate].
  destruct (index _ i2) as [curr|e]; simpl; [|discriminate].
  destruct (Qltb (fst st) curr).
  - destruct (index not_in_arr i2) as [n|e] eqn:E; simpl; [|discriminate].
    intros [= <-]. right. exists n, curr. split; [reflexivity|].
    eapply nth_error_In. apply index_ok. exact E.
  - intros [= <-]. left. reflexivity.
Qed.

Lemma scan_faces_result (w : matrix) (not_in_arr : list node) (faces : list face) :
  forall st st',
    scan_faces w not_in_arr st faces = Ok st' ->
    st' = st \/
    exists n c f, st' = (c, Some (n, f)) /\ In n not_in_arr /\ In f faces.
Proof.
  induction faces as [|f faces IH]; intros st st' H; simpl in H.
  - injection H as <-. left. reflexivity.
  - destruct (scan_face w not_in_arr st f) as [st1|e] eqn:E; simpl in H; [|discriminate].
    apply scan_face_result in E. apply IH in H.
    destruct H as [->|[n [c [g [-> [Hn Hg]]]]]].
    + destruct E as [->|[n [c [-> Hn]]]]; [left; reflexivity|].
      right. exists n, c, f. repeat split; auto. left. reflexivity.
    + right. exists n, c, g. repeat split; auto. right. exact Hg.
Qed.

Lemma mem_set_difference (x : node) (s1 s2 : list node) :
  mem x (set_difference s1 s2) = mem x s1 && negb (mem x s2).
Proof.
  unfold set_difference. induction s1 as [|y s1 IH]; simpl; [reflexivity|].
  destruct (mem y s2) eqn:E; simpl.
  - rewrite IH. destruct (Nat.eqb_spec x y) as [->|]; simpl; [|reflexivity].
    rewrite E. simpl. destruct (mem y s1); reflexivity.
  - rewrite IH. destruct (Nat.eqb_spec x y) as [->|]; simpl; [|reflexivity].
    rewrite E. reflexivity.
Qed.

Lemma filter_length_lt {A : Type} (f : A -> bool) (l : list A) (x : A) :
  In x l -> f x = false -> length (filter f l) < length l.
Proof.
  induction l as [|y l IH]; intros Hin Hf; [destruct Hin|]. simpl.
  destruct Hin as [->|Hin].
  - rewrite Hf. pose proof (filter_length_le f (fun _ => true) l (fun _ _ _ => eq_refl)).
    rewrite (filter_all (fun _ => true)) in H by reflexivity. lia.
  - specialize (IH Hin Hf). destruct (f y); simpl; lia.
Qed.

(** A round of the loop takes a node out of [not_in]. *)
Lemma tmfg_round_result (corr w : matrix) (s s' : tmfg_state) :
  tmfg_round corr w s = Ok s' ->
  exists max_i f,
    In max_i (t_not_in s) /\ In f (t_faces s) /\
    t_starters_set s' = set_union (t_starters_set s) [max_i] /\
    t_not_in s' = set_difference (t_not_in s) (t_starters_set s') /\
    _add_triangular_face (t_G s) (PyInt max_i) f corr (t_faces s) = Ok (t_G s') /\
    _calculate_new_faces (t_faces s) max_i f = Ok (t_faces s').
Proof.
  unfold tmfg_round. cbv zeta.
  destruct (scan_faces w (t_not_in s) ((-1)%Q, None) (t_faces s)) as [st|e] eqn:E;
    cbn [bind]; [|discriminate].
  apply scan_faces_result in E.
  destruct E as [->|[n [c [f [-> [Hn Hf]]]]]]; cbn [snd]; [discriminate|].
  destruct (_add_triangular_face (t_G s) (PyInt n) f corr (t_faces s)) as [G|e] eqn:EG;
    cbn [bind]; [|discriminate].
  destruct (_calculate_new_faces (t_faces s) n f) as [fs|e] eqn:EF; cbn [bind];
    [|discriminate].
  intros [= <-]. cbn [t_G t_faces t_starters_set t_not_in].
  exists n, f. repeat split; auto.
Qed.

Lemma tmfg_round_shrinks (corr w : matrix) (s s' : tmfg_state) :
  tmfg_round corr w s = Ok s' -> length (t_not_in s') < length (t_not_in s).
Proof.
  intros H. apply tmfg_round_result in H.
  destruct H as [max_i [f [Hin [_ [Hst [Hni _]]]]]].
  rewrite Hni. unfold set_difference. apply (filter_length_lt _ _ max_i Hin).
  rewrite Hst, mem_set_union. simpl. rewrite Nat.eqb_refl, orb_true_r. reflexivity.
Qed.

(** The fuel of [tmfg_loop] is enough: the loop ends because [not_in] is
    empty. *)
Lemma tmfg_loop_fuel (corr w : matrix) (fuel : nat) :
  forall s s', length (t_not_in s) <= fuel ->
    tmfg_loop fuel corr w s = Ok s' -> t_not_in s' = [].
Proof.
  induction fuel as [|fuel IH]; intros s s' Hlen H.
  - destruct (t_not_in s) eqn:E; simpl in Hlen; [|lia].
    simpl in H. rewrite E in H. injection H as <-. exact E.
  - simpl in H. destruct (t_not_in s) as [|x l] eqn:E.
    + injection H as <-. exact E.
    + destruct (tmfg_round corr w s) as [s1|e] eqn:E1; simpl in H; [|discriminate].
      apply (IH s1 s'); [|exact H].
      pose proof (tmfg_round_shrinks corr w s s1 E1) as Hlt.
      rewrite E in Hlt. simpl in *. lia.
Qed.

Lemma has_edge_pairs (G : Graph) (u v : node) :
  has_edge G u v = existsb (same_edge u v) (pairs G).
Proof.
  unfold has_edge, pairs. induction (edges G) as [|e l IH]; simpl; [reflexivity|].
  rewrite IH. reflexivity.
Qed.

(** [add_edge] between two nodes of the graph, on the nodes and the
    pairs. *)
Lemma add_edge_skeleton (G : Graph) (u v : node) (w : Q) :
  In u (nodes G) -> In v (nodes G) ->
  nodes (add_edge G u v w) = nodes G /\
  pairs (add_edge G u v w) = add_pair (pairs G) u v.
Proof.
  intros Hu Hv. unfold add_pair. rewrite <- has_edge_pairs.
  destruct (has_edge G u v) eqn:E.
  - apply pairs_add_edge_present; assumption.
  - rewrite add_edge_absent by assumption. unfold pairs. simpl.
    rewrite map_app. split; reflexivity.
Qed.

Lemma add_face_skeleton (C : matrix) (new : node) (old_set : list node) :
  forall G, In new (nodes G) -> (forall j, In j old_set -> In j (nodes G)) ->
    let G' := fold_left (fun G j => add_edge G new j (get C new j)) old_set G in
    nodes G' = nodes G /\
    pairs G' = fold_left (fun E j => add_pair E new j) old_set (pairs G).
Proof.
  induction old_set as [|j l IH]; intros G Hn Hl; simpl.
  - split; reflexivity.
  - destruct (add_edge_skeleton G new j (get C new j) Hn (Hl j (or_introl eq_refl)))
      as [H1 H2].
    destruct (IH (add_edge G new j (get C new j))) as [H3 H4].
    + rewrite H1. exact Hn.
    + intros j' Hj'. rewrite H1. apply Hl. right. exact Hj'.
    + simpl in H3, H4. rewrite H3, H4, H1, H2. split; reflexivity.
Qed.

Lemma add_pair_fresh (E : list (node * node)) (u v : node) :
  (forall a b, In (a, b) E -> ~ ((u = a /\ v = b) \/ (u = b /\ v = a))) ->
  add_pair E u v = E ++ [(u, v)].
Proof.
  intros H. unfold add_pair.
  destruct (existsb (same_edge u v) E) eqn:Ex; [|reflexivity].
  exfalso. apply existsb_exists in Ex. destruct Ex as [[a b] [Hin Hs]].
  apply (H a b Hin). unfold same_edge in Hs. simpl in Hs.
  apply orb_true_iff in Hs. destruct Hs as [Hs|Hs]; apply andb_true_iff in Hs;
    destruct Hs as [H1 H2]; apply Nat.eqb_eq in H1, H2; auto.
Qed.

(** A new node joined to the three members of a face: three new edges. *)
Lemma add_pair_face (E : list (node * node)) (new f0 f1 f2 : node) :
  (forall a b, In (a, b) E -> a <> new /\ b <> new) ->
  NoDup [f0; f1; f2] -> f0 <> new -> f1 <> new -> f2 <> new ->
  fold_left (fun E j => add_pair E new j) [f0; f1; f2] E
  = E ++ [(new, f0); (new, f1); (new, f2)].
Proof.
  intros HE Hnd H0 H1 H2. simpl.
  assert (D01 : f0 <> f1 /\ f0 <> f2 /\ f1 <> f2).
  { inversion Hnd as [|? ? Ha Hnd']; subst. inversion Hnd' as [|? ? Hb _]; subst.
    simpl in Ha, Hb. intuition. }
  rewrite (add_pair_fresh E new f0).
  2:{ intros a b Hin. destruct (HE a b Hin). intuition. }
  rewrite (add_pair_fresh (E ++ [(new, f0)]) new f1).
  2:{ intros a b Hin. apply in_app_iff in Hin. destruct Hin as [Hin|[[= <- <-]|[]]].
      - destruct (HE a b Hin). intuition.
      - intuition. }
  rewrite (add_pair_fresh ((E ++ [(new, f0)]) ++ [(new, f1)]) new f2).
  2:{ intros a b Hin. apply in_app_iff in Hin. destruct Hin as [Hin|[[= <- <-]|[]]].
      - apply in_app_iff in Hin. destruct Hin as [Hin|[[= <- <-]|[]]].
        + destruct (HE a b Hin). intuition.
        + intuition.
      - intuition. }
  rewrite <- !app_assoc. reflexivity.
Qed.

Lemma set_of_3 (a b c : node) :
  a <> b -> a <> c -> b <> c -> set_of [a; b; c] = [a; b; c].
Proof.
  intros Hab Hac Hbc. unfold set_of, set_add. simpl.
  apply Nat.eqb_neq in Hab, Hac, Hbc.
  rewrite (Nat.eqb_sym b a), Hab. simpl.
  rewrite (Nat.eqb_sym c a), Hac, (Nat.eqb_sym c b), Hbc. reflexivity.
Qed.

Lemma faces_add_spec (faces : list face) (f g : face) :
  In g (faces_add faces f) -> In g faces \/ g = f.
Proof.
  unfold faces_add. destruct (existsb (set_eqb f) faces); [auto|].
  intros H. apply in_app_iff in H. destruct H as [H|[<-|[]]]; auto.
Qed.

Lemma faces_add_nonempty (faces : list face) (f : face) : faces_add faces f <> [].
Proof.
  unfold faces_add. destruct (existsb (set_eqb f) faces) eqn:E.
  - intros ->. discriminate.
  - destruct faces; discriminate.
Qed.

Lemma face_three (f : face) :
  length f = 3 -> exists f0 f1 f2, f = [f0; f1; f2].
Proof.
  destruct f as [|a [|b [|c [|d f]]]]; simpl; intros H; try discriminate.
  exists a, b, c. reflexivity.
Qed.

Lemma not_in_shrinks (not_in starters : list node) (max_i : node) :
  NoDup not_in -> In max_i not_in ->
  (forall x, In x not_in -> mem x starters = false) ->
  length (set_difference not_in (set_union starters [max_i])) + 1 = length not_in.
Proof.
  intros Hnd Hin Hdis. unfold set_difference.
  assert (E : filter (fun x => negb (mem x (set_union starters [max_i]))) not_in
              = filter (fun i => true && negb (i =? max_i)) not_in).
  { apply filter_ext_in. intros x Hx. rewrite mem_set_union, (Hdis x Hx). simpl.
    rewrite orb_false_r. reflexivity. }
  pose proof (filter_remove_one (fun _ => true) not_in max_i Hnd Hin eq_refl) as H1.
  cbv beta in H1. rewrite (filter_all (fun _ => true)) in H1 by reflexivity.
  rewrite E. exact H1.
Qed.

(** A round of the loop keeps the invariant. *)
Lemma tmfg_inv_round (p : nat) (corr w : matrix) (s s' : tmfg_state) :
  tmfg_inv p s -> tmfg_round corr w s = Ok s' -> tmfg_inv p s'.
Proof.
  intros Hinv Hround. apply tmfg_round_result in Hround.
  destruct Hround as [new [f [Hnew [Hf [Hst [Hni [HG Hfaces]]]]]]].
  destruct Hinv as [Hn He Hs Hnot Hnd Hfs Hne Hcount Hconn].
  assert (Hnew' : new < p /\ mem new (t_starters_set s) = false).
  { apply Hnot. apply mem_In. exact Hnew. }
  destruct Hnew' as [Hnewp Hnews].
  destruct (Hfs f Hf) as [Hlen [Hfnd Hfin]].
  destruct (face_three f Hlen) as [f0 [f1 [f2 ->]]].
  assert (Hfm : forall x, In x [f0; f1; f2] -> x < p /\ x <> new).
  { intros x Hx. pose proof (Hfin x Hx) as Hm. split; [apply Hs; exact Hm|].
    intros ->. congruence. }
  assert (Hmem' : forall x, mem x (t_starters_set s')
                            = mem x (t_starters_set s) || (x =? new)).
  { intros x. rewrite Hst, mem_set_union. simpl. rewrite orb_false_r. reflexivity. }
  (* the graph *)
  unfold _add_triangular_face in HG. rewrite Hlen in HG. simpl (3 <? 3) in HG.
  cbv iota in HG. injection HG as HG.
  destruct (add_face_skeleton corr new [f0; f1; f2] (t_G s)) as [HGn HGp].
  { rewrite Hn. apply in_seq. lia. }
  { intros j Hj. rewrite Hn. apply in_seq. destruct (Hfm j Hj). lia. }
  cbv zeta in HGn, HGp.
  assert (HG' : fold_left (fun G j => add_edge G new j (get corr new j))
                  [f0; f1; f2] (t_G s) = t_G s') by exact HG.
  rewrite HG' in HGn, HGp.
  rewrite add_pair_face in HGp.
  2:{ intros a b Hab. destruct (He a b Hab) as [Ha Hb]. split; intros ->; congruence. }
  2:{ exact Hfnd. }
  2-4: apply Hfm; simpl; auto.
  (* the faces *)
  unfold _calculate_new_faces in Hfaces. simpl in Hfaces. injection Hfaces as Hfaces.
  assert (D : f0 <> f1 /\ f0 <> f2 /\ f1 <> f2).
  { inversion Hfnd as [|? ? Ha Hnd']; subst. inversion Hnd' as [|? ? Hb _]; subst.
    simpl in Ha, Hb. intuition. }
  destruct D as [D01 [D02 D12]].
  assert (N0 : new <> f0) by (intros E; apply (proj2 (Hfm f0 (or_introl eq_refl))); auto).
  assert (N1 : new <> f1)
    by (intros E; apply (proj2 (Hfm f1 (or_intror (or_introl eq_refl)))); auto).
  assert (N2 : new <> f2)
    by (intros E; apply (proj2 (Hfm f2 (or_intror (or_intror (or_introl eq_refl))))); auto).
  unfold frozenset in Hfaces.
  rewrite (set_of_3 new f1 f0), (set_of_3 new f0 f2), (set_of_3 new f1 f2) in Hfaces
    by auto.
  constructor.
  - rewrite HGn. exact Hn.
  - intros a b Hab. rewrite HGp in Hab. rewrite !Hmem'.
    apply in_app_iff in Hab. destruct Hab as [Hab|Hab].
    + destruct (He a b Hab) as [Ha Hb]. rewrite Ha, Hb. auto.
    + assert (Hb : a = new /\ In b [f0; f1; f2]).
      { simpl in Hab. simpl.
        destruct Hab as [[= <- <-]|[[= <- <-]|[[= <- <-]|[]]]]; auto. }
      destruct Hb as [-> Hb]. rewrite (Hfin b Hb), Nat.eqb_refl, orb_true_r. auto.
  - intros x Hx. rewrite Hmem' in Hx. apply orb_true_iff in Hx.
    destruct Hx as [Hx|Hx]; [apply Hs; exact Hx|].
    apply Nat.eqb_eq in Hx. subst. exact Hnewp.
  - intros x. rewrite Hni, mem_set_difference, Hmem', andb_true_iff, negb_true_iff, Hnot.
    rewrite orb_false_iff. tauto.
  - rewrite Hni. apply NoDup_filter. exact Hnd.
  - intros g Hg. rewrite <- Hfaces in Hg.
    assert (Hcases : In g (t_faces s) \/ g = [new; f1; f0] \/ g = [new; f0; f2]
                     \/ g = [new; f1; f2]).
    { apply faces_add_spec in Hg. destruct Hg as [Hg|Hg]; [|auto].
      apply faces_add_spec in Hg. destruct Hg as [Hg|Hg]; [|auto].
      apply faces_add_spec in Hg. destruct Hg as [Hg|Hg]; [|auto].
      left. unfold faces_remove in Hg. apply filter_In in Hg. apply Hg. }
    destruct Hcases as [Hg'|Hg'].
    + destruct (Hfs g Hg') as [H1 [H2 H3]]. repeat split; auto.
      intros x Hx. rewrite Hmem', (H3 x Hx). reflexivity.
    + assert (Hall : forall x, In x [new; f0; f1; f2] ->
                mem x (t_starters_set s') = true).
      { intros x [<-|Hx]; rewrite Hmem'.
        - rewrite Nat.eqb_refl. apply orb_true_r.
        - rewrite (Hfin x Hx). reflexivity. }
      destruct Hg' as [-> | [-> | ->]]; (split; [reflexivity|split]);
        try (intros x Hx; apply Hall; simpl in *; intuition);
        repeat constructor; simpl; intuition.
  - rewrite <- Hfaces. apply faces_add_nonempty.
  - assert (Hl : length (t_not_in s') + 1 = length (t_not_in s)).
    { rewrite Hni, Hst. apply not_in_shrinks; auto.
      intros x Hx. apply mem_In in Hx. apply Hnot in Hx. apply Hx. }
    assert (Hedges : number_of_edges (t_G s') = number_of_edges (t_G s) + 3).
    { unfold number_of_edges.
      rewrite <- (length_map fst (edges (t_G s'))), <- (length_map fst (edges (t_G s))).
      fold (pairs (t_G s')). fold (pairs (t_G s)). rewrite HGp, length_app. reflexivity. }
    lia.
  - assert (Hold : forall a b, conn (pairs (t_G s)) a b -> conn (pairs (t_G s')) a b).
    { intros a b. apply conn_incl. intros e Hein. rewrite HGp. apply in_app_iff. auto. }
    assert (Hnf : forall b, mem b (t_starters_set s) = true ->
              conn (pairs (t_G s')) new b).
    { intros b Hb. eapply conn_step.
      - left. rewrite HGp. apply in_app_iff. right. left. reflexivity.
      - apply Hold. apply Hconn; [|exact Hb]. apply Hfin. left. reflexivity. }
    intros a b Ha Hb. rewrite Hmem' in Ha, Hb.
    apply orb_true_iff in Ha, Hb.
    destruct Ha as [Ha|Ha], Hb as [Hb|Hb];
      try (apply Nat.eqb_eq in Ha; subst a); try (apply Nat.eqb_eq in Hb; subst b).
    + apply Hold. apply Hconn; assumption.
    + apply conn_sym. apply Hnf. exact Ha.
    + apply Hnf. exact Hb.
    + apply conn_refl.
Qed.

Lemma tmfg_inv_loop (p : nat) (corr w : matrix) (fuel : nat) :
  forall s s', tmfg_inv p s -> tmfg_loop fuel corr w s = Ok s' -> tmfg_inv p s'.
Proof.
  induction fuel as [|fuel IH]; intros s s' Hinv H; simpl in H.
  - destruct (t_not_in s); injection H as <-; exact Hinv.
  - destruct (t_not_in s) as [|x l].
    + injection H as <-. exact Hinv.
    + destruct (tmfg_round corr w s) as [s1|e] eqn:E; simpl in H; [|discriminate].
      apply (IH s1 s'); [|exact H]. eapply tmfg_inv_round; eassumption.
Qed.

Lemma set_of_nodup (l : list node) : NoDup l -> set_of l = l.
Proof.
  unfold set_of. intros H.
  assert (G : forall acc, NoDup (acc ++ l) ->
            fold_left (fun s x => set_add x s) l acc = acc ++ l).
  { clear H. induction l as [|x l IH]; intros acc Hnd; simpl.
    - rewrite app_nil_r. reflexivity.
    - unfold set_add at 2.
      assert (Hx : mem x acc = false).
      { apply mem_not_In. intros Hin. apply NoDup_remove_2 in Hnd.
        apply Hnd. apply in_app_iff. left. exact Hin. }
      rewrite Hx. rewrite IH; rewrite <- app_assoc; [reflexivity|exact Hnd]. }
  apply (G []). exact H.
Qed.

Lemma set_of_2 (a b : node) : a <> b -> set_of [a; b] = [a; b].
Proof.
  intros H. apply set_of_nodup. repeat constructor; simpl; intuition.
Qed.

Ltac eqb_solve :=
  repeat rewrite Nat.eqb_refl;
  repeat match goal with
  | |- context [?a =? ?b] =>
      rewrite (proj2 (Nat.eqb_neq a b)) by (assumption || (apply not_eq_sym; assumption))
  end.

Lemma seed_pairs (i0 i1 i2 i3 : nat) :
  i0 <> i1 -> i0 <> i2 -> i0 <> i3 -> i1 <> i2 -> i1 <> i3 -> i2 <> i3 ->
  fold_left (fun E j => add_pair E i2 j) [i1; i3]
    (fold_left (fun E j => add_pair E i0 j) [i2; i3]
       (fold_left (fun E j => add_pair E i1 j) [i2; i3]
          (fold_left (fun E j => add_pair E i0 j) [i1; i3] [])))
  = [(i0, i1); (i0, i3); (i1, i2); (i1, i3); (i0, i2); (i2, i3)].
Proof.
  intros D01 D02 D03 D12 D13 D23.
  unfold add_pair, same_edge. cbn [fold_left existsb fst snd app].
  eqb_solve. cbn [orb andb existsb fst snd app].
  eqb_solve. cbn [orb andb existsb fst snd app].
  eqb_solve. cbn [orb andb existsb fst snd app].
  eqb_solve. cbn [orb andb existsb fst snd app].
  eqb_solve. cbn [orb andb existsb fst snd app].
  eqb_solve. cbn [orb andb existsb fst snd app].
  eqb_solve. cbn [orb andb existsb fst snd app].
  eqb_solve. cbn [orb andb existsb fst snd app].
  reflexivity.
Qed.

Lemma add_triangular_face_int (G : Graph) (n : nat) (old_set : list nat) (C : matrix)
    (faces : list face) :
  length old_set <= 3 ->
  _add_triangular_face G (PyInt n) old_set C faces
  = Ok (fold_left (fun G j => add_edge G n j (get C n j)) old_set G).
Proof.
  intros H. unfold _add_triangular_face.
  destruct (3 <? length old_set) eqn:E; [|reflexivity].
  apply Nat.ltb_lt in E. lia.
Qed.

Lemma tmfg_seed_eq (corr : matrix) (p i0 i1 i2 i3 : nat) (rest : list nat) :
  i0 <> i1 -> i0 <> i2 -> i0 <> i3 -> i1 <> i2 -> i1 <> i3 -> i2 <> i3 ->
  tmfg_seed corr p (i0 :: i1 :: i2 :: i3 :: rest) = Ok (seed_state corr p i0 i1 i2 i3).
Proof.
  intros D01 D02 D03 D12 D13 D23.
  unfold tmfg_seed, seed_state. cbn [index nth_error bind firstn].
  rewrite add_nodes_from_range.
  rewrite (set_of_2 i1 i3 D13), (set_of_2 i2 i3 D23).
  unfold frozenset.
  rewrite (set_of_3 i0 i1 i3), (set_of_3 i1 i2 i3), (set_of_3 i0 i2 i3),
    (set_of_3 i0 i1 i2) by assumption.
  rewrite (set_of_nodup [i0; i1; i2; i3])
    by (repeat constructor; cbn [In]; intuition).
  rewrite (set_of_nodup (seq 0 p)) by apply seq_NoDup.
  rewrite add_triangular_face_int by (cbn [length]; lia). cbn [bind].
  rewrite add_triangular_face_int by (cbn [length]; lia). cbn [bind].
  rewrite add_triangular_face_int by (cbn [length]; lia). cbn [bind].
  rewrite add_triangular_face_int by (cbn [length]; lia). cbn [bind].
  reflexivity.
Qed.

Lemma number_of_edges_pairs (G : Graph) : number_of_edges G = length (pairs G).
Proof. unfold number_of_edges, pairs. symmetry. apply length_map. Qed.

Lemma seed_state_graph (corr : matrix) (p i0 i1 i2 i3 : nat) :
  i0 < p -> i1 < p -> i2 < p -> i3 < p ->
  i0 <> i1 -> i0 <> i2 -> i0 <> i3 -> i1 <> i2 -> i1 <> i3 -> i2 <> i3 ->
  nodes (t_G (seed_state corr p i0 i1 i2 i3)) = seq 0 p /\
  pairs (t_G (seed_state corr p i0 i1 i2 i3))
  = [(i0, i1); (i0, i3); (i1, i2); (i1, i3); (i0, i2); (i2, i3)].
Proof.
  intros L0 L1 L2 L3 D01 D02 D03 D12 D13 D23.
  unfold seed_state. cbv zeta. cbn [t_G].
  set (G0 := mkGraph (seq 0 p) []).
  assert (Hin : forall x, x < p -> In x (seq 0 p)) by (intros x Hx; apply in_seq; lia).
  destruct (add_face_skeleton corr i0 [i1; i3] G0) as [N1 P1];
    [apply Hin; exact L0|intros j [<-|[<-|[]]]; apply Hin; assumption|].
  cbv zeta in N1, P1.
  destruct (add_face_skeleton corr i1 [i2; i3]
              (fold_left (fun G j => add_edge G i0 j (get corr i0 j)) [i1; i3] G0))
    as [N2 P2];
    [rewrite N1; apply Hin; exact L1
    |intros j [<-|[<-|[]]]; rewrite N1; apply Hin; assumption|].
  cbv zeta in N2, P2.
  destruct (add_face_skeleton corr i0 [i2; i3]
              (fold_left (fun G j => add_edge G i1 j (get corr i1 j)) [i2; i3]
                 (fold_left (fun G j => add_edge G i0 j (get corr i0 j)) [i1; i3] G0)))
    as [N3 P3];
    [rewrite N2, N1; apply Hin; exact L0
    |intros j [<-|[<-|[]]]; rewrite N2, N1; apply Hin; assumption|].
  cbv zeta in N3, P3.
  destruct (add_face_skeleton corr i2 [i1; i3]
              (fold_left (fun G j => add_edge G i0 j (get corr i0 j)) [i2; i3]
                 (fold_left (fun G j => add_edge G i1 j (get corr i1 j)) [i2; i3]
                    (fold_left (fun G j => add_edge G i0 j (get corr i0 j))
                       [i1; i3] G0))))
    as [N4 P4];
    [rewrite N3, N2, N1; apply Hin; exact L2
    |intros j [<-|[<-|[]]]; rewrite N3, N2, N1; apply Hin; assumption|].
  cbv zeta in N4, P4.
  split.
  - rewrite N4, N3, N2, N1. reflexivity.
  - rewrite P4, P3, P2, P1. apply seed_pairs; assumption.
Qed.

Lemma seed_state_inv (corr : matrix) (p i0 i1 i2 i3 : nat) (rest : list nat) :
  4 <= p -> Permutation (i0 :: i1 :: i2 :: i3 :: rest) (seq 0 p) ->
  i0 <> i1 /\ i0 <> i2 /\ i0 <> i3 /\ i1 <> i2 /\ i1 <> i3 /\ i2 <> i3 /\
  tmfg_inv p (seed_state corr p i0 i1 i2 i3).
Proof.
  intros Hp HP.
  assert (Hlen : length (i0 :: i1 :: i2 :: i3 :: rest) = p)
    by (rewrite (Permutation_length HP); apply length_seq).
  assert (Hnd : NoDup (i0 :: i1 :: i2 :: i3 :: rest))
    by (eapply Permutation_NoDup; [symmetry; exact HP|apply seq_NoDup]).
  assert (Hlt : forall x, In x (i0 :: i1 :: i2 :: i3 :: rest) -> x < p).
  { intros x Hx. apply (Permutation_in _ HP) in Hx. apply in_seq in Hx. lia. }
  assert (L0 : i0 < p) by (apply Hlt; cbn [In]; auto).
  assert (L1 : i1 < p) by (apply Hlt; cbn [In]; auto).
  assert (L2 : i2 < p) by (apply Hlt; cbn [In]; auto).
  assert (L3 : i3 < p) by (apply Hlt; cbn [In]; auto 6).
  assert (HD : i0 <> i1 /\ i0 <> i2 /\ i0 <> i3 /\ i1 <> i2 /\ i1 <> i3 /\ i2 <> i3
               /\ forall x, In x rest -> x <> i0 /\ x <> i1 /\ x <> i2 /\ x <> i3).
  { inversion Hnd as [|? ? A0 Hnd1]; subst. inversion Hnd1 as [|? ? A1 Hnd2]; subst.
    inversion Hnd2 as [|? ? A2 Hnd3]; subst. inversion Hnd3 as [|? ? A3 Hnd4]; subst.
    cbn [In] in A0, A1, A2. repeat split; try (intros E; subst; intuition). }
  destruct HD as [D01 [D02 [D03 [D12 [D13 [D23 Drest]]]]]].
  repeat (split; [assumption|]).
  destruct (seed_state_graph corr p i0 i1 i2 i3) as [HN4 HP4]; try assumption.
  assert (Hst : forall x, mem x [i0; i1; i2; i3] = true <->
                x = i0 \/ x = i1 \/ x = i2 \/ x = i3).
  { intros x. rewrite mem_In. cbn [In]. intuition. }
  cbn [length] in Hlen.
  clear Hnd Hlt.
  constructor.
  - exact HN4.
  - intros a b Hab. rewrite HP4 in Hab. cbn [seed_state t_starters_set].
    rewrite !Hst. cbn [In] in Hab.
    destruct Hab as [[= <- <-]|[[= <- <-]|[[= <- <-]|[[= <- <-]|[[= <- <-]|[[= <- <-]|[]]]]]]];
      auto 10.
  - cbn [seed_state t_starters_set]. intros x Hx. apply Hst in Hx.
    destruct Hx as [-> | [-> | [-> | ->]]]; assumption.
  - cbn [seed_state t_starters_set t_not_in]. intros x.
    rewrite mem_set_difference, andb_true_iff, negb_true_iff, mem_In, in_seq.
    split; intros [H1 H2]; split; auto; lia.
  - cbn [seed_state t_not_in]. apply NoDup_filter. apply seq_NoDup.
  - cbn [seed_state t_faces t_starters_set]. intros g Hg.
    assert (Hc : g = [i0; i1; i3] \/ g = [i1; i2; i3] \/ g = [i0; i2; i3]
                 \/ g = [i0; i1; i2]).
    { apply faces_add_spec in Hg. destruct Hg as [Hg|Hg]; [|auto].
      apply faces_add_spec in Hg. destruct Hg as [Hg|Hg]; [|auto].
      apply faces_add_spec in Hg. destruct Hg as [Hg|Hg]; [|auto].
      apply faces_add_spec in Hg. destruct Hg as [[]|Hg]. auto. }
    destruct Hc as [-> | [-> | [-> | ->]]]; (split; [reflexivity|split]);
      try (intros x Hx; apply Hst; cbn [In] in Hx;
           destruct Hx as [<-|[<-|[<-|[]]]]; auto);
      repeat constructor; cbn [In]; intuition.
  - cbn [seed_state t_faces]. apply faces_add_nonempty.
  - assert (Hc : length (set_difference (seq 0 p) [i0; i1; i2; i3]) = length rest).
    { unfold set_difference.
      rewrite (filter_length_perm _ _ _ (Permutation_sym HP)).
      cbn [filter mem existsb]. eqb_solve. cbn [orb negb].
      rewrite filter_all; [reflexivity|].
      intros x Hx. destruct (Drest x Hx) as [E0 [E1 [E2 E3]]].
      apply negb_true_iff. eqb_solve. reflexivity. }
    rewrite number_of_edges_pairs, HP4.
    cbn [seed_state t_not_in]. rewrite Hc. cbn [length]. lia.
  - cbn [seed_state t_starters_set]. intros a b Ha Hb. apply Hst in Ha, Hb. rewrite HP4.
    destruct Ha as [-> | [-> | [-> | ->]]], Hb as [-> | [-> | [-> | ->]]];
      try apply conn_refl; apply conn_adj; unfold adj; cbn [In];
      solve [left; repeat (first [left; reflexivity | right])
            |right; repeat (first [left; reflexivity | right])].
Qed.

Lemma sum_axis0_length (w : matrix) : length (sum_axis0 w) = shape1 w.
Proof. unfold sum_axis0. rewrite length_map, length_seq. reflexivity. Qed.

(** What the result of [tmfg] is like, whenever there is one. *)
Lemma tmfg_from_structure (corr w : matrix) (G : Graph) :
  shape1 w = shape0 corr -> 4 <= shape0 corr ->
  tmfg_from corr w = Ok G ->
  node_set_is_range G (shape0 corr) /\
  number_of_edges G = 3 * shape0 corr - 6 /\
  connected (nodes G) (pairs G).
Proof.
  intros Hw Hp. unfold tmfg_from. cbv zeta.
  set (p := shape0 corr) in *.
  pose proof (order_perm (sum_axis0 w)) as HP.
  rewrite sum_axis0_length, Hw in HP.
  destruct (reversed (argsort (sum_axis0 w))) as [|i0 [|i1 [|i2 [|i3 rest]]]] eqn:Eind;
    try (apply Permutation_length in HP; rewrite length_seq in HP; cbn [length] in HP; lia).
  destruct (seed_state_inv corr p i0 i1 i2 i3 rest Hp HP)
    as [D01 [D02 [D03 [D12 [D13 [D23 Hinv]]]]]].
  rewrite tmfg_seed_eq by assumption. cbn [bind].
  destruct (tmfg_loop _ corr w (seed_state corr p i0 i1 i2 i3)) as [s|e] eqn:Eloop;
    cbn [bind]; [|discriminate].
  intros [= <-].
  pose proof (tmfg_inv_loop p corr w _ _ s Hinv Eloop) as Hs.
  pose proof (tmfg_loop_fuel corr w _ _ s (le_n _) Eloop) as Hempty.
  destruct Hs as [Hn He Hst Hnot Hnd Hfs Hne Hcount Hconn].
  rewrite Hempty in Hcount, Hnot. cbn [length] in Hcount.
  assert (Hall : forall x, x < p -> mem x (t_starters_set s) = true).
  { intros x Hx. destruct (mem x (t_starters_set s)) eqn:E; [reflexivity|].
    assert (Hf : mem x [] = true) by (apply Hnot; split; assumption). discriminate Hf. }
  split; [|split].
  - split; [rewrite Hn; apply seq_NoDup|].
    intros a. rewrite Hn, in_seq. lia.
  - lia.
  - intros a b Ha Hb. rewrite Hn in Ha, Hb. apply in_seq in Ha, Hb.
    apply Hconn; apply Hall; lia.
Qed.

(** *** With [absolute], every round finds a node *)

Lemma np_sum_nonneg (l : vector) :
  (forall x, In x l -> (0 <= x)%Q) -> (0 <= np_sum l)%Q.
Proof.
  induction l as [|y l IH]; intros H.
  - unfold np_sum. cbn [fold_left]. apply Qle_refl.
  - rewrite np_sum_cons.
    assert (H0 : (0 <= y)%Q) by (apply H; left; reflexivity).
    assert (H1 : (0 <= np_sum l)%Q) by (apply IH; intros x Hx; apply H; right; exact Hx).
    lra.
Qed.

Lemma get_np_abs (corr : matrix) (i j : nat) :
  get (np_abs corr) i j = Qabs (get corr i j).
Proof.
  unfold get, np_abs, map_matrix.
  change (@nil Q) with (map Qabs []) at 1. rewrite map_nth.
  change 0%Q with (Qabs 0) at 1. rewrite map_nth. reflexivity.
Qed.

Lemma np_abs_nonneg (corr : matrix) : nonneg_matrix (np_abs corr).
Proof. intros i j. rewrite get_np_abs. apply Qabs_nonneg. Qed.

(** The scan of a face returns; with weights that are not negative it
    has a node afterwards, if it had one or started from [-1]. *)
Lemma scan_face_ok (w : matrix) (not_in_arr : list nat) (st : scan_state) (ind : face) :
  not_in_arr <> [] ->
  exists st', scan_face w not_in_arr st ind = Ok st' /\
    (nonneg_matrix w -> (fst st < 0)%Q \/ snd st <> None -> snd st' <> None).
Proof.
  intros Hne. unfold scan_face. cbv zeta.
  set (most_related := map (fun n => np_sum (map (fun f => get w f n) ind)) not_in_arr).
  assert (Hlen : length most_related = length not_in_arr) by apply length_map.
  pose proof (order_perm most_related) as HP.
  destruct (reversed (argsort most_related)) as [|i2 ind_2] eqn:E.
  { apply Permutation_length in HP. rewrite length_seq, Hlen in HP.
    destruct not_in_arr; [congruence|discriminate]. }
  assert (Hi2 : i2 < length most_related).
  { assert (Hin : In i2 (seq 0 (length most_related)))
      by (apply (Permutation_in _ HP); left; reflexivity).
    apply in_seq in Hin. lia. }
  cbn [index nth_error bind].
  destruct (index_lt most_related i2 Hi2) as [curr Hcurr]. rewrite Hcurr. cbn [bind].
  destruct (index_lt not_in_arr i2 ltac:(lia)) as [n Hn]. rewrite Hn. cbn [bind].
  destruct (Qltb (fst st) curr) eqn:Elt.
  - eexists. split; [reflexivity|]. intros _ _. cbn [snd]. discriminate.
  - exists st. split; [reflexivity|]. intros Hw [Hneg|Hsome]; [|exact Hsome].
    exfalso.
    assert (Hc : (0 <= curr)%Q).
    { apply index_ok in Hcurr. apply nth_error_In in Hcurr.
      unfold most_related in Hcurr. apply in_map_iff in Hcurr.
      destruct Hcurr as [m [<- _]]. apply np_sum_nonneg.
      intros x Hx. apply in_map_iff in Hx. destruct Hx as [f [<- _]]. apply Hw. }
    unfold Qltb in Elt. apply negb_false_iff in Elt. apply Qle_bool_iff in Elt. lra.
Qed.

Lemma scan_faces_ok (w : matrix) (not_in_arr : list nat) (faces : list face) :
  not_in_arr <> [] ->
  forall st, exists st', scan_faces w not_in_arr st faces = Ok st' /\
    (nonneg_matrix w -> faces <> [] ->
     (fst st < 0)%Q \/ snd st <> None -> snd st' <> None).
Proof.
  intros Hne. induction faces as [|f faces IH]; intros st.
  - exists st. split; [reflexivity|]. intros _ H. congruence.
  - cbn [scan_faces].
    destruct (scan_face_ok w not_in_arr st f Hne) as [st1 [E1 H1]].
    rewrite E1. cbn [bind].
    destruct (IH st1) as [st2 [E2 H2]]. exists st2. split; [exact E2|].
    intros Hw _ Hst. specialize (H1 Hw Hst).
    destruct faces as [|g faces].
    + cbn [scan_faces] in E2. injection E2 as <-. exact H1.
    + apply H2; [exact Hw|discriminate|right; exact H1].
Qed.

(** A round of the loop returns when the weights are not negative. *)
Lemma tmfg_round_ok (p : nat) (corr w : matrix) (s : tmfg_state) :
  tmfg_inv p s -> nonneg_matrix w -> t_not_in s <> [] ->
  exists s', tmfg_round corr w s = Ok s'.
Proof.
  intros Hinv Hw Hne. unfold tmfg_round. cbv zeta.
  destruct (scan_faces_ok w (t_not_in s) (t_faces s) Hne ((-1)%Q, None))
    as [st [E Hfound]].
  rewrite E. cbn [bind].
  assert (Hsome : snd st <> None).
  { apply Hfound; [exact Hw|apply (ti_faces_ne p s Hinv)|left; reflexivity]. }
  apply scan_faces_result in E.
  destruct E as [->|[n [c [f [-> [Hn Hf]]]]]]; [cbn [snd] in Hsome; congruence|].
  cbn [snd].
  destruct (ti_faces p s Hinv f Hf) as [Hlen _].
  destruct (face_three f Hlen) as [f0 [f1 [f2 ->]]].
  rewrite add_triangular_face_int by (cbn [length]; lia). cbn [bind].
  unfold _calculate_new_faces. cbn [index nth_error bind].
  eexists. reflexivity.
Qed.

Lemma tmfg_loop_ok (p : nat) (corr w : matrix) (fuel : nat) :
  nonneg_matrix w ->
  forall s, tmfg_inv p s -> exists s', tmfg_loop fuel corr w s = Ok s'.
Proof.
  intros Hw. induction fuel as [|fuel IH]; intros s Hinv; cbn [tmfg_loop].
  - destruct (t_not_in s); eexists; reflexivity.
  - destruct (t_not_in s) as [|x l] eqn:E; [eexists; reflexivity|].
    destruct (tmfg_round_ok p corr w s Hinv Hw) as [s1 E1]; [rewrite E; discriminate|].
    rewrite E1. cbn [bind]. apply IH. eapply tmfg_inv_round; eassumption.
Qed.

(** X2.  With [absolute], [tmfg] returns a graph for every square matrix
    with at least 4 rows. *)
Lemma tmfg_absolute_returns (corr : matrix) :
  is_square corr -> 4 <= shape0 corr -> exists G, tmfg corr true = Ok G.
Proof.
  intros Hsq Hp. unfold tmfg, tmfg_from. cbv zeta.
  set (p := shape0 corr) in *.
  pose proof (order_perm (sum_axis0 (np_abs corr))) as HP.
  rewrite sum_axis0_length, np_abs_shape1, (is_square_shape1 corr Hsq) in HP. fold p in HP.
  destruct (reversed (argsort (sum_axis0 (np_abs corr))))
    as [|i0 [|i1 [|i2 [|i3 rest]]]] eqn:Eind;
    try (apply Permutation_length in HP; rewrite length_seq in HP; cbn [length] in HP; lia).
  destruct (seed_state_inv corr p i0 i1 i2 i3 rest Hp HP)
    as [D01 [D02 [D03 [D12 [D13 [D23 Hinv]]]]]].
  rewrite tmfg_seed_eq by assumption. cbn [bind].
  destruct (tmfg_loop_ok p corr (np_abs corr)
              (length (t_not_in (seed_state corr p i0 i1 i2 i3)))
              (np_abs_nonneg corr) _ Hinv) as [s Hs].
  rewrite Hs. cbn [bind]. eexists. reflexivity.
Qed.

(** X1.  For a square matrix with at least 4 rows, a graph that [tmfg]
    returns has the nodes [0 .. p-1], exactly [3p - 6] edges, and is
    connected. *)
Lemma tmfg_structure (corr : matrix) (absolute : bool) (G : Graph) :
  is_square corr -> 4 <= shape0 corr ->
  tmfg corr absolute = Ok G ->
  node_set_is_range G (shape0 corr) /\
  number_of_edges G = 3 * shape0 corr - 6 /\
  connected (nodes G) (pairs G).
Proof.
  intros Hsq Hp. unfold tmfg. destruct absolute.
  - apply tmfg_from_structure; [|exact Hp].
    rewrite np_abs_shape1. apply is_square_shape1. exact Hsq.
  - apply tmfg_from_structure; [|exact Hp].
    apply is_square_shape1. exact Hsq.
Qed.

(** ** More about [threshold] *)

Lemma Qltb_true (x y : Q) : (x < y)%Q -> Qltb x y = true.
Proof.
  intros H. unfold Qltb. destruct (Qle_bool y x) eqn:E; [|reflexivity].
  apply Qle_bool_iff in E. lra.
Qed.

Lemma Qltb_lt (x y : Q) : Qltb x y = true <-> (x < y)%Q.
Proof.
  split; [|apply Qltb_true]. unfold Qltb. intros H.
  apply negb_true_iff in H. apply Qnot_le_lt. intros Hle.
  apply Qle_bool_iff in Hle. congruence.
Qed.

Lemma Qltb_ge (x y : Q) : Qltb x y = false <-> (y <= x)%Q.
Proof.
  split; [|apply Qltb_false]. unfold Qltb. intros H.
  apply negb_false_iff in H. apply Qle_bool_iff. exact H.
Qed.

Lemma nth_map_matrix (f : Q -> Q) (a : matrix) (i : nat) :
  nth i (map_matrix f a) [] = map f (nth i a []).
Proof.
  unfold map_matrix. change (@nil Q) with (map f []) at 1. apply map_nth.
Qed.

Lemma get_map_matrix (f : Q -> Q) (a : matrix) (i j : nat) :
  get (map_matrix f a) i j
  = if j <? length (nth i a []) then f (get a i j) else 0%Q.
Proof.
  unfold get. rewrite nth_map_matrix.
  destruct (Nat.ltb_spec j (length (nth i a []))) as [H|H].
  - rewrite (nth_indep (map f (nth i a [])) 0%Q (f 0%Q))
      by (rewrite length_map; exact H).
    apply map_nth.
  - apply nth_overflow. rewrite length_map. exact H.
Qed.

Lemma get_outside (a : matrix) (i j : nat) :
  length (nth i a []) <= j -> get a i j = 0%Q.
Proof. intros H. unfold get. apply nth_overflow. exact H. Qed.

Lemma get_threshold (corr : matrix) (t : Q) (binary absolute : bool) (i j : nat) :
  get (threshold corr t binary absolute) i j
  = if j <? length (nth i corr [])
    then threshold_entry t binary absolute (get corr i j) else 0%Q.
Proof. rewrite threshold_entrywise. apply get_map_matrix. Qed.

Lemma threshold_shape (corr : matrix) (t : Q) (binary absolute : bool) :
  length (threshold corr t binary absolute) = length corr /\
  forall i, length (nth i (threshold corr t binary absolute) []) = length (nth i corr []).
Proof.
  rewrite threshold_entrywise. split.
  - unfold map_matrix. apply length_map.
  - intros i. rewrite nth_map_matrix. apply length_map.
Qed.

(** X18.  Without [binary], [threshold] returns an array of the shape of
    its argument in which an entry is the entry of the argument when that
    entry (its absolute value, with [absolute]) is at least the threshold,
    and 0 when it is below. *)
Theorem threshold_keeps_or_zeroes (corr : matrix) (t : Q) (absolute : bool) (i j : nat) :
  let R := threshold corr t false absolute in
  let x := get corr i j in
  let v := if absolute then Qabs x else x in
  length R = length corr /\
  length (nth i R []) = length (nth i corr []) /\
  ((t <= v)%Q -> get R i j = x) /\
  ((v < t)%Q -> get R i j = 0%Q).
Proof.
  cbv zeta. destruct (threshold_shape corr t false absolute) as [H1 H2].
  split; [exact H1|]. split; [apply H2|].
  rewrite get_threshold.
  destruct (Nat.ltb_spec j (length (nth i corr []))) as [H|H].
  - unfold threshold_entry. destruct absolute; split; intros Hv.
    + rewrite (Qltb_false _ _ Hv). reflexivity.
    + rewrite (Qltb_true _ _ Hv). reflexivity.
    + rewrite (Qltb_false _ _ Hv). reflexivity.
    + rewrite (Qltb_true _ _ Hv). reflexivity.
  - rewrite (get_outside corr i j H). split; reflexivity.
Qed.

(** X19.  With [binary], every entry of the result of [threshold] is 0 or
    1: it is 1 where the entry of the argument is not 0 and reaches the
    threshold, and 0 elsewhere. *)
Theorem threshold_binary_values (corr : matrix) (t : Q) (absolute : bool) (i j : nat) :
  let R := threshold corr t true absolute in
  let x := get corr i j in
  let v := if absolute then Qabs x else x in
  ((get R i j == 0)%Q \/ get R i j = 1%Q) /\
  ((t <= v)%Q -> ~ (x == 0)%Q -> get R i j = 1%Q) /\
  ((v < t)%Q \/ (x == 0)%Q -> (get R i j == 0)%Q).
Proof.
  cbv zeta. rewrite get_threshold.
  destruct (Nat.ltb_spec j (length (nth i corr []))) as [H|H].
  2:{ rewrite (get_outside corr i j H). split; [left; reflexivity|].
      split; [intros _ Hx; exfalso; apply Hx; reflexivity|reflexivity]. }
  set (x := get corr i j).
  assert (Hone : forall y : Q, ~ (y == 0)%Q -> Qltb 0 (Qabs y) = true).
  { intros y Hy. apply Qltb_true.
    destruct (Qlt_le_dec 0 (Qabs y)) as [Hlt|Hle]; [exact Hlt|exfalso].
    apply Hy. apply Qabs_Qle_condition in Hle. lra. }
  assert (Hzero : forall y : Q, (y == 0)%Q -> Qltb 0 (Qabs y) = false).
  { intros y Hy. apply Qltb_false. rewrite Hy. apply Qle_refl. }
  unfold threshold_entry.
  set (y := if absolute then if Qltb (Qabs x) t then 0%Q else x
            else if Qltb x t then 0%Q else x).
  assert (Hy : (t <= (if absolute then Qabs x else x))%Q /\ y = x \/
               ((if absolute then Qabs x else x) < t)%Q /\ y = 0%Q).
  { unfold y. destruct absolute.
    - destruct (Qltb (Qabs x) t) eqn:E.
      + right. split; [apply Qltb_lt; exact E|reflexivity].
      + left. split; [apply Qltb_ge; exact E|reflexivity].
    - destruct (Qltb x t) eqn:E.
      + right. split; [apply Qltb_lt; exact E|reflexivity].
      + left. split; [apply Qltb_ge; exact E|reflexivity]. }
  clearbody y.
  destruct (Qeq_dec y 0) as [Ey|Ey].
  - rewrite (Hzero y Ey). split; [left; exact Ey|]. split.
    + intros Hv Hx. exfalso. destruct Hy as [[_ ->]|[Hlt _]]; [contradiction|lra].
    + intros _. exact Ey.
  - rewrite (Hone y Ey). split; [right; reflexivity|]. split.
    + reflexivity.
    + intros [Hv|Hx]; exfalso.
      * destruct Hy as [[Hle _]|[_ ->]]; [lra|apply Ey; reflexivity].
      * destruct Hy as [[_ ->]|[_ ->]]; [contradiction|apply Ey; reflexivity].
Qed.

Lemma threshold_entry_compose (t1 t2 : Q) (absolute : bool) (x : Q) :
  (t1 <= t2)%Q ->
  threshold_entry t2 false absolute (threshold_entry t1 false absolute x)
  = threshold_entry t2 false absolute x /\
  threshold_entry t1 false absolute (threshold_entry t2 false absolute x)
  = threshold_entry t2 false absolute x.
Proof.
  intros Hle. unfold threshold_entry. destruct absolute.
  - destruct (Qltb (Qabs x) t1) eqn:E1, (Qltb (Qabs x) t2) eqn:E2;
      rewrite ?E1, ?E2; split; try reflexivity;
      try (destruct (Qltb (Qabs 0) t2); reflexivity);
      try (destruct (Qltb (Qabs 0) t1); reflexivity).
    + apply Qltb_lt in E1. apply Qltb_ge in E2. lra.
    + apply Qltb_lt in E1. apply Qltb_ge in E2. lra.
  - destruct (Qltb x t1) eqn:E1, (Qltb x t2) eqn:E2;
      rewrite ?E1, ?E2; split; try reflexivity;
      try (destruct (Qltb 0 t2); reflexivity);
      try (destruct (Qltb 0 t1); reflexivity).
    + apply Qltb_lt in E1. apply Qltb_ge in E2. lra.
    + apply Qltb_lt in E1. apply Qltb_ge in E2. lra.
Qed.

(** X20.  Without [binary], two thresholds in a row, in either order, give
    what the larger of them gives alone. *)
Theorem threshold_twice_is_larger (corr : matrix) (t1 t2 : Q) (absolute : bool) :
  (t1 <= t2)%Q ->
  threshold (threshold corr t1 false absolute) t2 false absolute
  = threshold corr t2 false absolute /\
  threshold (threshold corr t2 false absolute) t1 false absolute
  = threshold corr t2 false absolute.
Proof.
  intros Hle. rewrite !threshold_entrywise, !map_matrix_compose.
  split; apply map_matrix_ext_in; intros row x _ _;
    apply (threshold_entry_compose t1 t2 absolute x Hle).
Qed.

Lemma threshold_twice_is_larger_witness :
  let corr := [[1; 1 # 2; 1 # 3]; [1 # 2; 1; 1 # 4]; [1 # 3; 1 # 4; 1]]%Q in
  threshold (threshold corr (3 # 10) false true) (2 # 5) false true
  = threshold corr (2 # 5) false true /\
  threshold (threshold corr (2 # 5) false true) (3 # 10) false true
  = threshold corr (2 # 5) false true.
Proof.
  apply threshold_twice_is_larger. unfold Qle. simpl. lia.
Defined.

Lemma Qabs_nonneg_eq (x : Q) : (0 <= x)%Q -> Qabs x = x.
Proof.
  destruct x as [n d]. unfold Qle, Qabs. simpl. intros H.
  rewrite Z.abs_eq by lia. reflexivity.
Qed.

Lemma np_abs_nonneg_id (corr : matrix) : nonneg_entries corr -> np_abs corr = corr.
Proof.
  intros H. unfold np_abs.
  transitivity (map_matrix (fun x => x) corr).
  - apply map_matrix_ext_in. intros row x Hr Hx. apply Qabs_nonneg_eq. eapply H; eassumption.
  - unfold map_matrix. rewrite (map_ext _ (fun r => r)); [apply map_id|].
    intros r. apply map_id.
Qed.

(** X21.  On a matrix without negative entries the flag [absolute] makes
    no difference to [threshold]. *)
Theorem threshold_absolute_nonneg (corr : matrix) (t : Q) (binary : bool) :
  nonneg_entries corr ->
  threshold corr t binary true = threshold corr t binary false.
Proof.
  intros H. rewrite !threshold_entrywise.
  apply map_matrix_ext_in. intros row x Hr Hx.
  unfold threshold_entry. rewrite (Qabs_nonneg_eq x (H row x Hr Hx)). reflexivity.
Qed.

Lemma threshold_absolute_nonneg_witness :
  let corr := [[1; 1 # 2]; [1 # 2; 1]]%Q in
  threshold corr (3 # 4) true true = threshold corr (3 # 4) true false.
Proof.
  apply threshold_absolute_nonneg.
  intros row x Hr Hx. simpl in Hr.
  destruct Hr as [<-|[<-|[]]]; simpl in Hx;
    destruct Hx as [<-|[<-|[]]]; unfold Qle; simpl; lia.
Defined.

Lemma nonneg_entriesb_spec (corr : matrix) :
  nonneg_entriesb corr = true -> nonneg_entries corr.
Proof.
  unfold nonneg_entriesb. intros H row x Hr Hx.
  rewrite forallb_forall in H. specialize (H row Hr).
  rewrite forallb_forall in H. apply Qle_bool_iff. apply H. exact Hx.
Qed.

(** ** More about the partial correlations *)

Lemma Qmult_comm_eq (x y : Q) : (x * y)%Q = (y * x)%Q.
Proof. unfold Qmult. f_equal; [apply Z.mul_comm|apply Pos.mul_comm]. Qed.

Lemma get_zeros2 (p i j : nat) : get (zeros2 p) i j = 0%Q.
Proof.
  unfold get, zeros2.
  destruct (Nat.lt_ge_cases i p) as [Hi|Hi].
  - assert (E : nth i (repeat (repeat 0%Q p) p) [] = repeat 0%Q p).
    { apply (repeat_spec p). apply nth_In. rewrite repeat_length. exact Hi. }
    rewrite E. apply nth_repeat.
  - rewrite (nth_overflow _ []) by (rewrite repeat_length; exact Hi).
    destruct j; reflexivity.
Qed.

(** Taking one member out of a list without duplicates. *)
Lemma filter_split_one (l : list nat) (k : nat) :
  NoDup l -> In k l -> Permutation l (k :: filter (fun j => negb (k =? j)) l).
Proof.
  induction l as [|y l IH]; intros Hnd Hin; [destruct Hin|].
  inversion Hnd as [|? ? Hy Hnd']; subst. cbn [filter].
  destruct Hin as [->|Hin].
  - rewrite Nat.eqb_refl. cbn [negb]. constructor.
    assert (E : filter (fun j => negb (k =? j)) l = l).
    { rewrite (filter_ext_in (fun j => negb (k =? j)) (fun _ => true)).
      - clear. induction l as [|x l IH]; [reflexivity|]. cbn [filter]. rewrite IH. reflexivity.
      - intros j Hj. destruct (Nat.eqb_spec k j) as [->|]; [contradiction|reflexivity]. }
    rewrite E. reflexivity.
  - destruct (Nat.eqb_spec k y) as [->|Hne]; [contradiction|]. cbn [negb].
    rewrite (IH Hnd' Hin) at 1. apply perm_swap.
Qed.

Lemma filter_twice {A : Type} (f g : A -> bool) (l : list A) :
  filter g (filter f l) = filter (fun x => f x && g x) l.
Proof.
  induction l as [|x l IH]; [reflexivity|]. cbn [filter].
  destruct (f x); cbn [filter andb]; rewrite IH; reflexivity.
Qed.

Section NumericMore.

Variable sqrt : Q -> Q.
Variable linalg_inv : matrix -> Exc matrix.

(** X22.  Off the diagonal the entry [[r, c]] of [partial_correlation] is
    [- prec[r, c] / sqrt(prec[r, r] * prec[c, c])], for the inverse [prec]
    that the inversion returned; the result is symmetric when [prec] is. *)
Theorem partial_correlation_off_diagonal (corr prec : matrix) :
  linalg_inv corr = Ok prec ->
  has_shape (shape0 corr) prec ->
  exists R,
    partial_correlation sqrt linalg_inv corr = Ok R /\
    (forall r c, r < shape0 corr -> c < shape0 corr -> r <> c ->
       get R r c = (- get prec r c / sqrt (get prec r r * get prec c c))%Q) /\
    ((forall r c, r < shape0 corr -> c < shape0 corr -> get prec r c = get prec c r) ->
     forall r c, r < shape0 corr -> c < shape0 corr -> get R r c = get R c r).
Proof.
  intros Hinv _.
  destruct (partial_correlation_entry sqrt linalg_inv corr prec Hinv) as [R [HR Hent]].
  exists R. split; [exact HR|]. split; [exact Hent|].
  intros Hsym r c Hr Hc. destruct (Nat.eq_dec r c) as [->|Hne]; [reflexivity|].
  rewrite (Hent r c) by assumption.
  rewrite (Hent c r) by (try assumption; congruence).
  rewrite (Hsym r c Hr Hc), (Qmult_comm_eq (get prec r r)). reflexivity.
Qed.

(** The cells that the last loops of [dependency_network] assign. *)
Lemma filter_loops_cells (D : list matrix) (p : nat) (a : matrix) :
  has_shape p a ->
  has_shape p (filter_loops D p a) /\
  forall i, i < p -> get (filter_loops D p a) i i = get a i i.
Proof.
  intros Ha. unfold filter_loops.
  pose (V := fun c : nat * nat =>
               (np_sum (masked_row D p (snd c) (fst c)) / inject_Z (Z.of_nat p - 1))%Q).
  destruct (writes_cells_fold matrix (nat * nat) (has_shape p) (cell2_valid p) cell2_get
              (fun a i => fold_left
                 (fun a k => if i =? k then a else set2 a k i (V (k, i))) (seq 0 p) a)
              (fun i c => existsb (fun k =>
                 negb (i =? k) && ((fst c =? k) && (snd c =? i))) (seq 0 p))
              V (seq 0 p)) with (a := a) as [Hok Hget].
  - intros i' Hi'. apply in_seq in Hi'.
    apply (writes_cells_fold matrix (nat * nat) (has_shape p) (cell2_valid p) cell2_get
             (fun a k => if i' =? k then a else set2 a k i' (V (k, i')))
             (fun k c => negb (i' =? k) && ((fst c =? k) && (snd c =? i')))).
    intros k' Hk'. apply in_seq in Hk'.
    destruct (i' =? k'); simpl.
    + apply writes_cells_skip.
    + apply set2_writes; lia.
  - exact Ha.
  - split; [exact Hok|]. intros i Hi.
    specialize (Hget (i, i)). unfold cell2_get in Hget. cbn [fst snd] in Hget.
    unfold V in Hget. cbn [fst snd] in Hget. unfold V.
    rewrite Hget by (split; cbn [fst snd]; assumption).
    match goal with |- (if ?b then _ else _) = _ => assert (E : b = false) end.
    { apply not_true_is_false. intros Ht.
      apply existsb_exists in Ht. destruct Ht as [i' [_ Ht]].
      apply existsb_exists in Ht. destruct Ht as [k' [_ Ht]].
      apply andb_true_iff in Ht. destruct Ht as [H1 H2].
      apply andb_true_iff in H2. destruct H2 as [H2 H3].
      apply negb_true_iff in H1.
      apply Nat.eqb_eq in H2, H3. apply Nat.eqb_neq in H1. congruence. }
    rewrite E. reflexivity.
Qed.

(** X23.  [dependency_network] returns a p x p array with 0 on the
    diagonal: the loops skip [i == k] and the zeros stay. *)
Theorem dependency_network_zero_diagonal (corr : matrix) :
  is_square corr ->
  let R := dependency_network sqrt corr in
  has_shape (shape0 corr) R /\ forall i, i < shape0 corr -> get R i i = 0%Q.
Proof.
  intros _. cbv zeta. unfold dependency_network.
  destruct (filter_loops_cells (dependency_tensor sqrt corr) (shape0 corr)
              (zeros2 (shape0 corr)) (zeros2_shape _)) as [Hok Hd].
  split; [exact Hok|]. intros i Hi. rewrite (Hd i Hi). apply get_zeros2.
Qed.

(** The sum that [dependency_network] takes for [k <> i] holds the
    sentinel [D[i, k, k] = 1] besides the differences for the [j] that
    are neither [i] nor [k]. *)
Lemma masked_row_sum (corr : matrix) (i k : nat) :
  let p := shape0 corr in
  i < p -> k < p -> k <> i ->
  (np_sum (masked_row (dependency_tensor sqrt corr) p i k)
   == 1 + np_sum (map (fun j => get corr i j - calculate_partial_correlation sqrt corr i j k)
                      (filter (fun j => negb (i =? j) && negb (k =? j)) (seq 0 p))))%Q.
Proof.
  intros p Hi Hk Hki. unfold masked_row.
  destruct (dependency_tensor_spec sqrt corr) as [_ [H1 H2]]. fold p in H1, H2.
  set (D := dependency_tensor sqrt corr) in *.
  assert (HP : Permutation (filter (fun j => negb (i =? j)) (seq 0 p))
                 (k :: filter (fun j => negb (i =? j) && negb (k =? j)) (seq 0 p))).
  { rewrite <- filter_twice. apply filter_split_one.
    - apply NoDup_filter. apply seq_NoDup.
    - apply filter_In. split; [apply in_seq; lia|].
      apply negb_true_iff. apply Nat.eqb_neq. congruence. }
  rewrite (np_sum_perm _ _ (Permutation_map (fun j => get3 D i j k) HP)).
  cbn [map]. rewrite np_sum_cons. rewrite (H1 i k Hi Hk).
  apply Qplus_comp; [reflexivity|].
  rewrite (map_ext_in (fun j => get3 D i j k)
             (fun j => (get corr i j - calculate_partial_correlation sqrt corr i j k)%Q));
    [reflexivity|].
  intros j Hj. apply filter_In in Hj. destruct Hj as [Hj Hb].
  apply in_seq in Hj. apply andb_true_iff in Hb. destruct Hb as [Hb1 Hb2].
  apply negb_true_iff in Hb1, Hb2. apply Nat.eqb_neq in Hb1, Hb2.
  apply H2; try lia; congruence.
Qed.

(** X24.  For [k <> i] the entry [[k, i]] of [dependency_network] is
    [(1 + S) / (p - 1)], where [S] is the sum of
    [corr[i, j] - calculate_partial_correlation(corr, i, j, k)] over the
    [j] other than [i] and [k]: the sentinel [D[i, k, k] = 1] is part of
    every average. *)
Theorem dependency_network_sentinel_share (corr : matrix) (i k : nat) :
  let p := shape0 corr in
  is_square corr ->
  i < p -> k < p -> k <> i ->
  (get (dependency_network sqrt corr) k i
   == (1 + np_sum (map (fun j => get corr i j
                                 - calculate_partial_correlation sqrt corr i j k)
                       (filter (fun j => negb (i =? j) && negb (k =? j)) (seq 0 p))))
      / inject_Z (Z.of_nat p - 1))%Q.
Proof.
  intros p _ Hi Hk Hki. subst p. unfold dependency_network.
  rewrite filter_loops_spec by assumption.
  rewrite (masked_row_sum corr i k Hi Hk Hki). reflexivity.
Qed.

(** X25.  For two variables [dependency_network] does not depend on the
    correlations: the result is 0 on the diagonal and 1 off it. *)
Theorem dependency_network_two_variables (corr : matrix) :
  is_square corr ->
  shape0 corr = 2 ->
  let R := dependency_network sqrt corr in
  get R 0 0 = 0%Q /\ (get R 0 1 == 1)%Q /\ (get R 1 0 == 1)%Q /\ get R 1 1 = 0%Q.
Proof.
  intros _ Hp R.
  destruct (filter_loops_cells (dependency_tensor sqrt corr) (shape0 corr)
              (zeros2 (shape0 corr)) (zeros2_shape _)) as [_ Hd].
  assert (Hoff : forall i k, i < 2 -> k < 2 -> k <> i -> (get R k i == 1)%Q).
  { intros i k Hi Hk Hki. unfold R, dependency_network.
    rewrite filter_loops_spec by (rewrite ?Hp; assumption).
    rewrite (masked_row_sum corr i k) by (rewrite ?Hp; assumption).
    rewrite Hp.
    assert (E : filter (fun j => negb (i =? j) && negb (k =? j)) (seq 0 2) = []).
    { destruct i as [|[|i]], k as [|[|k]]; try lia; try reflexivity. }
    rewrite E. cbn [map]. reflexivity. }
  split; [|split; [|split]].
  - unfold R, dependency_network. rewrite (Hd 0) by lia. apply get_zeros2.
  - apply Hoff; lia.
  - apply Hoff; lia.
  - unfold R, dependency_network. rewrite (Hd 1) by lia. apply get_zeros2.
Qed.

(** X26.  [calculate_partial_correlation] lies between -1 and 1 when the
    denominator is positive, the square root is one, and the
    determinant of the trio is not negative. *)
Theorem calculate_partial_correlation_bounded (corr : matrix) (i j k : nat) :
  let dem := ((1 - get corr i k ^ 2) * (1 - get corr k j ^ 2))%Q in
  is_square corr -> i < shape0 corr -> j < shape0 corr -> k < shape0 corr ->
  (0 < dem)%Q ->
  is_sqrt (sqrt dem) dem ->
  (0 <= trio_det (get corr i j) (get corr i k) (get corr k j))%Q ->
  (- (1) <= calculate_partial_correlation sqrt corr i j k)%Q /\
  (calculate_partial_correlation sqrt corr i j k <= 1)%Q.
Proof.
  intros dem _ _ _ _ Hdem [Hs0 Hss] Hdet.
  unfold calculate_partial_correlation. fold dem.
  set (a := get corr i j) in *. set (b := get corr i k) in *.
  set (c := get corr k j) in *. set (s := sqrt dem) in *.
  assert (Hspos : (0 < s)%Q).
  { destruct (Qlt_le_dec 0 s) as [H|H]; [exact H|exfalso].
    assert (Hz : (s == 0)%Q) by lra. rewrite Hz in Hss. lra. }
  assert (Hnum : ((a - b * c) * (a - b * c) <= s * s)%Q).
  { rewrite Hss. unfold dem, trio_det in *.
    assert (E : ((1 - b ^ 2) * (1 - c ^ 2) - (a - b * c) * (a - b * c)
                 == 1 + 2 * a * b * c - a * a - b * b - c * c)%Q) by ring.
    lra. }
  set (n := (a - b * c)%Q) in *.
  assert (Hup : (n <= s)%Q).
  { destruct (Qlt_le_dec s n) as [H|H]; [exfalso|exact H].
    assert (H1 : (s * s < n * n)%Q) by nra. lra. }
  assert (Hlo : (- s <= n)%Q).
  { destruct (Qlt_le_dec n (- s)) as [H|H]; [exfalso|exact H].
    assert (H1 : (s * s < n * n)%Q) by nra. lra. }
  split.
  - apply Qle_shift_div_l; [exact Hspos|]. lra.
  - apply Qle_shift_div_r; [exact Hspos|]. lra.
Qed.

End NumericMore.

Lemma partial_correlation_off_diagonal_witness :
  exists R,
    partial_correlation sqrt_exact inv_2x2 [[1; 3 # 5]; [3 # 5; 1]]%Q = Ok R /\
    (forall r c, r < 2 -> c < 2 -> r <> c ->
       get R r c
       = (- get [[25 # 16; - (15 # 16)]; [- (15 # 16); 25 # 16]] r c
          / sqrt_exact (get [[25 # 16; - (15 # 16)]; [- (15 # 16); 25 # 16]] r r
                        * get [[25 # 16; - (15 # 16)]; [- (15 # 16); 25 # 16]] c c))%Q) /\
    ((forall r c, r < 2 -> c < 2 ->
        get [[25 # 16; - (15 # 16)]; [- (15 # 16); 25 # 16]]%Q r c
        = get [[25 # 16; - (15 # 16)]; [- (15 # 16); 25 # 16]]%Q c r) ->
     forall r c, r < 2 -> c < 2 -> get R r c = get R c r).
Proof.
  apply (partial_correlation_off_diagonal sqrt_exact inv_2x2 [[1; 3 # 5]; [3 # 5; 1]]%Q).
  - vm_compute. reflexivity.
  - repeat constructor.
Defined.

Lemma dependency_network_sentinel_share_witness :
  let corr := [[1; 1 # 2; 3 # 5]; [1 # 2; 1; 0]; [3 # 5; 0; 1]]%Q in
  (get (dependency_network sqrt_exact corr) 2 0
   == (1 + np_sum (map (fun j => get corr 0 j
                                 - calculate_partial_correlation sqrt_exact corr 0 j 2)
                       (filter (fun j => negb (0 =? j) && negb (2 =? j)) (seq 0 3))))
      / inject_Z (Z.of_nat 3 - 1))%Q.
Proof.
  apply (dependency_network_sentinel_share sqrt_exact
           [[1; 1 # 2; 3 # 5]; [1 # 2; 1; 0]; [3 # 5; 0; 1]]%Q 0 2);
    [repeat constructor|simpl; lia..].
Defined.

Lemma dependency_network_two_variables_witness :
  let R := dependency_network sqrt_exact [[1; 3 # 5]; [3 # 5; 1]]%Q in
  get R 0 0 = 0%Q /\ (get R 0 1 == 1)%Q /\ (get R 1 0 == 1)%Q /\ get R 1 1 = 0%Q.
Proof.
  apply (dependency_network_two_variables sqrt_exact [[1; 3 # 5]; [3 # 5; 1]]%Q).
  - repeat constructor.
  - reflexivity.
Defined.

Lemma calculate_partial_correlation_bounded_witness :
  let corr := [[1; 1 # 2; 3 # 5]; [1 # 2; 1; 0]; [3 # 5; 0; 1]]%Q in
  (- (1) <= calculate_partial_correlation sqrt_exact corr 0 1 2)%Q /\
  (calculate_partial_correlation sqrt_exact corr 0 1 2 <= 1)%Q.
Proof.
  apply (calculate_partial_correlation_bounded sqrt_exact
           [[1; 1 # 2; 3 # 5]; [1 # 2; 1; 0]; [3 # 5; 0; 1]]%Q 0 1 2).
  - repeat constructor.
  - simpl; lia.
  - simpl; lia.
  - simpl; lia.
  - vm_compute. reflexivity.
  - split; vm_compute; [discriminate|reflexivity].
  - vm_compute. discriminate.
Defined.

Lemma dependency_network_zero_diagonal_witness :
  let corr := [[1; 1 # 2; 3 # 5]; [1 # 2; 1; 0]; [3 # 5; 0; 1]]%Q in
  let R := dependency_network sqrt_exact corr in
  has_shape (shape0 corr) R /\ forall i, i < shape0 corr -> get R i i = 0%Q.
Proof.
  apply (dependency_network_zero_diagonal sqrt_exact
           [[1; 1 # 2; 3 # 5]; [1 # 2; 1; 0]; [3 # 5; 0; 1]]%Q).
  repeat constructor.
Defined.

(** ** Graph operations, in general *)

Lemma pairs_add_node (G : Graph) (n : node) : pairs (add_node G n) = pairs G.
Proof. unfold pairs. rewrite edges_add_node. reflexivity. Qed.

Lemma has_edge_add_node (G : Graph) (n u v : node) :
  has_edge (add_node G n) u v = has_edge G u v.
Proof. unfold has_edge. rewrite edges_add_node. reflexivity. Qed.

Lemma pairs_add_edge (G : Graph) (u v : node) (w : Q) :
  pairs (add_edge G u v w) = add_pair (pairs G) u v.
Proof.
  unfold add_edge, add_pair. rewrite !has_edge_add_node, <- has_edge_pairs.
  destruct (has_edge G u v); unfold pairs; cbn [edges]; rewrite !edges_add_node.
  - rewrite map_map. apply map_ext. intros e.
    destruct (same_edge u v (fst e)); reflexivity.
  - rewrite map_app. reflexivity.
Qed.

Lemma nodes_add_edge (G : Graph) (u v : node) (w : Q) (a : node) :
  In a (nodes (add_edge G u v w)) <-> a = u \/ a = v \/ In a (nodes G).
Proof.
  unfold add_edge.
  destruct (has_edge (add_node (add_node G u) v) u v); cbn [nodes];
    rewrite !nodes_add_node; tauto.
Qed.

Lemma nodup_add_edge (G : Graph) (u v : node) (w : Q) :
  NoDup (nodes G) -> NoDup (nodes (add_edge G u v w)).
Proof.
  intros H. unfold add_edge.
  destruct (has_edge (add_node (add_node G u) v) u v); cbn [nodes];
    apply nodup_add_node; apply nodup_add_node; exact H.
Qed.

Lemma In_add_pair (E : list (node * node)) (u v : node) (e : node * node) :
  In e (add_pair E u v) -> In e E \/ e = (u, v).
Proof.
  unfold add_pair. destruct (existsb (same_edge u v) E); [auto|].
  rewrite in_app_iff. cbn [In]. intros [H|[H|[]]]; auto.
Qed.

Lemma add_pair_incl (E : list (node * node)) (u v : node) (e : node * node) :
  In e E -> In e (add_pair E u v).
Proof.
  unfold add_pair. destruct (existsb (same_edge u v) E); [auto|].
  intros H. apply in_or_app. left. exact H.
Qed.

Lemma same_edge_spec (u v : node) (e : node * node) :
  same_edge u v e = true <-> e = (u, v) \/ e = (v, u).
Proof.
  destruct e as [a b]. unfold same_edge. cbn [fst snd].
  rewrite orb_true_iff, !andb_true_iff, !Nat.eqb_eq.
  split; intros [H|H].
  - left. destruct H; congruence.
  - right. destruct H; congruence.
  - left. injection H as -> ->. auto.
  - right. injection H as -> ->. auto.
Qed.

Lemma has_edge_add_edge (G : Graph) (u v : node) (w : Q) :
  has_edge (add_edge G u v w) u v = true.
Proof.
  rewrite has_edge_pairs, pairs_add_edge. unfold add_pair.
  destruct (existsb (same_edge u v) (pairs G)) eqn:E; [exact E|].
  rewrite existsb_app. cbn [existsb]. rewrite same_edge_refl.
  rewrite orb_true_r. reflexivity.
Qed.

Lemma has_edge_add_edge_mono (G : Graph) (u v : node) (w : Q) (a b : node) :
  has_edge G a b = true -> has_edge (add_edge G u v w) a b = true.
Proof.
  rewrite !has_edge_pairs, pairs_add_edge. intros H.
  apply existsb_exists in H. destruct H as [e [He Hs]].
  apply existsb_exists. exists e. split; [apply add_pair_incl; exact He|exact Hs].
Qed.

Lemma In_edges_add_edge (G : Graph) (u v : node) (w : Q) (e : node * node * Q) :
  In e (edges (add_edge G u v w)) ->
  In e (edges G) \/ (snd e = w /\ (fst e = (u, v) \/ fst e = (v, u))).
Proof.
  unfold add_edge.
  destruct (has_edge (add_node (add_node G u) v) u v); cbn [edges];
    rewrite !edges_add_node.
  - rewrite in_map_iff. intros [e0 [He He0]].
    destruct (same_edge u v (fst e0)) eqn:Es.
    + right. subst e. cbn [fst snd]. split; [reflexivity|].
      apply same_edge_spec. exact Es.
    + left. subst e. exact He0.
  - rewrite in_app_iff. cbn [In]. intros [H|[H|[]]]; [left; exact H|right].
    subst e. cbn [fst snd]. split; [reflexivity|left; reflexivity].
Qed.

Lemma edges_from_add_edge (corr : matrix) (p : nat) (G : Graph) (u v : node) :
  edges_from corr p G -> u < p -> v < p -> u <> v ->
  edges_from corr p (add_edge G u v (get corr u v)).
Proof.
  intros HG Hu Hv Hne a b w H.
  apply In_edges_add_edge in H. destruct H as [H|[Hw Hab]]; [apply HG; exact H|].
  cbn [fst snd] in Hw, Hab. subst w.
  destruct Hab as [Hab|Hab]; injection Hab as -> ->;
    repeat split; auto.
Qed.

Lemma edges_from_empty (corr : matrix) (p : nat) (V : list node) :
  edges_from corr p (mkGraph V []).
Proof. intros u v w []. Qed.

Lemma In_firstn {A : Type} (n : nat) (l : list A) (x : A) :
  In x (firstn n l) -> In x l.
Proof.
  revert l. induction n as [|n IH]; intros [|y l] H; cbn [firstn] in H;
    try contradiction.
  destruct H as [H|H]; [left; exact H|right; apply IH; exact H].
Qed.

(** ** k nearest neighbours *)

Lemma column_length (corr : matrix) (i : nat) : length (column corr i) = shape0 corr.
Proof. unfold column. apply length_map. Qed.

Lemma neighbours_of_spec (corr : matrix) (k : Z) (i j : node) :
  In j (neighbours_of corr k i) -> j < shape0 corr /\ j <> i.
Proof.
  unfold neighbours_of. cbv zeta. intros H.
  assert (H' : In j (filter (fun j => negb (j =? i))
                       (reversed (argsort (column corr i))))).
  { destruct (k <? 0)%Z; [exact H|]. eapply In_firstn. exact H. }
  apply filter_In in H'. destruct H' as [Hin Hb]. split.
  - apply (Permutation_in _ (order_perm (column corr i))) in Hin.
    apply in_seq in Hin. rewrite column_length in Hin. lia.
  - apply negb_true_iff in Hb. apply Nat.eqb_neq in Hb. exact Hb.
Qed.

Lemma knn_inner_select (corr : matrix) (k : Z) (i : node) (sort : list nat) :
  forall (num : Z) (G : Graph),
    (0 <= num)%Z -> (k < 0 \/ num <= k)%Z ->
    knn_inner corr k i sort num G
    = fold_left (fun G j => add_edge G i j (get corr i j))
        (if (k <? 0)%Z then filter (fun j => negb (j =? i)) sort
         else firstn (Z.to_nat (k - num)) (filter (fun j => negb (j =? i)) sort))
        G.
Proof.
  induction sort as [|j rest IH]; intros num G Hnum Hk.
  - cbn [knn_inner filter]. rewrite firstn_nil. destruct (k <? 0)%Z; reflexivity.
  - cbn [knn_inner filter].
    destruct (Z.eqb_spec num k) as [->|Hne].
    + assert (E : (k <? 0)%Z = false) by (apply Z.ltb_ge; lia).
      rewrite E, Z.sub_diag. reflexivity.
    + destruct (j =? i) eqn:Eji; cbn [negb].
      * apply IH; assumption.
      * rewrite IH by lia.
        destruct (Z.ltb_spec k 0) as [Hneg|Hpos]; [reflexivity|].
        replace (Z.to_nat (k - num)) with (S (Z.to_nat (k - (num + 1)))) by lia.
        reflexivity.
Qed.

Lemma fold_left_ext_all {A B : Type} (f g : A -> B -> A) (l : list B) :
  (forall a b, f a b = g a b) -> forall a, fold_left f l a = fold_left g l a.
Proof.
  intros H. induction l as [|x l IH]; intros a; [reflexivity|].
  cbn [fold_left]. rewrite H. apply IH.
Qed.

Lemma knn_steps (corr : matrix) (k : Z) :
  knn corr k = fold_left (knn_step corr k) (seq 0 (shape0 corr)) nx_Graph.
Proof.
  unfold knn. cbv zeta. apply fold_left_ext_all. intros G i.
  rewrite knn_inner_select by lia. unfold knn_step, neighbours_of. cbv zeta.
  rewrite Z.sub_0_r. reflexivity.
Qed.

Lemma fold_add_edge_mono (i : node) (wt : node -> Q) (a b : node) (l : list node) :
  forall G, has_edge G a b = true ->
    has_edge (fold_left (fun G j => add_edge G i j (wt j)) l G) a b = true.
Proof.
  induction l as [|j l IH]; intros G H; [exact H|].
  cbn [fold_left]. apply IH. apply has_edge_add_edge_mono. exact H.
Qed.

Lemma fold_add_edge_has (i : node) (wt : node -> Q) (j : node) (l : list node) :
  In j l -> forall G,
    has_edge (fold_left (fun G j => add_edge G i j (wt j)) l G) i j = true.
Proof.
  induction l as [|x l IH]; intros Hin G; [destruct Hin|].
  cbn [fold_left]. destruct Hin as [->|Hin].
  - apply fold_add_edge_mono. apply has_edge_add_edge.
  - apply IH. exact Hin.
Qed.

Lemma knn_steps_mono (corr : matrix) (k : Z) (a b : node) (l : list node) :
  forall G, has_edge G a b = true ->
    has_edge (fold_left (knn_step corr k) l G) a b = true.
Proof.
  induction l as [|i l IH]; intros G H; [exact H|].
  cbn [fold_left]. apply IH. unfold knn_step. apply fold_add_edge_mono. exact H.
Qed.

Lemma seq_split (p i : nat) :
  i < p -> seq 0 p = seq 0 i ++ i :: seq (S i) (p - S i).
Proof.
  intros H. replace p with (i + S (p - S i)) at 1 by lia.
  rewrite seq_app. reflexivity.
Qed.

Lemma knn_has_neighbour (corr : matrix) (k : Z) (i j : node) :
  i < shape0 corr -> In j (neighbours_of corr k i) ->
  has_edge (knn corr k) i j = true.
Proof.
  intros Hi Hj. rewrite knn_steps, (seq_split (shape0 corr) i Hi).
  rewrite fold_left_app. cbn [fold_left].
  apply knn_steps_mono. unfold knn_step. apply fold_add_edge_has. exact Hj.
Qed.

Lemma knn_inv_fold (corr : matrix) (k : Z) (i : node) (l : list node) :
  i < shape0 corr ->
  (forall j, In j l -> In j (neighbours_of corr k i)) ->
  forall G, knn_inv corr k G ->
    knn_inv corr k (fold_left (fun G j => add_edge G i j (get corr i j)) l G).
Proof.
  intros Hi. induction l as [|j l IH]; intros Hl G HG; [exact HG|].
  cbn [fold_left]. apply IH; [intros j' Hj'; apply Hl; right; exact Hj'|].
  assert (Hj : In j (neighbours_of corr k i)) by (apply Hl; left; reflexivity).
  destruct (neighbours_of_spec corr k i j Hj) as [Hjp Hji].
  destruct HG as [H1 [H2 [H3 H4]]]. split; [|split; [|split]].
  - intros u v Huv. rewrite pairs_add_edge in Huv.
    apply In_add_pair in Huv. destruct Huv as [Huv|Huv]; [apply H1; exact Huv|].
    injection Huv as -> ->. exact Hj.
  - apply edges_from_add_edge; auto.
  - apply nodup_add_edge. exact H3.
  - intros a Ha. apply nodes_add_edge in Ha.
    destruct Ha as [->|[->|Ha]]; auto.
Qed.

Lemma knn_inv_steps (corr : matrix) (k : Z) (l : list node) :
  (forall i, In i l -> i < shape0 corr) ->
  forall G, knn_inv corr k G -> knn_inv corr k (fold_left (knn_step corr k) l G).
Proof.
  induction l as [|i l IH]; intros Hl G HG; [exact HG|].
  cbn [fold_left]. apply IH; [intros i' Hi'; apply Hl; right; exact Hi'|].
  unfold knn_step. apply knn_inv_fold; auto. apply Hl. left. reflexivity.
Qed.

Lemma knn_inv_result (corr : matrix) (k : Z) : knn_inv corr k (knn corr k).
Proof.
  rewrite knn_steps. apply knn_inv_steps.
  - intros i Hi. apply in_seq in Hi. lia.
  - split; [intros u v []|]. split; [apply edges_from_empty|].
    split; [constructor|intros a []].
Qed.

Lemma fold_add_edge_count (i : node) (wt : node -> Q) (l : list node) :
  forall G,
    number_of_edges (fold_left (fun G j => add_edge G i j (wt j)) l G)
    <= number_of_edges G + length l.
Proof.
  induction l as [|j l IH]; intros G; cbn [fold_left length]; [lia|].
  specialize (IH (add_edge G i j (wt j))).
  pose proof (add_edge_count G i j (wt j)). lia.
Qed.

Lemma neighbours_of_length (corr : matrix) (k : Z) (i : node) :
  (0 <= k)%Z -> length (neighbours_of corr k i) <= Z.to_nat k.
Proof.
  intros Hk. unfold neighbours_of. cbv zeta.
  assert (E : (k <? 0)%Z = false) by (apply Z.ltb_ge; exact Hk).
  rewrite E. apply firstn_le_length.
Qed.

(** X15.  For [k >= 0] the graph of [knn] has at most [p * k] edges. *)
Theorem knn_edge_count (corr : matrix) (k : Z) :
  is_square corr ->
  (0 <= k)%Z -> number_of_edges (knn corr k) <= shape0 corr * Z.to_nat k.
Proof.
  intros _ Hk. rewrite knn_steps.
  assert (H : forall l G,
             number_of_edges (fold_left (knn_step corr k) l G)
             <= number_of_edges G + length l * Z.to_nat k).
  { induction l as [|i l IH]; intros G; cbn [fold_left length]; [lia|].
    specialize (IH (knn_step corr k G i)).
    pose proof (fold_add_edge_count i (fun j => get corr i j)
                  (neighbours_of corr k i) G) as H1.
    change (number_of_edges (knn_step corr k G i)
            <= number_of_edges G + length (neighbours_of corr k i)) in H1.
    pose proof (neighbours_of_length corr k i Hk) as H2.
    lia. }
  specialize (H (seq 0 (shape0 corr)) nx_Graph).
  rewrite length_seq in H. exact H.
Qed.

Lemma others_all (corr : matrix) (i j : node) :
  j < shape0 corr -> j <> i ->
  In j (filter (fun j => negb (j =? i)) (reversed (argsort (column corr i)))).
Proof.
  intros Hj Hne. apply filter_In. split.
  - apply (Permutation_in _ (Permutation_sym (order_perm (column corr i)))).
    apply in_seq. rewrite column_length. lia.
  - apply negb_true_iff. apply Nat.eqb_neq. exact Hne.
Qed.

Lemma others_length (corr : matrix) (i : node) :
  i < shape0 corr ->
  length (filter (fun j => negb (j =? i)) (reversed (argsort (column corr i))))
  <= shape0 corr - 1.
Proof.
  intros Hi.
  pose proof (filter_length (fun j => negb (j =? i))
                (reversed (argsort (column corr i)))) as H.
  assert (Hl : length (reversed (argsort (column corr i))) = shape0 corr).
  { rewrite (Permutation_length (order_perm (column corr i))).
    rewrite length_seq. apply column_length. }
  assert (Hin : In i (filter (fun x => negb (negb (x =? i)))
                        (reversed (argsort (column corr i))))).
  { apply filter_In. split.
    - apply (Permutation_in _ (Permutation_sym (order_perm (column corr i)))).
      apply in_seq. rewrite column_length. lia.
    - rewrite Nat.eqb_refl. reflexivity. }
  destruct (filter (fun x => negb (negb (x =? i))) (reversed (argsort (column corr i))));
    [destruct Hin|]. cbn [length] in H. lia.
Qed.

(** X16.  [knn] does not check [k]: for a negative [k], and for
    [k >= p - 1], every two different nodes are joined. *)
Theorem knn_unchecked_k (corr : matrix) (k : Z) (i j : node) :
  is_square corr ->
  (k < 0 \/ Z.of_nat (shape0 corr) - 1 <= k)%Z ->
  i < shape0 corr -> j < shape0 corr -> i <> j ->
  has_edge (knn corr k) i j = true.
Proof.
  intros _ Hk Hi Hj Hij. apply knn_has_neighbour; [exact Hi|].
  unfold neighbours_of. cbv zeta.
  assert (Hin := others_all corr i j Hj (not_eq_sym Hij)).
  destruct (Z.ltb_spec k 0) as [Hneg|Hpos]; [exact Hin|].
  rewrite firstn_all2; [exact Hin|].
  pose proof (others_length corr i Hi). lia.
Qed.

Lemma nodes_fold_add_edge (i : node) (wt : node -> Q) (a : node) (l : list node) :
  forall G, In a (nodes G) \/ (a = i /\ l <> []) ->
    In a (nodes (fold_left (fun G j => add_edge G i j (wt j)) l G)).
Proof.
  induction l as [|j l IH]; intros G H; cbn [fold_left].
  - destruct H as [H|[_ H]]; [exact H|congruence].
  - apply IH. left. apply nodes_add_edge.
    destruct H as [H|[-> _]]; auto.
Qed.

Lemma nodes_knn_steps (corr : matrix) (k : Z) (a : node) (l : list node) :
  forall G, In a (nodes G) -> In a (nodes (fold_left (knn_step corr k) l G)).
Proof.
  induction l as [|i l IH]; intros G H; [exact H|].
  cbn [fold_left]. apply IH. unfold knn_step. apply nodes_fold_add_edge. left. exact H.
Qed.

(** X17.  For [k <> 0] and at least two rows, every node [0 .. p-1] is in
    the graph of [knn], and no other. *)
Theorem knn_all_nodes (corr : matrix) (k : Z) :
  is_square corr ->
  k <> 0%Z -> 2 <= shape0 corr ->
  node_set_is_range (knn corr k) (shape0 corr).
Proof.
  intros _ Hk Hp. destruct (knn_inv_result corr k) as [_ [_ [Hnd Hlt]]].
  split; [exact Hnd|]. intros a. split; [apply Hlt|]. intros Ha.
  rewrite knn_steps, (seq_split (shape0 corr) a Ha).
  rewrite fold_left_app. cbn [fold_left].
  apply nodes_knn_steps. unfold knn_step. apply nodes_fold_add_edge.
  right. split; [reflexivity|].
  pose (j := if a =? 0 then 1 else 0).
  assert (Hj : j < shape0 corr /\ j <> a).
  { unfold j. destruct (Nat.eqb_spec a 0); lia. }
  pose proof (others_all corr a j (proj1 Hj) (proj2 Hj)) as Hin.
  unfold neighbours_of. cbv zeta.
  destruct (Z.ltb_spec k 0) as [Hneg|Hpos].
  - intros E. rewrite E in Hin. destruct Hin.
  - destruct (filter (fun j0 => negb (j0 =? a)) (reversed (argsort (column corr a))))
      as [|x l]; [destruct Hin|].
    replace (Z.to_nat k) with (S (Z.to_nat (k - 1))) by lia.
    cbn [firstn]. discriminate.
Qed.

Lemma column_nth (corr : matrix) (i m : nat) :
  nth m (column corr i) 0%Q = get corr m i.
Proof.
  unfold column, get.
  destruct (Nat.lt_ge_cases m (length corr)) as [H|H].
  - rewrite (nth_indep _ 0%Q (nth i [] 0%Q)) by (rewrite length_map; exact H).
    apply (map_nth (fun row => nth i row 0%Q)).
  - rewrite (nth_overflow (map _ corr)) by (rewrite length_map; exact H).
    rewrite (nth_overflow corr) by exact H. destruct i; reflexivity.
Qed.

Lemma sorted_filter (R : nat -> nat -> Prop) (f : nat -> bool) (l : list nat) :
  StronglySorted R l -> StronglySorted R (filter f l).
Proof.
  intros H. induction H as [|x l Hs IH Hx]; cbn [filter]; [constructor|].
  destruct (f x); [|exact IH]. constructor; [exact IH|].
  rewrite Forall_forall in *. intros y Hy. apply filter_In in Hy. apply Hx. tauto.
Qed.

Lemma sorted_before (R : nat -> nat -> Prop) (l1 l2 : list nat) (x : nat) :
  StronglySorted R (l1 ++ x :: l2) -> forall m, In m l1 -> R m x.
Proof.
  induction l1 as [|y l1 IH]; intros H m Hm; [destruct Hm|].
  cbn [app] in H. inversion H as [|? ? Hs Hy]; subst.
  destruct Hm as [<-|Hm]; [|apply IH; assumption].
  rewrite Forall_forall in Hy. apply Hy. apply in_or_app. right. left. reflexivity.
Qed.

Lemma sorted_after (R : nat -> nat -> Prop) (l1 l2 : list nat) (x : nat) :
  StronglySorted R (l1 ++ x :: l2) -> forall m, In m l2 -> R x m.
Proof.
  induction l1 as [|y l1 IH]; intros H m Hm; cbn [app] in H;
    inversion H as [|? ? Hs Hy]; subst.
  - rewrite Forall_forall in Hy. apply Hy. exact Hm.
  - apply IH; assumption.
Qed.

(** The other nodes, in the order in which [knn] goes through them for
    the node [i]: no node twice, and in descending order of column [i]. *)
Lemma others_sorted (corr : matrix) (i : node) :
  let others := filter (fun j => negb (j =? i)) (reversed (argsort (column corr i))) in
  NoDup others /\
  StronglySorted (fun a b => (get corr b i <= get corr a i)%Q) others.
Proof.
  cbv zeta. split.
  - apply NoDup_filter.
    apply (Permutation_NoDup (Permutation_sym (order_perm (column corr i)))).
    apply seq_NoDup.
  - apply sorted_filter.
    pose proof (order_descending (column corr i)) as H. unfold descending in H.
    eapply sorted_on; [|exact H].
    intros x y _ _ Hxy. cbv beta in Hxy. rewrite !column_nth in Hxy. exact Hxy.
Qed.

Lemma In_firstn_app {A : Type} (n : nat) (l1 l2 : list A) (x : A) :
  length l1 < n -> In x (firstn n (l1 ++ x :: l2)).
Proof.
  intros H. rewrite firstn_app. apply in_or_app. right.
  replace (n - length l1) with (S (n - S (length l1))) by lia.
  left. reflexivity.
Qed.

Lemma firstn_split_In {A : Type} (n : nat) (l : list A) (x : A) :
  In x (firstn n l) ->
  exists l1 l2, l = l1 ++ x :: l2 /\ length l1 < n.
Proof.
  revert l. induction n as [|n IH]; intros [|y l] H; cbn [firstn] in H;
    try contradiction.
  destruct H as [->|H].
  - exists [], l. split; [reflexivity|cbn [length]; lia].
  - destruct (IH l H) as [l1 [l2 [-> Hl]]].
    exists (y :: l1), l2. split; [reflexivity|cbn [length]; lia].
Qed.

(** A node with fewer than [k] rivals is among the nodes that [knn]
    joins to [i], whatever the order of equal entries. *)
Lemma few_rivals_neighbour (corr : matrix) (k : Z) (i j : node) :
  j < shape0 corr -> j <> i ->
  (k < 0 \/ Z.of_nat (rivals corr i j) < k)%Z ->
  In j (neighbours_of corr k i).
Proof.
  intros Hj Hji Hk. pose proof (others_all corr i j Hj Hji) as Hin.
  unfold neighbours_of. cbv zeta.
  destruct (Z.ltb_spec k 0) as [Hneg|Hpos]; [exact Hin|].
  destruct Hk as [Hk|Hk]; [lia|].
  destruct (others_sorted corr i) as [Hnd Hs]. cbv zeta in Hnd, Hs.
  set (others := filter (fun j0 => negb (j0 =? i)) (reversed (argsort (column corr i)))) in *.
  destruct (in_split j others Hin) as [l1 [l2 E]].
  assert (Hlen : length l1 <= rivals corr i j).
  { unfold rivals. apply NoDup_incl_length.
    - rewrite E in Hnd. apply NoDup_app_remove_r in Hnd. exact Hnd.
    - intros m Hm.
      assert (Hmo : In m others) by (rewrite E; apply in_or_app; left; exact Hm).
      destruct (neighbours_of_spec corr (-1) i m) as [Hmp Hmi].
      { unfold neighbours_of. cbv zeta. exact Hmo. }
      apply filter_In. split; [apply in_seq; lia|].
      rewrite !andb_true_iff, !negb_true_iff, !Nat.eqb_neq. split; [split|].
      + exact Hmi.
      + intros ->. rewrite E in Hnd. apply NoDup_remove_2 in Hnd.
        apply Hnd. apply in_or_app. left. exact Hm.
      + apply Qle_bool_iff. rewrite E in Hs.
        apply (sorted_before _ l1 l2 j Hs m Hm). }
  rewrite E. apply In_firstn_app. lia.
Qed.

(** A node among those that [knn] joins to [i] has fewer than [k] nodes
    above it, whatever the order of equal entries. *)
Lemma neighbour_few_betters (corr : matrix) (k : Z) (i j : node) :
  In j (neighbours_of corr k i) ->
  (k < 0 \/ Z.of_nat (betters corr i j) < k)%Z.
Proof.
  unfold neighbours_of. cbv zeta. intros Hin.
  destruct (Z.ltb_spec k 0) as [Hneg|Hpos]; [left; exact Hneg|right].
  destruct (others_sorted corr i) as [Hnd Hs]. cbv zeta in Hnd, Hs.
  set (others := filter (fun j0 => negb (j0 =? i)) (reversed (argsort (column corr i)))) in *.
  destruct (firstn_split_In _ _ _ Hin) as [l1 [l2 [E Hl]]].
  assert (Hlen : betters corr i j <= length l1).
  { unfold betters. apply NoDup_incl_length.
    - apply NoDup_filter. apply seq_NoDup.
    - intros m Hm. apply filter_In in Hm. destruct Hm as [Hm Hb].
      apply in_seq in Hm. apply andb_true_iff in Hb. destruct Hb as [Hmi Hlt].
      apply negb_true_iff in Hmi. apply Nat.eqb_neq in Hmi.
      apply Qltb_lt in Hlt.
      assert (Hmo : In m others) by (apply others_all; [lia|exact Hmi]).
      rewrite E in Hmo. apply in_app_or in Hmo.
      destruct Hmo as [Hmo|[Hmo|Hmo]]; [exact Hmo|exfalso..].
      + subst m. lra.
      + rewrite E in Hs. pose proof (sorted_after _ l1 l2 j Hs m Hmo) as Hle.
        cbv beta in Hle. lra. }
  lia.
Qed.

(** X13.  [knn] joins the node [i] to every other node [j] that has
    fewer than [k] rivals: nodes other than [i] and [j] whose entry in
    column [i] is at least that of [j].  This holds for every order in
    which [argsort] may put equal entries. *)
Theorem knn_joins_nearest (corr : matrix) (k : Z) (i j : node) :
  is_square corr ->
  i < shape0 corr -> j < shape0 corr -> j <> i ->
  (k < 0 \/ Z.of_nat (rivals corr i j) < k)%Z ->
  has_edge (knn corr k) i j = true.
Proof.
  intros _ Hi Hj Hji Hk.
  pose proof (few_rivals_neighbour corr k i j Hj Hji Hk) as Hin.
  rewrite knn_steps, (seq_split (shape0 corr) i Hi).
  rewrite fold_left_app. cbn [fold_left].
  apply knn_steps_mono. unfold knn_step. apply fold_add_edge_has. exact Hin.
Qed.

Lemma knn_joins_nearest_witness : has_edge (knn corr_three 1) 2 0 = true.
Proof.
  apply knn_joins_nearest.
  - repeat constructor.
  - vm_compute. lia.
  - vm_compute. lia.
  - discriminate.
  - right. vm_compute. reflexivity.
Defined.

(** X14.  Every edge of the graph of [knn] joins two different nodes
    below [p] and carries [corr[u, v]] or [corr[v, u]]; and one of its
    ends is near the other: fewer than [k] nodes have an entry above
    its entry in the column of the other (or [k] is negative).  The
    statement does not depend on the direction in which the edge is
    listed, nor on the order of equal entries. *)
Theorem knn_edges_sound (corr : matrix) (k : Z) (u v : node) (w : Q) :
  is_square corr ->
  In (u, v, w) (edges (knn corr k)) ->
  u < shape0 corr /\ v < shape0 corr /\ u <> v /\
  (w = get corr u v \/ w = get corr v u) /\
  (k < 0 \/ Z.of_nat (betters corr u v) < k \/ Z.of_nat (betters corr v u) < k)%Z.
Proof.
  intros _ H. destruct (knn_inv_result corr k) as [H1 [H2 _]].
  destruct (H2 u v w H) as [Hu [Hv [Hne Hw]]].
  repeat (split; [assumption|]).
  assert (Hin : In v (neighbours_of corr k u)).
  { apply H1. unfold pairs. apply (in_map fst) in H. exact H. }
  destruct (neighbour_few_betters corr k u v Hin) as [Hk|Hk]; [left|right; left];
    exact Hk.
Qed.

Lemma knn_edges_sound_witness :
  2 < shape0 corr_three /\ 0 < shape0 corr_three /\ 2 <> 0 /\
  ((1 # 3)%Q = get corr_three 2 0 \/ (1 # 3)%Q = get corr_three 0 2) /\
  (1 < 0 \/ Z.of_nat (betters corr_three 2 0) < 1
   \/ Z.of_nat (betters corr_three 0 2) < 1)%Z.
Proof.
  apply (knn_edges_sound corr_three 1 2 0 (1 # 3)).
  - repeat constructor.
  - vm_compute. right. left. reflexivity.
Defined.

Lemma knn_edge_count_witness :
  number_of_edges (knn corr_three 1) <= shape0 corr_three * Z.to_nat 1.
Proof. apply knn_edge_count; [repeat constructor|lia]. Defined.

Lemma knn_unchecked_k_witness : has_edge (knn corr_three (-1)) 0 2 = true.
Proof.
  apply knn_unchecked_k.
  - repeat constructor.
  - left. lia.
  - vm_compute. lia.
  - vm_compute. lia.
  - lia.
Defined.

Lemma knn_all_nodes_witness :
  node_set_is_range (knn corr_three 1) (shape0 corr_three).
Proof.
  apply knn_all_nodes.
  - repeat constructor.
  - discriminate.
  - vm_compute. lia.
Defined.

(** ** More about the PMFG *)

Lemma edges_from_remove_edge (corr : matrix) (p : nat) (G : Graph) (u v : node) :
  edges_from corr p G -> edges_from corr p (remove_edge G u v).
Proof.
  intros H a b w Hin. unfold remove_edge in Hin. cbn [edges] in Hin.
  apply filter_In in Hin. apply H. exact (proj1 Hin).
Qed.

Section PlanarityMore.

Variable check_planarity : list node -> list (node * node) -> bool.

Lemma pmfg_try_keeps (corr : matrix) (p : nat) (G : Graph) (i j : node) :
  i < p -> j < p -> i <> j ->
  nodes G = seq 0 p -> edges_from corr p G ->
  nodes (pmfg_try check_planarity corr G i j) = seq 0 p /\
  edges_from corr p (pmfg_try check_planarity corr G i j).
Proof.
  intros Hi Hj Hij Hn He. unfold pmfg_try. cbv zeta.
  assert (Hin : In i (nodes G) /\ In j (nodes G))
    by (rewrite Hn; split; apply in_seq; lia).
  destruct (add_edge_skeleton G i j (get corr i j) (proj1 Hin) (proj2 Hin)) as [Hn' _].
  assert (He' := edges_from_add_edge corr p G i j He Hi Hj Hij).
  destruct (negb (is_planar check_planarity (add_edge G i j (get corr i j)))).
  - split; [cbn [remove_edge nodes]; congruence|].
    apply edges_from_remove_edge. exact He'.
  - split; [congruence|exact He'].
Qed.

Lemma pmfg_loop_keeps (corr : matrix) (p : nat) (vals : list nat) :
  (forall v, In v vals -> v < p * p) ->
  forall (G : Graph) (trace : list Graph),
    nodes G = seq 0 p /\ edges_from corr p G ->
    Forall (fun G => nodes G = seq 0 p /\ edges_from corr p G) trace ->
    Forall (fun G => nodes G = seq 0 p /\ edges_from corr p G)
           (pmfg_loop check_planarity corr p vals G trace).
Proof.
  induction vals as [|v vals IH]; intros Hv G trace HG Htr.
  - constructor; assumption.
  - rewrite pmfg_loop_cons. cbv zeta.
    assert (Hv' : forall v', In v' vals -> v' < p * p)
      by (intros v' H'; apply Hv; right; exact H').
    destruct (Nat.eqb_spec (v / p) (v mod p)) as [Heq|Hne].
    + apply IH; auto.
    + destruct (unravel_range v p (Hv v (or_introl eq_refl))) as [Hi Hj].
      destruct HG as [Hn He].
      pose proof (pmfg_try_keeps corr p G (v / p) (v mod p) Hi Hj Hne Hn He) as HG'.
      destruct (Z.eqb _ _).
      * constructor; [exact HG'|]. constructor; [split; assumption|exact Htr].
      * apply IH; auto.
Qed.

Lemma pmfg_trace_keeps (corr : matrix) :
  is_square corr ->
  Forall (fun G => nodes G = seq 0 (shape0 corr) /\ edges_from corr (shape0 corr) G)
         (pmfg_trace check_planarity corr).
Proof.
  intros Hsq. unfold pmfg_trace. cbv zeta. rewrite add_nodes_from_range.
  apply pmfg_loop_keeps.
  - intros v Hv. apply order_range; assumption.
  - split; [reflexivity|apply edges_from_empty].
  - constructor.
Qed.

(** The graph that [pmfg] returns is the last of the trace. *)
Lemma pmfg_in_trace (corr : matrix) :
  In (pmfg check_planarity corr) (pmfg_trace check_planarity corr).
Proof.
  unfold pmfg.
  pose proof (pmfg_loop_nonempty check_planarity corr (shape0 corr)
                (reversed (argsort (flatten corr)))
                (add_nodes_from nx_Graph (seq 0 (shape0 corr))) []) as Hne.
  fold (pmfg_trace check_planarity corr) in Hne.
  destruct (pmfg_trace check_planarity corr) as [|G tr]; [congruence|].
  left. reflexivity.
Qed.

(** X7.  For a square matrix the graph of [pmfg] has the nodes
    [0 .. p-1], in this order; every edge joins two different nodes and
    carries the entry of the matrix for them, in one order or the
    other. *)
Theorem pmfg_nodes_and_edges (corr : matrix) :
  is_square corr ->
  nodes (pmfg check_planarity corr) = seq 0 (shape0 corr) /\
  edges_from corr (shape0 corr) (pmfg check_planarity corr).
Proof.
  intros Hsq.
  pose proof (pmfg_trace_keeps corr Hsq) as Hall.
  rewrite Forall_forall in Hall.
  apply (Hall (pmfg check_planarity corr)).
  apply pmfg_in_trace.
Qed.

Lemma pmfg_try_spec (corr : matrix) (p : nat) (G : Graph) (i j : node) :
  i < p -> j < p -> nodes G = seq 0 p ->
  is_planar check_planarity G = true ->
  let G' := pmfg_try check_planarity corr G i j in
  nodes G' = nodes G /\
  (pairs G' = pairs G \/ pairs G' = pairs G ++ [(i, j)]) /\
  is_planar check_planarity G' = true /\
  tried check_planarity G' i j.
Proof.
  intros Hi Hj Hn Hpl. cbv zeta. unfold pmfg_try. cbv zeta.
  assert (Hin : In i (nodes G) /\ In j (nodes G))
    by (rewrite Hn; split; apply in_seq; lia).
  destruct Hin as [Hini Hinj].
  destruct (has_edge G i j) eqn:He.
  - destruct (pairs_add_edge_present G i j (get corr i j) Hini Hinj He) as [Hn' Hp'].
    assert (Hpl' : is_planar check_planarity (add_edge G i j (get corr i j)) = true).
    { unfold is_planar. rewrite Hn', Hp'. exact Hpl. }
    rewrite Hpl'. cbn [negb].
    split; [exact Hn'|]. split; [left; exact Hp'|]. split; [exact Hpl'|].
    left. apply has_edge_add_edge.
  - rewrite (add_edge_absent G i j (get corr i j) Hini Hinj He).
    destruct (is_planar check_planarity
                (mkGraph (nodes G) (edges G ++ [(i, j, get corr i j)]))) eqn:Hpl';
      cbn [negb].
    + split; [reflexivity|]. split.
      * right. unfold pairs. cbn [edges]. rewrite map_app. reflexivity.
      * split; [exact Hpl'|]. left.
        rewrite has_edge_pairs. unfold pairs. cbn [edges].
        rewrite map_app, existsb_app. cbn [map existsb fst].
        rewrite same_edge_refl, orb_true_r. reflexivity.
    + rewrite (remove_added_edge G i j (get corr i j) He).
      split; [reflexivity|]. split; [left; reflexivity|]. split; [exact Hpl|].
      right. unfold is_planar, pairs in Hpl'. cbn [nodes edges] in Hpl'.
      rewrite map_app in Hpl'. exact Hpl'.
Qed.

Lemma tried_mono (G G' : Graph) (e : node * node) (a b : node) :
  hereditary check_planarity ->
  nodes G' = nodes G ->
  pairs G' = pairs G \/ pairs G' = pairs G ++ [e] ->
  tried check_planarity G a b -> tried check_planarity G' a b.
Proof.
  intros Hher Hn Hp [H|H].
  - left. rewrite has_edge_pairs in *. destruct Hp as [-> | ->]; [exact H|].
    rewrite existsb_app, H. reflexivity.
  - destruct Hp as [Hp|Hp].
    + right. rewrite Hn, Hp. exact H.
    + right. rewrite Hn, Hp. rewrite <- app_assoc. cbn [app].
      destruct (check_planarity (nodes G) (pairs G ++ [e; (a, b)])) eqn:E;
        [|reflexivity].
      apply Hher in E. congruence.
Qed.

Lemma pmfg_loop_maximal (corr : matrix) (p : nat) (vals : list nat) :
  hereditary check_planarity ->
  (forall v, In v vals -> v < p * p) ->
  forall (done : list nat) (G : Graph) (trace : list Graph),
    nodes G = seq 0 p ->
    is_planar check_planarity G = true ->
    (forall v, In v done -> v / p <> v mod p -> tried check_planarity G (v / p) (v mod p)) ->
    let Gf := hd nx_Graph (pmfg_loop check_planarity corr p vals G trace) in
    Z.of_nat (number_of_edges Gf) = (3 * (Z.of_nat p - 2))%Z \/
    (forall v, In v (done ++ vals) -> v / p <> v mod p -> tried check_planarity Gf (v / p) (v mod p)).
Proof.
  intros Hher. induction vals as [|v vals IH]; intros Hv done G trace Hn Hpl Hdone.
  - cbn [pmfg_loop hd]. right. rewrite app_nil_r. exact Hdone.
  - rewrite pmfg_loop_cons. cbv zeta.
    assert (Hv' : forall v', In v' vals -> v' < p * p)
      by (intros v' H'; apply Hv; right; exact H').
    destruct (Nat.eqb_spec (v / p) (v mod p)) as [Heq|Hne].
    + specialize (IH Hv' (done ++ [v]) G (G :: trace) Hn Hpl).
      rewrite <- app_assoc in IH. cbn [app] in IH. apply IH.
      intros v' Hin Hne'. apply in_app_iff in Hin. destruct Hin as [Hin|[<-|[]]].
      * apply Hdone; assumption.
      * contradiction.
    + destruct (unravel_range v p (Hv v (or_introl eq_refl))) as [Hi Hj].
      destruct (pmfg_try_spec corr p G (v / p) (v mod p) Hi Hj Hn Hpl)
        as [Hn' [Hp' [Hpl' Htr']]].
      set (G' := pmfg_try check_planarity corr G (v / p) (v mod p)) in *.
      destruct (Z.eqb_spec (Z.of_nat (number_of_edges G')) (3 * (Z.of_nat p - 2)))
        as [Heq|Hneq].
      * left. cbn [hd]. exact Heq.
      * specialize (IH Hv' (done ++ [v]) G' (G :: trace)).
        rewrite <- app_assoc in IH. cbn [app] in IH. apply IH.
        -- congruence.
        -- exact Hpl'.
        -- intros v' Hin Hne'. apply in_app_iff in Hin.
           destruct Hin as [Hin|[<-|[]]].
           ++ eapply tried_mono; [exact Hher|exact Hn'|exact Hp'|].
              apply Hdone; assumption.
           ++ exact Htr'.
Qed.

(** X8.  With a hereditary planarity test that accepts the graph without
    edges, [pmfg] stops with [3 * (p - 2)] edges, or it returns a graph
    to which no further edge can be added: every pair of different nodes
    is an edge, or the graph with it fails the test. *)
Theorem pmfg_maximal (corr : matrix) :
  is_square corr ->
  hereditary check_planarity ->
  check_planarity (seq 0 (shape0 corr)) [] = true ->
  let G := pmfg check_planarity corr in
  Z.of_nat (number_of_edges G) = (3 * (Z.of_nat (shape0 corr) - 2))%Z \/
  (forall i j, i < shape0 corr -> j < shape0 corr -> i <> j ->
     has_edge G i j = true \/
     is_planar check_planarity (add_edge G i j (get corr i j)) = false).
Proof.
  intros Hsq Hher H0 G.
  pose proof (pmfg_trace_keeps corr Hsq) as Hall.
  rewrite Forall_forall in Hall.
  destruct (Hall G (pmfg_in_trace corr)) as [Hnodes _].
  set (p := shape0 corr) in *.
  destruct (pmfg_loop_maximal corr p (reversed (argsort (flatten corr))) Hher
              (fun v Hv => order_range corr v Hsq Hv)
              [] (mkGraph (seq 0 p) []) [] eq_refl H0
              (fun v (Hin : In v []) _ => match Hin with end)) as [Hfull|Hmax].
  - left. unfold G, pmfg, pmfg_trace. cbv zeta. fold p.
    rewrite add_nodes_from_range. exact Hfull.
  - right. intros i j Hi Hj Hij.
    assert (Hin : In (i * p + j) ([] ++ reversed (argsort (flatten corr)))).
    { cbn [app].
      apply (Permutation_in _ (Permutation_sym (order_perm (flatten corr)))).
      apply in_seq. rewrite flatten_length by assumption. fold p. nia. }
    destruct (unravel_flat p i j Hj) as [E1 E2].
    specialize (Hmax (i * p + j) Hin). rewrite E1, E2 in Hmax.
    specialize (Hmax Hij).
    assert (EG : hd nx_Graph
                   (pmfg_loop check_planarity corr p (reversed (argsort (flatten corr)))
                      (mkGraph (seq 0 p) []) []) = G).
    { unfold G, pmfg, pmfg_trace. cbv zeta. fold p.
      rewrite add_nodes_from_range. reflexivity. }
    rewrite EG in Hmax. destruct Hmax as [H|H]; [left; exact H|].
    destruct (has_edge G i j) eqn:He; [left; reflexivity|right].
    rewrite add_edge_absent; try assumption;
      try (rewrite Hnodes; apply in_seq; lia).
    unfold is_planar, pairs. cbn [nodes edges]. rewrite map_app. exact H.
Qed.

End PlanarityMore.

Lemma planar_if_small_hereditary : hereditary planar_if_small.
Proof.
  intros V E1 e E2. unfold planar_if_small.
  rewrite !orb_true_iff, !Nat.leb_le, !length_app. cbn [length]. lia.
Qed.

Lemma pmfg_nodes_and_edges_witness :
  let corr := [[1; 1 # 2; 1 # 3]; [1 # 2; 1; 1 # 4]; [1 # 3; 1 # 4; 1]]%Q in
  nodes (pmfg planar_if_small corr) = seq 0 (shape0 corr) /\
  edges_from corr (shape0 corr) (pmfg planar_if_small corr).
Proof.
  apply (pmfg_nodes_and_edges planar_if_small). repeat constructor.
Defined.

Lemma pmfg_maximal_witness :
  let corr := [[1; 1 # 2; 1 # 3]; [1 # 2; 1; 1 # 4]; [1 # 3; 1 # 4; 1]]%Q in
  let G := pmfg planar_if_small corr in
  Z.of_nat (number_of_edges G) = (3 * (Z.of_nat (shape0 corr) - 2))%Z \/
  (forall i j, i < shape0 corr -> j < shape0 corr -> i <> j ->
     has_edge G i j = true \/
     is_planar planar_if_small (add_edge G i j (get corr i j)) = false).
Proof.
  apply (pmfg_maximal planar_if_small).
  - repeat constructor.
  - apply planar_if_small_hereditary.
  - reflexivity.
Defined.

(** ** The PMFG: planar after every round, and the number of edges *)

Section PlanarityBound.

Variable check_planarity : list node -> list (node * node) -> bool.





End PlanarityBound.


(** ** More about the TMFG *)

Lemma fold_add_edges_from (corr : matrix) (p : nat) (n : node) (l : list node) :
  n < p -> (forall j, In j l -> j < p /\ j <> n) ->
  forall G, edges_from corr p G ->
    edges_from corr p (fold_left (fun G j => add_edge G n j (get corr n j)) l G).
Proof.
  intros Hn. induction l as [|j l IH]; intros Hl G HG; [exact HG|].
  cbn [fold_left]. apply IH; [intros j' Hj'; apply Hl; right; exact Hj'|].
  destruct (Hl j (or_introl eq_refl)) as [Hj Hne].
  apply edges_from_add_edge; auto.
Qed.

Lemma seed_edges_from (corr : matrix) (p i0 i1 i2 i3 : nat) :
  i0 < p -> i1 < p -> i2 < p -> i3 < p ->
  i0 <> i1 -> i0 <> i2 -> i0 <> i3 -> i1 <> i2 -> i1 <> i3 -> i2 <> i3 ->
  edges_from corr p (t_G (seed_state corr p i0 i1 i2 i3)).
Proof.
  intros L0 L1 L2 L3 D01 D02 D03 D12 D13 D23.
  unfold seed_state. cbv zeta. cbn [t_G].
  apply (fold_add_edges_from corr p i2 [i1; i3] L2);
    [intros j [<-|[<-|[]]]; split; auto|].
  apply (fold_add_edges_from corr p i0 [i2; i3] L0);
    [intros j [<-|[<-|[]]]; split; auto|].
  apply (fold_add_edges_from corr p i1 [i2; i3] L1);
    [intros j [<-|[<-|[]]]; split; auto|].
  apply (fold_add_edges_from corr p i0 [i1; i3] L0);
    [intros j [<-|[<-|[]]]; split; auto|].
  apply edges_from_empty.
Qed.

Lemma tmfg_round_edges_from (p : nat) (corr w : matrix) (s s' : tmfg_state) :
  tmfg_inv p s -> edges_from corr p (t_G s) ->
  tmfg_round corr w s = Ok s' -> edges_from corr p (t_G s').
Proof.
  intros Hinv HG Hround. apply tmfg_round_result in Hround.
  destruct Hround as [new [f [Hnew [Hf [_ [_ [Hadd _]]]]]]].
  destruct (proj1 (ti_not_in p s Hinv new)) as [Hnewp Hnews];
    [apply mem_In; exact Hnew|].
  destruct (ti_faces p s Hinv f Hf) as [Hlen [_ Hfin]].
  rewrite add_triangular_face_int in Hadd by lia.
  injection Hadd as <-.
  apply fold_add_edges_from; [exact Hnewp| |exact HG].
  intros j Hj. pose proof (Hfin j Hj) as Hm. split.
  - apply (ti_starters p s Hinv). exact Hm.
  - intros ->. congruence.
Qed.

Lemma tmfg_loop_edges_from (p : nat) (corr w : matrix) (fuel : nat) :
  forall s s', tmfg_inv p s -> edges_from corr p (t_G s) ->
    tmfg_loop fuel corr w s = Ok s' -> edges_from corr p (t_G s').
Proof.
  induction fuel as [|fuel IH]; intros s s' Hinv HG H; cbn [tmfg_loop] in H.
  - destruct (t_not_in s); injection H as <-; exact HG.
  - destruct (t_not_in s) as [|x l]; [injection H as <-; exact HG|].
    destruct (tmfg_round corr w s) as [s1|e] eqn:E1; cbn [bind] in H; [|discriminate].
    apply (IH s1 s'); [|eapply tmfg_round_edges_from; eassumption|exact H].
    eapply tmfg_inv_round; eassumption.
Qed.

Lemma tmfg_from_edges (corr w : matrix) (G : Graph) :
  shape1 w = shape0 corr -> 4 <= shape0 corr ->
  tmfg_from corr w = Ok G -> edges_from corr (shape0 corr) G.
Proof.
  intros Hw Hp. unfold tmfg_from. cbv zeta.
  set (p := shape0 corr) in *.
  pose proof (order_perm (sum_axis0 w)) as HP.
  rewrite sum_axis0_length, Hw in HP.
  destruct (reversed (argsort (sum_axis0 w))) as [|i0 [|i1 [|i2 [|i3 rest]]]] eqn:Eind;
    try (apply Permutation_length in HP; rewrite length_seq in HP; cbn [length] in HP; lia).
  destruct (seed_state_inv corr p i0 i1 i2 i3 rest Hp HP)
    as [D01 [D02 [D03 [D12 [D13 [D23 Hinv]]]]]].
  assert (Hlt : forall x, In x (i0 :: i1 :: i2 :: i3 :: rest) -> x < p).
  { intros x Hx. apply (Permutation_in _ HP) in Hx. apply in_seq in Hx. lia. }
  rewrite tmfg_seed_eq by assumption. cbn [bind].
  destruct (tmfg_loop _ corr w (seed_state corr p i0 i1 i2 i3)) as [s|e] eqn:Eloop;
    cbn [bind]; [|discriminate].
  intros [= <-].
  refine (tmfg_loop_edges_from p corr w _ _ s Hinv _ Eloop).
  apply seed_edges_from; try assumption; apply Hlt; cbn [In]; auto 6.
Qed.

(** X4.  Every edge of a graph that [tmfg] returns joins two different
    nodes below [p] and carries the entry of [corr] for them, in one
    order or the other: the entry itself, also when the nodes were
    chosen by the absolute values. *)
Theorem tmfg_edges_from_matrix (corr : matrix) (absolute : bool) (G : Graph) :
  is_square corr -> 4 <= shape0 corr ->
  tmfg corr absolute = Ok G ->
  edges_from corr (shape0 corr) G.
Proof.
  intros Hsq Hp. unfold tmfg. destruct absolute.
  - apply tmfg_from_edges; [|exact Hp].
    rewrite np_abs_shape1. apply is_square_shape1. exact Hsq.
  - apply tmfg_from_edges; [|exact Hp].
    apply is_square_shape1. exact Hsq.
Qed.

(** A round of the loop returns, or it raises [TypeError]. *)
Lemma tmfg_round_cases (p : nat) (corr w : matrix) (s : tmfg_state) :
  tmfg_inv p s -> t_not_in s <> [] ->
  (exists s', tmfg_round corr w s = Ok s') \/ tmfg_round corr w s = Raise TypeError.
Proof.
  intros Hinv Hne. unfold tmfg_round. cbv zeta.
  destruct (scan_faces_ok w (t_not_in s) (t_faces s) Hne ((-1)%Q, None))
    as [st [E _]].
  rewrite E. cbn [bind].
  apply scan_faces_result in E.
  destruct E as [->|[n [c [f [-> [Hn Hf]]]]]]; cbn [snd]; [right; reflexivity|].
  left.
  destruct (ti_faces p s Hinv f Hf) as [Hlen _].
  destruct (face_three f Hlen) as [f0 [f1 [f2 ->]]].
  rewrite add_triangular_face_int by (cbn [length]; lia). cbn [bind].
  unfold _calculate_new_faces. cbn [index nth_error bind].
  eexists. reflexivity.
Qed.

Lemma tmfg_loop_cases (p : nat) (corr w : matrix) (fuel : nat) :
  forall s, tmfg_inv p s ->
    (exists s', tmfg_loop fuel corr w s = Ok s') \/
    tmfg_loop fuel corr w s = Raise TypeError.
Proof.
  induction fuel as [|fuel IH]; intros s Hinv; cbn [tmfg_loop].
  - left. destruct (t_not_in s); eexists; reflexivity.
  - destruct (t_not_in s) as [|x l] eqn:E; [left; eexists; reflexivity|].
    destruct (tmfg_round_cases p corr w s Hinv) as [[s1 E1]|E1];
      [rewrite E; discriminate| |].
    + rewrite E1. cbn [bind]. apply IH. eapply tmfg_inv_round; eassumption.
    + rewrite E1. right. reflexivity.
Qed.

Lemma tmfg_from_cases (corr w : matrix) :
  shape1 w = shape0 corr -> 4 <= shape0 corr ->
  (exists G, tmfg_from corr w = Ok G) \/ tmfg_from corr w = Raise TypeError.
Proof.
  intros Hw Hp. unfold tmfg_from. cbv zeta.
  set (p := shape0 corr) in *.
  pose proof (order_perm (sum_axis0 w)) as HP.
  rewrite sum_axis0_length, Hw in HP.
  destruct (reversed (argsort (sum_axis0 w))) as [|i0 [|i1 [|i2 [|i3 rest]]]] eqn:Eind;
    try (apply Permutation_length in HP; rewrite length_seq in HP; cbn [length] in HP; lia).
  destruct (seed_state_inv corr p i0 i1 i2 i3 rest Hp HP)
    as [D01 [D02 [D03 [D12 [D13 [D23 Hinv]]]]]].
  rewrite tmfg_seed_eq by assumption. cbn [bind].
  destruct (tmfg_loop_cases p corr w
              (length (t_not_in (seed_state corr p i0 i1 i2 i3))) _ Hinv)
    as [[s Hs]|Hs]; rewrite Hs; cbn [bind].
  - left. eexists. reflexivity.
  - right. reflexivity.
Qed.

(** X3.  For a square matrix with at least 4 rows [tmfg] returns a graph
    or raises [TypeError]: no index is out of range, and the guards of
    [_add_triangular_face] never raise. *)
Theorem tmfg_raises_only_type_error (corr : matrix) (absolute : bool) :
  is_square corr -> 4 <= shape0 corr ->
  (exists G, tmfg corr absolute = Ok G) \/ tmfg corr absolute = Raise TypeError.
Proof.
  intros Hsq Hp. unfold tmfg. destruct absolute.
  - apply tmfg_from_cases; [|exact Hp].
    rewrite np_abs_shape1. apply is_square_shape1. exact Hsq.
  - apply tmfg_from_cases; [|exact Hp].
    apply is_square_shape1. exact Hsq.
Qed.

(** X5.  On a matrix without negative entries the flag [absolute] makes
    no difference to [tmfg]. *)
Theorem tmfg_absolute_nonneg (corr : matrix) :
  nonneg_entries corr -> tmfg corr true = tmfg corr false.
Proof.
  intros H. unfold tmfg. rewrite (np_abs_nonneg_id corr H). reflexivity.
Qed.

Lemma tmfg_edges_from_matrix_witness :
  exists G, tmfg corr_five true = Ok G /\ edges_from corr_five (shape0 corr_five) G.
Proof.
  eexists. split; [vm_compute; reflexivity|].
  apply (tmfg_edges_from_matrix corr_five true).
  - repeat constructor.
  - vm_compute. lia.
  - vm_compute. reflexivity.
Defined.

Lemma tmfg_structure_witness :
  exists G,
    tmfg corr_five false = Ok G /\
    node_set_is_range G (shape0 corr_five) /\
    number_of_edges G = 3 * shape0 corr_five - 6 /\
    connected (nodes G) (pairs G).
Proof.
  eexists. split; [vm_compute; reflexivity|].
  apply (tmfg_structure corr_five false).
  - repeat constructor.
  - vm_compute. lia.
  - vm_compute. reflexivity.
Defined.

Lemma tmfg_absolute_returns_witness : exists G, tmfg corr_negative true = Ok G.
Proof.
  apply tmfg_absolute_returns.
  - repeat constructor.
  - vm_compute. lia.
Defined.

Lemma tmfg_raises_only_type_error_witness :
  (exists G, tmfg corr_negative false = Ok G) \/
  tmfg corr_negative false = Raise TypeError.
Proof.
  apply tmfg_raises_only_type_error.
  - repeat constructor.
  - vm_compute. lia.
Defined.

Lemma tmfg_absolute_nonneg_witness : tmfg corr_five true = tmfg corr_five false.
Proof.
  apply tmfg_absolute_nonneg. apply nonneg_entriesb_spec. reflexivity.
Defined.

(** ** More about the faces *)

Lemma subset_spec (s1 s2 : list node) :
  subset s1 s2 = true <-> forall x, mem x s1 = true -> mem x s2 = true.
Proof.
  unfold subset. rewrite forallb_forall. split; intros H x Hx.
  - apply H. apply mem_In. exact Hx.
  - apply H. apply mem_In. exact Hx.
Qed.

Lemma set_eqb_spec (s1 s2 : list node) :
  set_eqb s1 s2 = true <-> forall x, mem x s1 = mem x s2.
Proof.
  unfold set_eqb. rewrite andb_true_iff, !subset_spec. split.
  - intros [H1 H2] x. destruct (mem x s1) eqn:E1, (mem x s2) eqn:E2; auto.
    + rewrite (H1 x E1) in E2. discriminate.
    + rewrite (H2 x E2) in E1. discriminate.
  - intros H. split; intros x Hx; [rewrite <- H|rewrite H]; exact Hx.
Qed.

Lemma set_eqb_ext (s1 s1' s2 s2' : list node) :
  (forall x, mem x s1 = mem x s1') -> (forall x, mem x s2 = mem x s2') ->
  set_eqb s1 s2 = set_eqb s1' s2'.
Proof.
  intros H1 H2. apply eq_true_iff_eq. rewrite !set_eqb_spec.
  split; intros H x; [rewrite <- H1, <- H2|rewrite H1, H2]; apply H.
Qed.

Lemma mem_set_of (l : list node) (x : node) : mem x (set_of l) = mem x l.
Proof.
  unfold set_of.
  assert (H : forall s, mem x (fold_left (fun s y => set_add y s) l s)
                          = mem x s || mem x l).
  { induction l as [|y l IH]; intros s; cbn [fold_left].
    - cbn [mem existsb]. rewrite orb_false_r. reflexivity.
    - rewrite IH, mem_set_add. cbn [mem existsb]. unfold mem.
      destruct (x =? y), (existsb (Nat.eqb x) s), (existsb (Nat.eqb x) l); reflexivity. }
  rewrite H. reflexivity.
Qed.

Lemma has_face_add (faces : list face) (f g : face) :
  has_face (faces_add faces f) g = has_face faces g || set_eqb g f.
Proof.
  unfold has_face, faces_add.
  destruct (existsb (set_eqb f) faces) eqn:E.
  - destruct (set_eqb g f) eqn:Eg; [|rewrite orb_false_r; reflexivity].
    rewrite orb_true_r. apply existsb_exists in E. destruct E as [f' [Hf' Hs]].
    apply existsb_exists. exists f'. split; [exact Hf'|].
    apply set_eqb_spec. intros x.
    rewrite (proj1 (set_eqb_spec g f) Eg x). apply set_eqb_spec. exact Hs.
  - rewrite existsb_app. cbn [existsb]. rewrite orb_false_r. reflexivity.
Qed.

Lemma has_face_remove (faces : list face) (f g : face) :
  has_face (faces_remove faces f) g = has_face faces g && negb (set_eqb f g).
Proof.
  unfold has_face, faces_remove.
  assert (E : forall h, set_eqb g h = true -> set_eqb f h = set_eqb f g).
  { intros h Hgh. apply set_eqb_ext; [reflexivity|].
    intros x. symmetry. apply set_eqb_spec. exact Hgh. }
  destruct (set_eqb f g) eqn:Efg; cbn [negb].
  - rewrite andb_false_r.
    induction faces as [|h faces IH]; [reflexivity|]. cbn [filter].
    destruct (set_eqb f h) eqn:Efh; cbn [negb]; [exact IH|].
    cbn [existsb]. rewrite IH, orb_false_r.
    destruct (set_eqb g h) eqn:Egh; [|reflexivity].
    rewrite (E h Egh) in Efh. discriminate.
  - rewrite andb_true_r.
    induction faces as [|h faces IH]; [reflexivity|]. cbn [filter existsb].
    destruct (set_eqb f h) eqn:Efh; cbn [negb].
    + rewrite IH. destruct (set_eqb g h) eqn:Egh; [|reflexivity].
      rewrite (E h Egh) in Efh. discriminate.
    + cbn [existsb]. rewrite IH. reflexivity.
Qed.

(** X6.  [_calculate_new_faces], for a face that is in [faces] (as it is
    when [tmfg] calls it): with
    fewer than 3 members in [old_set] it raises [IndexError]; for
    [old_set = [a, b, c]] it takes the face out and puts in the three
    faces that [new] makes with two of [a], [b], [c]; the other faces
    stay. *)
Theorem calculate_new_faces_splits (faces : list face) (new : node)
    (old_set : list node) :
  has_face faces (frozenset old_set) = true ->
  (length old_set < 3 -> _calculate_new_faces faces new old_set = Raise IndexError) /\
  (forall a b c, old_set = [a; b; c] ->
     exists faces',
       _calculate_new_faces faces new old_set = Ok faces' /\
       forall g, has_face faces' g
                 = (has_face faces g && negb (set_eqb [a; b; c] g))
                   || set_eqb g [new; b; a] || set_eqb g [new; a; c]
                   || set_eqb g [new; b; c]).
Proof.
  intros _. split.
  - intros Hlen. destruct old_set as [|a [|b [|c l]]]; cbn [length] in Hlen;
      try lia; reflexivity.
  - intros a b c ->. unfold _calculate_new_faces. cbn [index nth_error bind].
    eexists. split; [reflexivity|]. intros g.
    rewrite !has_face_add, has_face_remove. unfold frozenset.
    rewrite (set_eqb_ext (set_of [a; b; c]) [a; b; c] g g (mem_set_of _) (fun _ => eq_refl)).
    rewrite (set_eqb_ext g g (set_of [new; b; a]) [new; b; a] (fun _ => eq_refl) (mem_set_of _)).
    rewrite (set_eqb_ext g g (set_of [new; a; c]) [new; a; c] (fun _ => eq_refl) (mem_set_of _)).
    rewrite (set_eqb_ext g g (set_of [new; b; c]) [new; b; c] (fun _ => eq_refl) (mem_set_of _)).
    reflexivity.
Qed.

Lemma calculate_new_faces_splits_witness :
  (length [0; 1; 2] < 3 ->
   _calculate_new_faces [[0; 1; 2]; [0; 1; 3]] 4 [0; 1; 2] = Raise IndexError) /\
  (forall a b c, [0; 1; 2] = [a; b; c] ->
     exists faces',
       _calculate_new_faces [[0; 1; 2]; [0; 1; 3]] 4 [0; 1; 2] = Ok faces' /\
       forall g, has_face faces' g
                 = (has_face [[0; 1; 2]; [0; 1; 3]] g && negb (set_eqb [a; b; c] g))
                   || set_eqb g [4; b; a] || set_eqb g [4; a; c]
                   || set_eqb g [4; b; c]).
Proof.
  apply calculate_new_faces_splits. reflexivity.
Defined.

(** ** More about the components and the spanning tree *)

Lemma locate_found (x : node) (components : list (list node)) (c : list node) :
  In c components -> mem x c = true ->
  exists k, locate x components 0 None = Some k.
Proof.
  intros Hc Hx. destruct (locate x components 0 None) as [k|] eqn:E.
  - exists k. reflexivity.
  - rewrite (locate_none x components E c Hc) in Hx. discriminate.
Qed.

(** X11.  [_merge_components] raises [TypeError] when one of the two nodes
    is in no component: [c1] or [c2] is still [None] at [c1 |= c2]. *)
Theorem merge_components_missing_node (components : list (list node)) (i j : node) :
  (forall c, In c components -> mem i c = false) \/
  (forall c, In c components -> mem j c = false) ->
  _merge_components components i j = Raise TypeError.
Proof.
  intros H. unfold _merge_components.
  destruct (locate i components 0 None) as [k1|] eqn:E1; [|reflexivity].
  destruct (locate j components 0 None) as [k2|] eqn:E2; [|reflexivity].
  exfalso.
  destruct (locate_some i components k1 E1) as [c1 [Hc1 Hi]].
  destruct (locate_some j components k2 E2) as [c2 [Hc2 Hj]].
  apply nth_error_In in Hc1, Hc2.
  destruct H as [H|H]; [rewrite (H c1 Hc1) in Hi|rewrite (H c2 Hc2) in Hj];
    discriminate.
Qed.

Lemma merge_components_missing_node_witness :
  _merge_components [[0]; [1]] 2 0 = Raise TypeError.
Proof.
  apply merge_components_missing_node. left.
  intros c [<-|[<-|[]]]; reflexivity.
Defined.

(** X10.  [_merge_components] on two nodes of different components returns
    the list with one component fewer, in which the two nodes are
    together; nodes that were together stay together, and the same nodes
    are covered. *)
Theorem merge_components_joins (components : list (list node)) (i j : node) :
  (exists c, In c components /\ mem i c = true) ->
  (exists c, In c components /\ mem j c = true) ->
  _in_same_component components i j = false ->
  exists components',
    _merge_components components i j = Ok components' /\
    length components = S (length components') /\
    _in_same_component components' i j = true /\
    (forall a b, _in_same_component components a b = true ->
                 _in_same_component components' a b = true) /\
    (forall a, (exists c, In c components' /\ mem a c = true) <->
               (exists c, In c components /\ mem a c = true)).
Proof.
  intros Hi Hj Hsame.
  destruct (merge_components_spec components i j Hi Hj Hsame)
    as [c1 [c2 [others [components' [Hm [Hi1 [Hj2 [P1 P2]]]]]]]].
  exists components'. split; [exact Hm|].
  assert (Hin' : forall c, In c components' <-> c = set_union c1 c2 \/ In c others).
  { intros c. split; intros H.
    - apply (Permutation_in _ P2) in H. destruct H as [<-|H]; auto.
    - apply (Permutation_in _ (Permutation_sym P2)). destruct H as [->|H];
        [left; reflexivity|right; exact H]. }
  assert (Hin : forall c, In c components <-> c = c1 \/ c = c2 \/ In c others).
  { intros c. split; intros H.
    - apply (Permutation_in _ P1) in H. destruct H as [<-|[<-|H]]; auto.
    - apply (Permutation_in _ (Permutation_sym P1)).
      destruct H as [->|[->|H]]; cbn [In]; auto. }
  split; [|split; [|split]].
  - rewrite (Permutation_length P1), (Permutation_length P2). reflexivity.
  - apply in_same_component_spec. exists (set_union c1 c2).
    split; [apply Hin'; left; reflexivity|].
    rewrite !mem_set_union, Hi1, Hj2, orb_true_r. split; reflexivity.
  - intros a b Hab. apply in_same_component_spec in Hab.
    destruct Hab as [c [Hc [Ha Hb]]]. apply in_same_component_spec.
    apply Hin in Hc. destruct Hc as [->|[->|Hc]].
    + exists (set_union c1 c2). split; [apply Hin'; left; reflexivity|].
      rewrite !mem_set_union, Ha, Hb. split; reflexivity.
    + exists (set_union c1 c2). split; [apply Hin'; left; reflexivity|].
      rewrite !mem_set_union, Ha, Hb, !orb_true_r. split; reflexivity.
    + exists c. split; [apply Hin'; right; exact Hc|]. split; assumption.
  - intros a. split; intros [c [Hc Ha]].
    + apply Hin' in Hc. destruct Hc as [->|Hc].
      * rewrite mem_set_union in Ha. apply orb_true_iff in Ha.
        destruct Ha as [Ha|Ha]; [exists c1|exists c2]; split; auto;
          apply Hin; auto.
      * exists c. split; [apply Hin; auto|exact Ha].
    + apply Hin in Hc. destruct Hc as [->|[->|Hc]].
      * exists (set_union c1 c2). split; [apply Hin'; left; reflexivity|].
        rewrite mem_set_union, Ha. reflexivity.
      * exists (set_union c1 c2). split; [apply Hin'; left; reflexivity|].
        rewrite mem_set_union, Ha, orb_true_r. reflexivity.
      * exists c. split; [apply Hin'; right; exact Hc|exact Ha].
Qed.

Lemma merge_components_joins_witness :
  exists components',
    _merge_components [[0]; [1]; [2]] 0 2 = Ok components' /\
    length [[0]; [1]; [2]] = S (length components') /\
    _in_same_component components' 0 2 = true /\
    (forall a b, _in_same_component [[0]; [1]; [2]] a b = true ->
                 _in_same_component components' a b = true) /\
    (forall a, (exists c, In c components' /\ mem a c = true) <->
               (exists c, In c [[0]; [1]; [2]] /\ mem a c = true)).
Proof.
  apply merge_components_joins.
  - exists [0]. split; [left; reflexivity|reflexivity].
  - exists [2]. split; [right; right; left; reflexivity|reflexivity].
  - reflexivity.
Defined.

Lemma delete_upd {A : Type} (f : A -> A) (l : list A) (k : nat) :
  delete (upd l k f) k = delete l k.
Proof.
  revert k. induction l as [|x l IH]; intros [|k]; cbn [upd delete]; try reflexivity.
  rewrite IH. reflexivity.
Qed.

(** Two places of a list that satisfy [f] count twice. *)
Lemma filter_two_places {A : Type} (f : A -> bool) (l : list A) (k1 k2 : nat) (x1 x2 : A) :
  k1 <> k2 -> nth_error l k1 = Some x1 -> nth_error l k2 = Some x2 ->
  f x1 = true -> f x2 = true -> 2 <= length (filter f l).
Proof.
  intros Hne H1 H2 F1 F2.
  destruct (merge_perm (fun x => x) l k1 k2 x1 x2 Hne H1 H2) as [rest [P _]].
  rewrite (filter_length_perm f _ _ P). cbn [filter]. rewrite F1, F2.
  cbn [length]. lia.
Qed.

(** X12.  [_merge_components] on two nodes of one component takes this
    component out of the list: [c1] and [c2] are the same set, and
    [del components[c2_i]] removes it.  [mst] calls it only after
    [_in_same_component] has said no. *)
Theorem merge_components_same_component (components : list (list node))
    (i j : node) :
  _in_same_component components i j = true ->
  length (filter (mem i) components) = 1 ->
  length (filter (mem j) components) = 1 ->
  exists components',
    _merge_components components i j = Ok components' /\
    length components = S (length components') /\
    forall c, In c components' -> mem i c = false /\ mem j c = false.
Proof.
  intros Hsame Ci Cj.
  apply in_same_component_spec in Hsame. destruct Hsame as [c [Hc [Hi Hj]]].
  destruct (In_nth_error _ _ Hc) as [n Hn].
  destruct (locate_found i components c Hc Hi) as [k1 E1].
  destruct (locate_found j components c Hc Hj) as [k2 E2].
  destruct (locate_some i components k1 E1) as [c1 [Hc1 Hi1]].
  destruct (locate_some j components k2 E2) as [c2 [Hc2 Hj2]].
  assert (K1 : k1 = n).
  { destruct (Nat.eq_dec k1 n) as [E|Hne]; [exact E|exfalso].
    pose proof (filter_two_places (mem i) components k1 n c1 c Hne Hc1 Hn Hi1 Hi). lia. }
  assert (K2 : k2 = n).
  { destruct (Nat.eq_dec k2 n) as [E|Hne]; [exact E|exfalso].
    pose proof (filter_two_places (mem j) components k2 n c2 c Hne Hc2 Hn Hj2 Hj). lia. }
  subst k1 k2. unfold _merge_components. rewrite E1, E2. cbv zeta.
  rewrite delete_upd. eexists. split; [reflexivity|].
  pose proof (delete_perm components n c Hn) as P.
  split; [rewrite (Permutation_length P); reflexivity|].
  intros c' Hc'.
  pose proof (filter_length_perm (mem i) _ _ P) as Fi.
  pose proof (filter_length_perm (mem j) _ _ P) as Fj.
  cbn [filter] in Fi, Fj. rewrite Hi in Fi. rewrite Hj in Fj.
  cbn [length] in Fi, Fj. split.
  - apply (filter_none (mem i) (delete components n)); [lia|exact Hc'].
  - apply (filter_none (mem j) (delete components n)); [lia|exact Hc'].
Qed.

Lemma merge_components_same_component_witness :
  exists components',
    _merge_components [[0; 1]; [2]] 0 1 = Ok components' /\
    length [[0; 1]; [2]] = S (length components') /\
    forall c, In c components' -> mem 0 c = false /\ mem 1 c = false.
Proof.
  apply merge_components_same_component; reflexivity.
Defined.

Lemma forest_no_loop (E : list (node * node)) (a b : node) :
  forest_inc E -> In (a, b) E -> a <> b.
Proof.
  induction E as [|e E IH]; intros HF Hin; [destruct Hin|].
  cbn [forest_inc] in HF. destruct HF as [Hn HF].
  destruct Hin as [->|Hin]; [|apply IH; assumption].
  cbn [fst snd] in Hn. intros ->. apply Hn. apply conn_refl.
Qed.

(** X9.  For every square matrix [mst] returns a graph; each of its edges
    joins two different nodes below [p] and weighs [corr[u, v]] or
    [corr[v, u]] for its two ends; for a symmetric matrix these are the
    same entry. *)
Theorem mst_returns_matrix_edges (corr : matrix) :
  is_square corr ->
  exists G,
    mst corr = Ok G /\
    edges_from corr (shape0 corr) G /\
    ((forall i j, i < shape0 corr -> j < shape0 corr -> get corr i j = get corr j i) ->
     forall u v w, In (u, v, w) (edges G) -> w = get corr u v /\ w = get corr v u).
Proof.
  intros Hsq. set (p := shape0 corr) in *.
  assert (Hex : exists G, mst corr = Ok G /\
            forall u v w, In (u, v, w) (edges G) ->
              u < p /\ v < p /\ u <> v /\ w = get corr u v).
  { destruct (Nat.eq_dec p 0) as [Hz|Hnz].
    { destruct corr as [|r corr]; [|discriminate Hz].
      exists nx_Graph. split; [reflexivity|]. intros u v w []. }
    assert (Hp : 0 < p) by lia.
    destruct (mst_candidates corr Hsq) as [HP Hdesc]. fold p in HP, Hdesc.
    set (vals := reversed (argsort (flatten corr))) in *.
    assert (Hbound : exists w, forall v, In v vals ->
              (candidate_weight corr p v <= w)%Q).
    { destruct vals as [|v0 rest]; [exists 0%Q; intros v []|].
      exists (candidate_weight corr p v0). intros v [<-|Hv]; [apply Qle_refl|].
      inversion Hdesc as [|? ? _ Hrest]; subst.
      rewrite Forall_forall in Hrest. apply Hrest. exact Hv. }
    destruct Hbound as [w0 Hw].
    destruct (mst_loop_correct corr p Hp vals [] (singletons p) nx_Graph w0
                (mst_inv_initial corr p) HP Hdesc Hw)
      as [G [comps [Hloop [Hinv _]]]].
    exists G. split; [exact Hloop|].
    intros u v w Hin.
    assert (Hpair : In (u, v) (pairs G)).
    { unfold pairs. apply (in_map fst) in Hin. exact Hin. }
    destruct (mi_range _ _ _ _ _ Hinv u v Hpair) as [Hu Hv].
    repeat split; try assumption.
    - apply (forest_no_loop (rev (pairs G))); [apply (mi_forest _ _ _ _ _ Hinv)|].
      apply in_rev in Hpair. exact Hpair.
    - apply (mi_weight _ _ _ _ _ Hinv (u, v, w) Hin). }
  destruct Hex as [G [HG He]]. exists G. split; [exact HG|]. split.
  - intros u v w Hin. destruct (He u v w Hin) as [Hu [Hv [Hne Hw]]].
    repeat split; auto.
  - intros Hsym u v w Hin. destruct (He u v w Hin) as [Hu [Hv [Hne Hw]]].
    split; [exact Hw|]. rewrite <- (Hsym u v Hu Hv). exact Hw.
Qed.

Lemma mst_returns_matrix_edges_witness :
  let corr := [[1; 1 # 2; 1 # 3]; [1 # 2; 1; 1 # 4]; [1 # 3; 1 # 4; 1]]%Q in
  exists G,
    mst corr = Ok G /\
    edges_from corr (shape0 corr) G /\
    ((forall i j, i < shape0 corr -> j < shape0 corr -> get corr i j = get corr j i) ->
     forall u v w, In (u, v, w) (edges G) -> w = get corr u v /\ w = get corr v u).
Proof.
  apply mst_returns_matrix_edges. repeat constructor.
Defined.
